(** * horovod/torch/functions.py: state and object synchronisation

    A shallow embedding of [broadcast_parameters], [broadcast_optimizer_state],
    [broadcast_object] and [allgather_object], and the properties of the
    synchronisation protocol proved about them.

    Layout: the embedding comes first (collective primitives, the object
    exchange protocol, the scalar/tensor conversions, the optimizer state
    broadcaster), the theorems follow. *)

From Stdlib Require Import ZArith Lia.
From Stdlib Require Import Strings.Ascii Strings.Byte.
From Stdlib Require Import Floats.SpecFloat.
From stdpp Require Import base tactics option list strings pretty gmap sorting.

Set Warnings "-register-all".
Local Open Scope Z_scope.

(* ===================================================================== *)
(** * Part I: the embedding                                               *)
(* ===================================================================== *)

(** ** Exceptions

    The Python exceptions the code can end with.  [ValueError] is raised by
    the source itself; the others come out of the tensor runtime, the codec
    and the collective layer. *)
Inductive exn : Type :=
| ValueError (msg : string)
| RuntimeError (msg : string)
| TypeError (msg : string)
| IndexError (msg : string)
| KeyError (msg : string)
| UnpicklingError
| HorovodInternalError (msg : string).

Global Instance exn_eq_dec : EqDecision exn.
Proof. solve_decision. Defined.

(** A call that returns a value or raises. *)
Inductive result (A : Type) : Type :=
| Ok (a : A)
| Err (e : exn).
Arguments Ok {A} a.
Arguments Err {A} e.

Global Instance result_ret : MRet result := @Ok.
Global Instance result_bind : MBind result := λ A B f r,
  match r with
  | Ok a => f a
  | Err e => Err e
  end.
Global Instance result_fmap : FMap result := λ A B f r,
  match r with
  | Ok a => Ok (f a)
  | Err e => Err e
  end.

(** ** Collective primitives (horovod.torch.mpi_ops) *)
Module Collective.

(** The two tensor kinds the object exchange protocol builds:
    [torch.IntTensor] and [torch.ByteTensor], both one-dimensional. *)
Inductive tensor : Type :=
| IntTensor (data : list Z)
| ByteTensor (data : list byte).

Definition numel (t : tensor) : nat :=
  match t with
  | IntTensor d => length d
  | ByteTensor d => length d
  end.

Definition same_dtype (t u : tensor) : bool :=
  match t, u with
  | IntTensor _, IntTensor _ => true
  | ByteTensor _, ByteTensor _ => true
  | _, _ => false
  end.

Definition same_shape (t u : tensor) : bool :=
  same_dtype t u && Nat.eqb (numel t) (numel u).

(** The calls one rank makes, with the collective calls left open: a
    collective returns what the whole group of ranks produces, so the
    continuation takes the resulting tensor.  [broadcast_] works in place;
    its continuation receives the new contents of the buffer it was given. *)
Inductive prog (A : Type) : Type :=
| Ret (a : A)
| Raise (e : exn)
| Broadcast_ (t : tensor) (root_rank : Z) (name : string) (k : tensor → prog A)
| Allgather (t : tensor) (name : string) (k : tensor → prog A).
Arguments Ret {A} a.
Arguments Raise {A} e.
Arguments Broadcast_ {A} t root_rank name k.
Arguments Allgather {A} t name k.

Fixpoint bind {A B} (p : prog A) (f : A → prog B) : prog B :=
  match p with
  | Ret a => f a
  | Raise e => Raise e
  | Broadcast_ t r n k => Broadcast_ t r n (λ x, bind (k x) f)
  | Allgather t n k => Allgather t n (λ x, bind (k x) f)
  end.

Definition broadcast_ (t : tensor) (root_rank : Z) (name : string) : prog tensor :=
  Broadcast_ t root_rank name Ret.

Definition allgather (t : tensor) (name : string) : prog tensor :=
  Allgather t name Ret.

(** The buffer a rank hands to the collective it waits in, and how the rank
    goes on from there. *)
Definition buffer {A} (p : prog A) : tensor :=
  match p with
  | Broadcast_ t _ _ _ | Allgather t _ _ => t
  | _ => IntTensor []
  end.

Definition continue {A} (p : prog A) : tensor → prog A :=
  match p with
  | Broadcast_ _ _ _ k | Allgather _ _ k => k
  | _ => λ _, p
  end.

(** How one rank's call ends. [Hung]: the rank waits in a collective that
    the other ranks never join. *)
Inductive outcome (A : Type) : Type :=
| Returned (a : A)
| Raised (e : exn)
| Hung.
Arguments Returned {A} a.
Arguments Raised {A} e.
Arguments Hung {A}.

Definition settle {A} (p : prog A) : outcome A :=
  match p with
  | Ret a => Returned a
  | Raise e => Raised e
  | _ => Hung
  end.

Definition finished {A} (p : prog A) : bool :=
  match p with
  | Ret _ | Raise _ => true
  | _ => false
  end.

Definition bcast_request {A} (p : prog A)
  : option (tensor * Z * string * (tensor → prog A)) :=
  match p with
  | Broadcast_ t r n k => Some (t, r, n, k)
  | _ => None
  end.

Definition gather_request {A} (p : prog A)
  : option (tensor * string * (tensor → prog A)) :=
  match p with
  | Allgather t n k => Some (t, n, k)
  | _ => None
  end.

Definition concat_tensors (t : tensor) (ts : list tensor) : option tensor :=
  match t with
  | IntTensor _ =>
      (λ ds, IntTensor (concat ds)) <$>
        mapM (λ u, match u with IntTensor d => Some d | _ => None end) ts
  | ByteTensor _ =>
      (λ ds, ByteTensor (concat ds)) <$>
        mapM (λ u, match u with ByteTensor d => Some d | _ => None end) ts
  end.

(** Modelled from the spec: [broadcast(buffer, root, name)] of the
    Collective Primitive Interface, whose code (horovod.torch.mpi_ops) is
    not part of the sources.  Every rank makes the call; the name identifies
    the logical transfer, so the ranks meet only on one name and one root.
    Then "root's buffer value is copied into every rank's identically-shaped
    buffer"; buffers of another shape, or a root that is no rank, are
    refused on every rank.  [None]: the ranks do not meet. *)
Definition deliver_broadcast {A}
    (reqs : list (tensor * Z * string * (tensor → prog A)))
  : option (list (prog A)) :=
  match reqs with
  | [] => None
  | (_, r0, n0, _) :: _ =>
      if forallb (λ '(_, r, n, _), (r =? r0) && String.eqb n n0) reqs then
        Some
          match (if 0 <=? r0 then reqs !! Z.to_nat r0 else None) with
          | Some (troot, _, _, _) =>
              if forallb (λ '(t, _, _, _), same_shape t troot) reqs
              then (λ '(_, _, _, k), k troot) <$> reqs
              else (λ _, Raise (HorovodInternalError
                                  "Mismatched broadcast tensor shapes")) <$> reqs
          | None =>
              (λ _, Raise (HorovodInternalError "Invalid root rank")) <$> reqs
          end
      else None
  end.

(** Modelled from the spec: [allgather(buffer, name)], which "returns every
    rank's buffer concatenated in rank order". *)
Definition deliver_allgather {A}
    (reqs : list (tensor * string * (tensor → prog A)))
  : option (list (prog A)) :=
  match reqs with
  | [] => None
  | (t0, n0, _) :: _ =>
      if forallb (λ '(_, n, _), String.eqb n n0) reqs then
        Some
          match concat_tensors t0 ((λ '(t, _, _), t) <$> reqs) with
          | Some g => (λ '(_, _, k), k g) <$> reqs
          | None =>
              (λ _, Raise (HorovodInternalError
                             "Mismatched allgather tensor types")) <$> reqs
          end
      else None
  end.

(** One collective call of the whole group: it completes when every rank
    has arrived at the same call. *)
Definition round {A} (ps : list (prog A)) : option (list (prog A)) :=
  match mapM bcast_request ps with
  | Some reqs => deliver_broadcast reqs
  | None =>
      match mapM gather_request ps with
      | Some reqs => deliver_allgather reqs
      | None => None
      end
  end.

(** The ranks of a group run side by side, index [i] of the list being rank
    [i].  [None]: more collective calls than [fuel]. *)
Fixpoint run {A} (fuel : nat) (ps : list (prog A)) : option (list (outcome A)) :=
  if forallb finished ps then Some (settle <$> ps)
  else
    match fuel with
    | O => None
    | S fuel' =>
        match round ps with
        | Some ps' => run fuel' ps'
        | None => Some (settle <$> ps)
        end
    end.

(** Every rank of a group of [length args] ranks makes the same call, rank
    [i] with its own arguments. [f] receives [rank()] and [size()]. *)
Definition launch {X A} (f : Z → nat → X → prog A) (args : list X) : list (prog A) :=
  imap (λ i x, f (Z.of_nat i) (length args) x) args.

End Collective.

(** ** Object Exchange Protocol: [broadcast_object], [allgather_object] *)
Module ObjectExchange.
Import Collective.

Global Instance prog_ret : MRet prog := @Ret.
Global Instance prog_bind : MBind prog := λ A B f p, bind p f.

(** [l[i]] on a Python sequence. *)
Definition py_index {A} (l : list A) (i : Z) : option A :=
  let n := Z.of_nat (length l) in
  if 0 <=? i then l !! Z.to_nat i
  else if - n <=? i then l !! Z.to_nat (n + i)
  else None.

(** The bounds of a slice [l[start:stop]]: negative bounds count from the
    end, and both are cut to the sequence. *)
Definition clamp_index (len i : Z) : Z :=
  if i <? 0 then Z.max (i + len) 0 else Z.min i len.

Definition py_slice {A} (l : list A) (start stop : Z) : list A :=
  let n := Z.of_nat (length l) in
  let a := clamp_index n start in
  let b := clamp_index n stop in
  take (Z.to_nat (b - a)) (drop (Z.to_nat a) l).

(** Python's [sum] over integers. *)
Definition sum (l : list Z) : Z := foldr Z.add 0 l.

(** [torch.IntTensor(data)] for a list of Python integers: the elements
    are 32-bit, and a value that does not fit is refused. *)
Definition int32 (z : Z) : bool := (- 2 ^ 31 <=? z) && (z <? 2 ^ 31).

Definition torch_IntTensor (data : list Z) : prog tensor :=
  if forallb int32 data then Ret (IntTensor data)
  else Raise (RuntimeError
                "value cannot be converted to type int32 without overflow").

(** [sz.tolist()] and [.numpy()] of an integer tensor. *)
Definition tolist (t : tensor) : prog (list Z) :=
  match t with
  | IntTensor d => Ret d
  | ByteTensor _ => Raise (TypeError "expected an IntTensor")
  end.

(** [t.numpy().tobytes()] of a byte tensor. *)
Definition tobytes (t : tensor) : prog (list byte) :=
  match t with
  | ByteTensor d => Ret d
  | IntTensor _ => Raise (TypeError "expected a ByteTensor")
  end.

Definition index {A} (l : list A) (i : Z) : prog A :=
  match py_index l i with
  | Some x => Ret x
  | None => Raise (IndexError "index out of range")
  end.

Section Protocol.
Context {Obj : Type}.
(** [cloudpickle.dump] and [cloudpickle.load]: the codec, an external
    collaborator, over the type [Obj] of the objects it can serialize. *)
Variable dump : Obj → list byte.
Variable load : list byte → option Obj.
(** [type(obj).__name__] *)
Variable type_name : Obj → string.
(** What fresh, uninitialised tensor memory holds at each offset. *)
Variable uninitialized : nat → byte.

Definition cloudpickle_load (b : list byte) : prog Obj :=
  match load b with
  | Some o => Ret o
  | None => Raise UnpicklingError
  end.

(** [torch.ByteTensor(n)] called with an integer: a tensor of [n]
    uninitialised bytes. *)
Definition ByteTensor_of_size (n : Z) : prog tensor :=
  if n <? 0 then Raise (RuntimeError "negative dimension")
  else Ret (ByteTensor (uninitialized <$> seq 0 (Z.to_nat n))).

Definition default_name (name : option string) (obj : Obj) : string :=
  match name with
  | None => type_name obj
  | Some n => n
  end.

(** [broadcast_object(obj, root_rank, name)] as rank [rank] runs it. *)
Definition broadcast_object (rank : Z) (obj : Obj) (root_rank : Z)
    (name : option string) : prog Obj :=
  let name := default_name name obj in
  t ← (if rank =? root_rank then
         let b := dump obj in
         let t := ByteTensor b in
         sz ← torch_IntTensor [Z.of_nat (numel t)];
         _ ← broadcast_ sz root_rank (name +:+ ".sz");
         mret t
       else
         sz ← torch_IntTensor [0];
         sz ← broadcast_ sz root_rank (name +:+ ".sz");
         l ← tolist sz;
         n ← index l 0;
         ByteTensor_of_size n);
  t ← broadcast_ t root_rank (name +:+ ".t");
  if negb (rank =? root_rank) then
    buf ← tobytes t;
    cloudpickle_load buf
  else mret obj.

(** [allgather_object(obj, name)] on a group of [size] ranks. *)
Definition select (sizes : list Z) (gathered : list byte) (i : Z)
  : prog (list byte) :=
  let start := sum (py_slice sizes 0 i) in
  sz_i ← index sizes i;
  let end_ := start + sz_i in
  mret (py_slice gathered start end_).

Definition allgather_object (size : nat) (obj : Obj) (name : option string)
  : prog (list Obj) :=
  let name := default_name name obj in
  let t := ByteTensor (dump obj) in
  sz ← torch_IntTensor [Z.of_nat (numel t)];
  sizes ← allgather sz (name +:+ ".sz") ≫= tolist;
  gathered ← allgather t (name +:+ ".t") ≫= tobytes;
  mapM (λ i, select sizes gathered (Z.of_nat i) ≫= cloudpickle_load)
       (seq 0 size).

(** The whole group calls [broadcast_object]; [calls] lists each rank's
    [(obj, name)]. *)
Definition broadcast_object_group (root_rank : Z)
    (calls : list (Obj * option string)) : list (prog Obj) :=
  launch (λ rank _ c, broadcast_object rank c.1 root_rank c.2) calls.

Definition allgather_object_group (calls : list (Obj * option string))
  : list (prog (list Obj)) :=
  launch (λ _ size c, allgather_object size c.1 c.2) calls.

(** The pickles of a group's objects in rank order, and their lengths:
    what the two allgathers of [allgather_object] deliver on every rank,
    the first as the size vector, the second concatenated. *)
Definition pickles (calls : list (Obj * option string)) : list (list byte) :=
  (λ c, dump c.1) <$> calls.

Definition gathered_sizes (calls : list (Obj * option string)) : list Z :=
  (λ b, Z.of_nat (length b)) <$> pickles calls.

(** The length of an object's pickle can be announced: it fits the
    32-bit tensor that carries it. *)
Definition announceable (obj : Obj) : Prop :=
  Z.of_nat (length (dump obj)) < 2 ^ 31.

(** The ranks of a group enter the exchange on one name: the name they
    pass, or the type name of their object when they pass none. *)
Definition same_channel (calls : list (Obj * option string)) : Prop :=
  ∀ i j c c', calls !! i = Some c → calls !! j = Some c' →
    default_name c.2 c.1 = default_name c'.2 c'.1.

End Protocol.
End ObjectExchange.


(** ** Scalars in tensors: [_get_types] and [_recursive_cast] *)
Module TypeCast.

(** *** Python values *)

(** The values an optimizer keeps outside tensors: numbers, booleans, and
    tuples or lists of such values.  A Python [float] is a binary64 number,
    kept in the canonical form of [SpecFloat]. *)
Inductive scalar : Type :=
| PyInt (z : Z)
| PyFloat (f : spec_float)
| PyBool (b : bool).

Inductive pyval : Type :=
| PyScalar (s : scalar)
| PyTuple (items : list pyval)
| PyList (items : list pyval).

(** [type(x)] of a scalar and of a container. *)
Inductive scalar_type : Type := py_int | py_float | py_bool.
Inductive container_type : Type := py_tuple | py_list.

Definition type_of_scalar (s : scalar) : scalar_type :=
  match s with
  | PyInt _ => py_int
  | PyFloat _ => py_float
  | PyBool _ => py_bool
  end.

(** What [_get_types] returns: a type, or a pair of a type and the list of
    what it returns for the items. *)
Inductive signature : Type :=
| Scalar (t : scalar_type)
| Container (t : container_type) (items : list signature).

(** *** Floating point *)

(** binary64 (Python [float]) and binary32 (the elements of a
    [torch.Tensor], which is a [FloatTensor]).  Conversions round to the
    nearest, ties to even. *)
Definition round_to (prec emax : Z) (f : spec_float) : spec_float :=
  match f with
  | S754_finite s m e => binary_normalize prec emax (cond_Zopp s (Zpos m)) e s
  | _ => f
  end.

Definition to_binary32 : spec_float → spec_float := round_to 24 128.
Definition to_binary64 : spec_float → spec_float := round_to 53 1024.

Definition float_of_int (z : Z) : spec_float :=
  binary_normalize 53 1024 z 0 false.

(** [int(x)] of a float: the integer part. *)
Definition int_of_float (f : spec_float) : result Z :=
  match f with
  | S754_zero _ => Ok 0
  | S754_finite s m e => Ok (cond_Zopp s (Z.shiftl (Zpos m) e))
  | S754_infinity _ =>
      Err (RuntimeError "cannot convert float infinity to integer")
  | S754_nan => Err (ValueError "cannot convert float NaN to integer")
  end.

(** [bool(x)] of a float. *)
Definition bool_of_float (f : spec_float) : bool :=
  match f with
  | S754_zero _ => false
  | _ => true
  end.

(** *** Float tensors *)

(** The contents of a float tensor or numpy array: an element, or the
    sequence of sub-arrays along the first dimension. *)
Inductive ndarray : Type :=
| Elem (x : spec_float)
| Array (items : list ndarray).

(** How the tensor constructor stores one Python scalar as a binary32
    element.  An integer goes through a double, and one beyond 2^53 is
    refused. *)
Definition store_scalar (s : scalar) : result spec_float :=
  match s with
  | PyFloat f => Ok (to_binary32 f)
  | PyInt z =>
      if 2 ^ 53 <? Z.abs z
      then Err (RuntimeError "Precision loss when unpacking double")
      else Ok (to_binary32 (float_of_int z))
  | PyBool b => Ok (to_binary32 (float_of_int (if b then 1 else 0)))
  end.

Fixpoint tensor_data (x : pyval) : result ndarray :=
  match x with
  | PyScalar s => Elem <$> store_scalar s
  | PyTuple items | PyList items => Array <$> mapM tensor_data items
  end.

(** The shape of an array, when its sub-arrays all have one shape. *)
Fixpoint shape (a : ndarray) : option (list nat) :=
  match a with
  | Elem _ => Some []
  | Array [] => Some [0%nat]
  | Array ((first :: rest) as items) =>
      match shape first with
      | Some s =>
          if forallb (λ item, bool_decide (shape item = Some s)) rest
          then Some (length items :: s)
          else None
      | None => None
      end
  end.

(** [torch.Tensor(x)] for a sequence [x]. *)
Definition torch_Tensor (x : pyval) : result ndarray :=
  a ← tensor_data x;
  match a, shape a with
  | Array _, Some _ => Ok a
  | Array _, None => Err (ValueError "expected sequence of equal lengths")
  | Elem _, _ => Err (TypeError "new(): data must be a sequence")
  end.

(** [a[0]] and iteration over the first dimension, as [tuple(a)] or
    [list(a)] does it. *)
Definition first_item (a : ndarray) : result ndarray :=
  match a with
  | Array (x :: _) => Ok x
  | Array [] => Err (IndexError "index 0 is out of bounds")
  | Elem _ => Err (IndexError "invalid index to scalar variable")
  end.

Definition iterate (a : ndarray) : result (list ndarray) :=
  match a with
  | Array items => Ok items
  | Elem _ => Err (TypeError "iteration over a 0-d array")
  end.

(** The element of a numpy scalar, or of an array that holds one element
    in all (numpy converts those to Python scalars too). *)
Fixpoint only_element (a : ndarray) : result spec_float :=
  match a with
  | Elem x => Ok x
  | Array [item] => only_element item
  | Array _ =>
      Err (TypeError "only size-1 arrays can be converted to Python scalars")
  end.

(** [t(x)] for a scalar type [t]: [int(x)], [float(x)], [bool(x)]. *)
Definition scalar_cast (t : scalar_type) (a : ndarray) : result scalar :=
  x ← only_element a;
  match t with
  | py_int => PyInt <$> int_of_float x
  | py_float => Ok (PyFloat (to_binary64 x))
  | py_bool => Ok (PyBool (bool_of_float x))
  end.

(** [t(items)] for a container type [t]. *)
Definition build (t : container_type) (items : list pyval) : pyval :=
  match t with
  | py_tuple => PyTuple items
  | py_list => PyList items
  end.

(** *** The source's two functions *)

(** [_get_types(x)]: tuples and lists are the [Iterable] values. *)
Fixpoint _get_types (x : pyval) : signature :=
  match x with
  | PyTuple items => Container py_tuple (_get_types <$> items)
  | PyList items => Container py_list (_get_types <$> items)
  | PyScalar s => Scalar (type_of_scalar s)
  end.

(** [_recursive_cast(x, dtype)]; the inner loop is
    [[_recursive_cast(x[i], dtypes[i]) for i in range(len(x))]]. *)
Fixpoint _recursive_cast (x : ndarray) (dtype : signature) {struct dtype}
  : result pyval :=
  match dtype with
  | Container t dtypes =>
      x ← iterate x;
      items ← (fix items (x : list ndarray) (dtypes : list signature)
                 {struct dtypes} : result (list pyval) :=
                 match x, dtypes with
                 | [], _ => Ok []
                 | xi :: x', di :: dtypes' =>
                     y ← _recursive_cast xi di;
                     ys ← items x' dtypes';
                     Ok (y :: ys)
                 | _ :: _, [] => Err (IndexError "list index out of range")
                 end) x dtypes;
      Ok (build t items)
  | Scalar t => PyScalar <$> scalar_cast t x
  end.

(** The loop of [_recursive_cast] over the items of a container, on its
    own. *)
Definition cast_items : list ndarray → list signature → result (list pyval) :=
  fix items (x : list ndarray) (dtypes : list signature) {struct dtypes} :=
    match x, dtypes with
    | [], _ => Ok []
    | xi :: x', di :: dtypes' =>
        y ← _recursive_cast xi di;
        ys ← items x' dtypes';
        Ok (y :: ys)
    | _ :: _, [] => Err (IndexError "list index out of range")
    end.

(** A value on its way through a tensor and back, as the option callbacks
    do it: [torch.Tensor([v])], then [.numpy()[0]], then
    [_recursive_cast] with the types recorded by [_get_types]. *)
Definition flatten (v : pyval) : result ndarray :=
  torch_Tensor (PyList [v]) ≫= first_item.

Definition reconstruct (a : ndarray) (dtypes : signature) : result pyval :=
  _recursive_cast a dtypes.

(** The scalars of a value, and what it means for one of them to come
    back from a binary32 element as it went in. *)
Fixpoint scalars (v : pyval) : list scalar :=
  match v with
  | PyScalar s => [s]
  | PyTuple items | PyList items => mjoin (scalars <$> items)
  end.

Definition survives_binary32 (s : scalar) : Prop :=
  (x ← store_scalar s; scalar_cast (type_of_scalar s) (Elem x)) = Ok s.

(** No element of an array is an infinity or a NaN. *)
Fixpoint all_finite (a : ndarray) : bool :=
  match a with
  | Elem (S754_infinity _) | Elem S754_nan => false
  | Elem _ => true
  | Array items => forallb all_finite items
  end.

End TypeCast.

(** ** Parameter and optimizer state broadcast *)
Module OptimizerState.
Import TypeCast.

(** *** The optimizer *)

(** [id(p)] of a parameter, and the identity of a tensor object: tensors
    are shared and written in place, so the optimizer's state refers to
    them by their place in a store. *)
Definition pid : Type := Z.
Definition loc : Type := nat.

(** A field of a parameter's state: a tensor or a scalar. *)
Inductive field_value : Type :=
| FTensor (p : loc)
| FScalar (s : scalar).

(** Dictionaries keep their insertion order, which the broadcast relies
    on: they are association lists. *)
Definition dict (K V : Type) : Type := list (K * V).

Fixpoint dict_get {K V} `{EqDecision K} (d : dict K V) (k : K) : option V :=
  match d with
  | [] => None
  | (k', v) :: d' => if decide (k' = k) then Some v else dict_get d' k
  end.

(** [d[k] = v]: the value of an existing key is replaced where it
    stands, a new key goes to the end. *)
Fixpoint dict_set {K V} `{EqDecision K} (d : dict K V) (k : K) (v : V)
  : dict K V :=
  match d with
  | [] => [(k, v)]
  | (k', v') :: d' =>
      if decide (k' = k) then (k', v) :: d' else (k', v') :: dict_set d' k v
  end.

Definition param_state : Type := dict string field_value.

(** A parameter: [id(p)], [p.requires_grad], [p.size()], [p.grad]. *)
Record parameter : Type := Param {
  p_id : pid;
  requires_grad : bool;
  size : list nat;
  grad : option ndarray
}.

(** A parameter group: [group['params']] and its other entries. *)
Record param_group : Type := ParamGroup {
  group_params : list parameter;
  group_options : dict string pyval
}.

(** The optimizer: whether it is a [torch.optim.LBFGS], its [__module__],
    [optimizer.param_groups] and [optimizer.state] (keyed here by the
    parameter's id, as [state_dict()] presents it). *)
Record optimizer : Type := Optimizer {
  is_LBFGS : bool;
  module_ : string;
  param_groups : list param_group;
  state : dict pid param_state
}.

(** Assignments to one attribute or entry. *)
Definition with_grad (p : parameter) (g : option ndarray) : parameter :=
  {| p_id := p_id p; requires_grad := requires_grad p; size := size p;
     grad := g |}.

Definition with_params (grp : param_group) (ps : list parameter)
  : param_group :=
  {| group_params := ps; group_options := group_options grp |}.

Definition with_options (grp : param_group) (opts : dict string pyval)
  : param_group :=
  {| group_params := group_params grp; group_options := opts |}.

Definition with_param_groups (o : optimizer) (gs : list param_group)
  : optimizer :=
  {| is_LBFGS := is_LBFGS o; module_ := module_ o; param_groups := gs;
     state := state o |}.

Definition with_state (o : optimizer) (s : dict pid param_state)
  : optimizer :=
  {| is_LBFGS := is_LBFGS o; module_ := module_ o;
     param_groups := param_groups o; state := s |}.

(** [DistributedOptimizer.__module__] *)
Definition DistributedOptimizer_module : string := "horovod.torch.optimizer".

(** What [optimizer.state_dict()] returns: the state under the parameters'
    ids, and every group packed into a fresh dictionary, its options first
    and the ids of its parameters under ['params']. *)
Inductive packed_entry : Type :=
| PackedParams (ids : list pid)
| PackedOption (v : pyval).

Record state_dict_t : Type := StateDict {
  sd_state : dict pid param_state;
  sd_param_groups : list (dict string packed_entry)
}.

(** The value of an entry: a list of ids is a list of integers. *)
Definition entry_value (e : packed_entry) : pyval :=
  match e with
  | PackedOption v => v
  | PackedParams ids => PyList ((λ i, PyScalar (PyInt i)) <$> ids)
  end.

Definition pack_group (g : param_group) : dict string packed_entry :=
  ((λ '(k, v), (k, PackedOption v)) <$> group_options g)
  ++ [("params", PackedParams (p_id <$> group_params g))].

Definition pack (o : optimizer) : state_dict_t :=
  {| sd_state := state o; sd_param_groups := pack_group <$> param_groups o |}.

(** [p.data.new(p.size()).zero_()] *)
Fixpoint zeros (size : list nat) : ndarray :=
  match size with
  | [] => Elem (S754_zero false)
  | n :: size' => Array (replicate n (zeros size'))
  end.

(** The parameters of an optimizer with a zero gradient on each one that
    requires gradients. *)
Definition with_zero_grad (p : parameter) : parameter :=
  if requires_grad p then with_grad p (Some (zeros (size p))) else p.

Definition with_zero_grads (gs : list param_group) : list param_group :=
  (λ grp, with_params grp (with_zero_grad <$> group_params grp)) <$> gs.

(** *** What a call does *)

(** [optimizer.step()] or [super(optimizer.__class__, optimizer).step()] *)
Inductive step_call : Type := OwnStep | SuperStep.

(** The handle of an asynchronous broadcast. *)
Record handle : Type := Handle {
  h_name : option string;
  h_tensor : loc;
  h_root : Z
}.

(** The calls out of this module and the writes to the optimizer, in the
    order they happen. *)
Inductive event : Type :=
| EvStateDict
| EvSetGrad (p : pid) (g : ndarray)
| EvStep (call : step_call) (self : optimizer)
| EvBroadcastAsync (name : option string) (p : loc) (root_rank : Z)
| EvSynchronize (h : handle)
| EvCallback (key : string).

(** One rank: its optimizer, its tensors, and what it has done so far. *)
Record world : Type := World {
  the_optimizer : optimizer;
  heap : list ndarray;
  trace : list event
}.

(** A computation on one rank: it may change the world and may raise; what
    it changed before raising stays changed. *)
Definition M (A : Type) : Type := world → result A * world.

Global Instance M_ret : MRet M := λ A a w, (Ok a, w).
Global Instance M_bind : MBind M := λ A B f m w,
  match m w with
  | (Ok a, w') => f a w'
  | (Err e, w') => (Err e, w')
  end.

Definition raise {A} (e : exn) : M A := λ w, (Err e, w).

Definition lift {A} (r : result A) : M A := λ w, (r, w).

Definition log (ev : event) : M unit := λ w,
  (Ok (), {| the_optimizer := the_optimizer w; heap := heap w;
             trace := trace w ++ [ev] |}).

Definition get_optimizer : M optimizer := λ w, (Ok (the_optimizer w), w).

Definition put_optimizer (o : optimizer) : M unit := λ w,
  (Ok (), {| the_optimizer := o; heap := heap w; trace := trace w |}).

Definition get_heap : M (list ndarray) := λ w, (Ok (heap w), w).

Definition put_heap (h : list ndarray) : M unit := λ w,
  (Ok (), {| the_optimizer := the_optimizer w; heap := h; trace := trace w |}).

(** [for x in l: s = body(s, x)] *)
Fixpoint for_fold {X S} (l : list X) (body : S → X → M S) (s : S) : M S :=
  match l with
  | [] => mret s
  | x :: l' => s' ← body s x; for_fold l' body s'
  end.

Definition for_each {X} (l : list X) (body : X → M unit) : M unit :=
  for_fold l (λ _ x, body x) ().

(** [enumerate(l)] *)
Definition enumerate {X} (l : list X) : list (nat * X) := imap pair l.

(** A new tensor object with the given contents; reading a tensor;
    writing one in place. *)
Definition alloc (a : ndarray) : M loc :=
  h ← get_heap;
  _ ← put_heap (h ++ [a]);
  mret (length h).

Definition read_tensor (p : loc) : M ndarray :=
  h ← get_heap;
  match h !! p with
  | Some a => mret a
  | None => raise (RuntimeError "no such tensor")
  end.

Definition write_tensor (p : loc) (a : ndarray) : M unit :=
  h ← get_heap;
  put_heap (<[p := a]> h).

(** [torch.Tensor(x)] as a new object. *)
Definition new_Tensor (x : pyval) : M loc :=
  a ← lift (torch_Tensor x);
  alloc a.

(** ['%s.%d' % (name, n)] *)
Definition format_key (name : string) (n : nat) : string :=
  name +:+ "." +:+ pretty n.

(** The closures [_create_callback] and [_create_option_callback] return,
    with the variables they capture. *)
Inductive callback : Type :=
| StateCallback (pid_ : pid) (name : string) (t : scalar_type) (p : loc)
| OptionCallback (index : nat) (option_key : string) (option_tensor : loc)
    (dtypes : signature).

(** The local variables [params], [callbacks] and [occurrences]. *)
Record collected : Type := Collected {
  params : list (string * loc);
  callbacks : gmap string callback;
  occurrences : gmap string nat
}.

(** What [broadcast_parameters] accepts for [params]: a dictionary, a list
    of tensors or of [(name, tensor)] tuples, or something else of the
    named type. *)
Inductive params_arg : Type :=
| ParamsDict (d : dict string loc)
| ParamsList (l : list (string * loc + loc))
| ParamsOther (type_name : string).

Section Rank.
(** The optimizer's update rule, an external collaborator: what a call of
    [step] makes of the optimizer and the tensors. *)
Variable update_rule :
  step_call → optimizer → list ndarray → optimizer * list ndarray.
(** The transport, an external collaborator seen from one rank: what
    [synchronize] finds for the transfer of the given name and local
    contents, the value the root sent or an error. *)
Variable wire : option string → ndarray → result ndarray.

(** [optimizer.state_dict()] *)
Definition optimizer_state_dict : M state_dict_t :=
  _ ← log EvStateDict;
  o ← get_optimizer;
  mret (pack o).

(** [p.grad = p.data.new(p.size()).zero_()] for the parameter at place
    [j] of group [i]. *)
Definition set_grad (i j : nat) (p : parameter) : M unit :=
  let g := zeros (size p) in
  _ ← log (EvSetGrad (p_id p) g);
  o ← get_optimizer;
  put_optimizer
    (with_param_groups o
       (alter (λ grp, with_params grp
                        (alter (λ q, with_grad q (Some g)) j (group_params grp)))
              i (param_groups o))).

Definition step (call : step_call) : M unit :=
  o ← get_optimizer;
  _ ← log (EvStep call o);
  h ← get_heap;
  let '(o', h') := update_rule call o h in
  _ ← put_optimizer o';
  put_heap h'.

(** [broadcast_async_(p, root_rank, name)] and [synchronize(handle)]:
    the transfer is in place and is complete when [synchronize] returns. *)
Definition broadcast_async_ (p : loc) (root_rank : Z) (name : option string)
  : M handle :=
  _ ← log (EvBroadcastAsync name p root_rank);
  mret {| h_name := name; h_tensor := p; h_root := root_rank |}.

Definition synchronize (h : handle) : M unit :=
  _ ← log (EvSynchronize h);
  a ← read_tensor (h_tensor h);
  received ← lift (wire (h_name h) a);
  write_tensor (h_tensor h) received.

(** [sorted(params.items())] of a dictionary with string keys. *)
Definition sorted_items (d : dict string loc) : list (string * loc) :=
  merge_sort (λ a b, String.le a.1 b.1) d.

(** [broadcast_parameters(params, root_rank)] *)
Definition broadcast_parameters (params : params_arg) (root_rank : Z)
  : M unit :=
  params ← match params with
           | ParamsDict d => mret ((λ '(n, p), (Some n, p)) <$> sorted_items d)
           | ParamsList l =>
               mret ((λ p, match p with
                           | inl (n, p) => (Some n, p)
                           | inr p => (None, p)
                           end) <$> l)
           | ParamsOther ty =>
               raise (ValueError ("invalid params of type: " +:+ ty))
           end;
  (* Run asynchronous broadcasts. *)
  handles ← for_fold params
              (λ handles '(name, p),
                 handle ← broadcast_async_ p root_rank name;
                 mret (handles ++ [handle])) [];
  (* Wait for completion. *)
  for_each handles synchronize.

(** The body of [_from_tensor] in [_create_callback]:
    [state_dict['state'][pid][name] = t(p.cpu().numpy()[0])].  The inner
    dictionaries of [state_dict['state']] are the optimizer's own. *)
Definition set_state_field (pid_ : pid) (name : string) (v : field_value)
  : M unit :=
  o ← get_optimizer;
  match dict_get (state o) pid_ with
  | Some fields =>
      put_optimizer
        (with_state o (dict_set (state o) pid_ (dict_set fields name v)))
  | None => raise (KeyError "state")
  end.

(** The body of [_from_tensor] in [_create_option_callback]:
    [optimizer.param_groups[index][option_key] = ...]. *)
Definition set_group_option (index : nat) (option_key : string) (v : pyval)
  : M unit :=
  o ← get_optimizer;
  match param_groups o !! index with
  | Some grp =>
      put_optimizer
        (with_param_groups o
           (<[index := with_options grp
                         (dict_set (group_options grp) option_key v)]>
              (param_groups o)))
  | None => raise (IndexError "list index out of range")
  end.

Definition invoke (cb : callback) : M unit :=
  match cb with
  | StateCallback pid_ name t p =>
      a ← read_tensor p;
      x ← lift (first_item a);
      s ← lift (scalar_cast t x);
      set_state_field pid_ name (FScalar s)
  | OptionCallback index option_key option_tensor dtypes =>
      a ← read_tensor option_tensor;
      x ← lift (first_item a);
      v ← lift (_recursive_cast x dtypes);
      set_group_option index option_key v
  end.

(** The loop over [group.items()]: one option of group [index]. *)
Definition collect_option (index : nat) (c : collected)
    (item : string * packed_entry) : M collected :=
  let '(option_key, option_value) := item in
  if String.eqb option_key "params" then mret c
  else
    let option_value := entry_value option_value in
    (* Options like the learning rate are scalar, and need to be wrapped
       in tensors *)
    let key := format_key option_key index in
    let dtypes := _get_types option_value in
    option_tensor ← new_Tensor (PyList [option_value]);
    mret {| callbacks :=
              <[key := OptionCallback index option_key option_tensor dtypes]>
                (callbacks c);
            params := params c ++ [(key, option_tensor)];
            occurrences := occurrences c |}.

(** The loop over [param_state.items()]: one field of parameter [pid]. *)
Definition collect_field (pid_ : pid) (c : collected)
    (item : string * field_value) : M collected :=
  let '(name, p) := item in
  (* Some parameter names may appear more than once, in which case we
     ensure they have a unique identifier defined by their order *)
  let occurrences :=
    <[name := S (default 0%nat (occurrences c !! name))]> (occurrences c) in
  let key := format_key name (default 0%nat (occurrences !! name)) in
  match p with
  | FScalar s =>
      (* Wrap the scalar in a FloatTensor, and remember its type so we
         can cast it back after unwrapping *)
      let t := type_of_scalar s in
      p ← new_Tensor (PyList [PyScalar s]);
      mret {| callbacks := <[key := StateCallback pid_ name t p]> (callbacks c);
              params := params c ++ [(key, p)];
              occurrences := occurrences |}
  | FTensor p =>
      mret {| callbacks := callbacks c;
              params := params c ++ [(key, p)];
              occurrences := occurrences |}
  end.

(** The loop over [group['params']]: one parameter id. *)
Definition collect_param (state_dict : state_dict_t) (c : collected)
    (pid_ : pid) : M collected :=
  match dict_get (sd_state state_dict) pid_ with
  | None =>
      (* The param has not set requires_grad, so skip broadcast *)
      mret c
  | Some param_state => for_fold param_state (collect_field pid_) c
  end.

(** The loop over [enumerate(state_dict['param_groups'])]: one group. *)
Definition collect_group (state_dict : state_dict_t) (c : collected)
    (item : nat * dict string packed_entry) : M collected :=
  let '(index, group) := item in
  c ← for_fold group (collect_option index) c;
  match dict_get group "params" with
  | Some (PackedParams ids) => for_fold ids (collect_param state_dict) c
  | Some (PackedOption _) => raise (TypeError "group['params']")
  | None => raise (KeyError "params")
  end.

Definition collect (state_dict : state_dict_t) : M collected :=
  for_fold (enumerate (sd_param_groups state_dict)) (collect_group state_dict)
    {| params := []; callbacks := ∅; occurrences := ∅ |}.

(** The initialisation of a newly created optimizer's state: the loop
    over [group['params']] of group [i], the loop over
    [optimizer.param_groups], the step and the second [state_dict()]. *)
Definition zero_grad_body (state_dict : state_dict_t) (i : nat)
  : nat * parameter → M unit :=
  λ '(j, p),
    if requires_grad p
       && bool_decide (dict_get (sd_state state_dict) (p_id p) = None)
    then set_grad i j p
    else mret ().

Definition zero_grad_group (state_dict : state_dict_t)
  : nat * param_group → M unit :=
  λ '(i, group),
    for_each (enumerate (group_params group)) (zero_grad_body state_dict i).

Definition initialize_state (state_dict : state_dict_t) : M state_dict_t :=
  if bool_decide (length (sd_state state_dict) = 0%nat) then
    o ← get_optimizer;
    _ ← for_each (enumerate (param_groups o)) (zero_grad_group state_dict);
    _ ← (if String.eqb (module_ o) DistributedOptimizer_module
         then step SuperStep
         else step OwnStep);
    optimizer_state_dict
  else mret state_dict.

(** The call up to the batched broadcast: the state is read and, where
    empty, initialized. *)
Definition prepare : M state_dict_t :=
  state_dict ← optimizer_state_dict;
  initialize_state state_dict.

(** Post-broadcast cleanup for non-tensor parameters: the body of the
    loop over [params], and the loop. *)
Definition callback_body (c : collected) : string * loc → M unit :=
  λ '(key, p),
    match callbacks c !! key with
    | Some cb => _ ← log (EvCallback key); invoke cb
    | None => mret ()
    end.

Definition run_callbacks (c : collected) : M unit :=
  for_each (params c) (callback_body c).

(** [broadcast_optimizer_state(optimizer, root_rank)] *)
Definition broadcast_optimizer_state (root_rank : Z) : M unit :=
  optimizer ← get_optimizer;
  if is_LBFGS optimizer then
    raise (ValueError "cannot broadcast torch.optim.LBFGS state")
  else
    state_dict ← optimizer_state_dict;
    state_dict ← initialize_state state_dict;
    if bool_decide (length (sd_state state_dict) = 0%nat) then mret ()
    else
      c ← collect state_dict;
      (* Synchronized broadcast of all parameters *)
      _ ← broadcast_parameters (ParamsList (inl <$> params c)) root_rank;
      run_callbacks c.

End Rank.

(** What the optimizer holds in field [name] of parameter [pid_]: the
    contents of the tensor, or the scalar; and what it holds under
    [option_key] in group [index]. *)
Definition state_field (w : world) (pid_ : pid) (name : string)
  : option (ndarray + scalar) :=
  fields ← dict_get (state (the_optimizer w)) pid_;
  v ← dict_get fields name;
  match v with
  | FTensor p => inl <$> heap w !! p
  | FScalar s => Some (inr s)
  end.

Definition group_option (w : world) (index : nat) (option_key : string)
  : option pyval :=
  grp ← param_groups (the_optimizer w) !! index;
  dict_get (group_options grp) option_key.

(** The slot of the optimizer a callback writes, and what it means for
    the optimizer of [w] to hold in that slot what the callback makes of
    its tensor in the store [h]. *)
Inductive slot : Type :=
| OptionSlot (index : nat) (option_key : string)
| StateSlot (pid_ : pid) (name : string).

Global Instance slot_eq_dec : EqDecision slot.
Proof. unfold pid. solve_decision. Defined.

Definition slot_of (cb : callback) : slot :=
  match cb with
  | StateCallback pid_ name _ _ => StateSlot pid_ name
  | OptionCallback index option_key _ _ => OptionSlot index option_key
  end.

Definition restored (w : world) (h : list ndarray) (cb : callback) : Prop :=
  match cb with
  | StateCallback pid_ name t p =>
      ∃ a x s, h !! p = Some a ∧ first_item a = Ok x
               ∧ scalar_cast t x = Ok s
               ∧ state_field w pid_ name = Some (inr s)
  | OptionCallback index option_key option_tensor dtypes =>
      ∃ a x v, h !! option_tensor = Some a ∧ first_item a = Ok x
               ∧ _recursive_cast x dtypes = Ok v
               ∧ group_option w index option_key = Some v
  end.

(** What a callback registered under [key] records of the state
    dictionary: an option callback the group, the option and the types of
    its value; a state callback the parameter, the field and the type of
    its scalar. *)
Definition registered (state_dict : state_dict_t) (key : string)
    (cb : callback) : Prop :=
  match cb with
  | StateCallback pid_ name t _ =>
      (∃ n, key = format_key name n)
      ∧ ∃ fields s, dict_get (sd_state state_dict) pid_ = Some fields
                    ∧ (name, FScalar s) ∈ fields
                    ∧ t = type_of_scalar s
  | OptionCallback index option_key _ dtypes =>
      key = format_key option_key index
      ∧ ∃ group e, sd_param_groups state_dict !! index = Some group
                   ∧ (option_key, e) ∈ group
                   ∧ dtypes = _get_types (entry_value e)
  end.

(** The (parameter, field) pairs the collection visits, in order. *)
Definition visited_of_id (state_dict : state_dict_t) (pid_ : pid)
  : list (pid * string) :=
  match dict_get (sd_state state_dict) pid_ with
  | Some fields => fields ≫= λ field, [(pid_, field.1)]
  | None => []
  end.

Definition visited_of_group (state_dict : state_dict_t)
    (item : nat * dict string packed_entry) : list (pid * string) :=
  match dict_get item.2 "params" with
  | Some (PackedParams ids) => ids ≫= visited_of_id state_dict
  | _ => []
  end.

Definition visited (state_dict : state_dict_t) : list (pid * string) :=
  enumerate (sd_param_groups state_dict) ≫= visited_of_group state_dict.

(** The gradient assignments to the parameters that require gradients, in
    the order of the parameters; and the events that are neither a
    gradient assignment nor a step. *)
Definition grad_events (ps : list parameter) : list event :=
  (λ p, EvSetGrad (p_id p) (zeros (size p)))
    <$> filter (λ p, requires_grad p) ps.

Definition no_callback (ev : event) : Prop :=
  match ev with
  | EvCallback _ => False
  | _ => True
  end.

Definition no_initialisation (ev : event) : Prop :=
  match ev with
  | EvStep _ _ | EvSetGrad _ _ => False
  | _ => True
  end.

(** *** Vocabulary of the properties *)

(** A relation between the world before and after that holds across every
    step of a computation holds across the computation. *)
Definition across (R : world → world → Prop) {A} (m : M A) : Prop :=
  ∀ w, R w (m w).2.

(** The events a computation adds to the trace all satisfy [P]. *)
Definition adds (P : event → Prop) (w w' : world) : Prop :=
  ∃ evs, trace w' = trace w ++ evs ∧ Forall P evs.

(** The optimizer is left as it was; the tensors are left as they were. *)
Definition same_optimizer (w w' : world) : Prop :=
  the_optimizer w' = the_optimizer w.

Definition same_heap (w w' : world) : Prop := heap w' = heap w.

(** The callbacks of a collection are coherent when no two of them write
    one slot. *)
Definition coherent (c : collected) : Prop :=
  ∀ k1 k2 cb1 cb2,
    callbacks c !! k1 = Some cb1 → callbacks c !! k2 = Some cb2 →
    slot_of cb1 = slot_of cb2 → cb1 = cb2.

(** What holds of [callbacks] while the collection runs, [V] being the
    (parameter, field) pairs visited so far: every key of a callback is a
    key of [params]; every callback records what the state dictionary
    holds; the state callbacks are those of visited pairs, one a pair. *)
Definition collecting (sd : state_dict_t) (V : list (pid * string))
    (c : collected) : Prop :=
  (∀ k cb, callbacks c !! k = Some cb → k ∈ (params c).*1)
  ∧ (∀ k cb, callbacks c !! k = Some cb → registered sd k cb)
  ∧ (∀ k pid_ name t p,
       callbacks c !! k = Some (StateCallback pid_ name t p) →
       (pid_, name) ∈ V)
  ∧ (∀ k1 k2 pid_ name t1 p1 t2 p2,
       callbacks c !! k1 = Some (StateCallback pid_ name t1 p1) →
       callbacks c !! k2 = Some (StateCallback pid_ name t2 p2) →
       k1 = k2).

(** The (name, tensor) pairs [broadcast_parameters] makes of its argument,
    in the order it takes them; the tensors among them; and the events of
    submitting the pairs and of waiting for them. *)
Definition entries_of (params : params_arg)
  : option (list (option string * loc)) :=
  match params with
  | ParamsDict d => Some ((λ '(n, p), (Some n, p)) <$> sorted_items d)
  | ParamsList l =>
      Some ((λ p, match p with
                  | inl (n, p) => (Some n, p)
                  | inr p => (None, p)
                  end) <$> l)
  | ParamsOther _ => None
  end.

Definition tensors_of (params : params_arg) : list loc :=
  match entries_of params with
  | Some entries => entries.*2
  | None => []
  end.

Definition submitted (root_rank : Z) (entries : list (option string * loc))
  : list event :=
  (λ '(name, p), EvBroadcastAsync name p root_rank) <$> entries.

Definition awaited (root_rank : Z) (entries : list (option string * loc))
  : list event :=
  (λ '(name, p), EvSynchronize (Handle name p root_rank)) <$> entries.

(** The character ['.'] occurs in a string. *)
Fixpoint has_dot (s : string) : bool :=
  match s with
  | EmptyString => false
  | String c s => bool_decide (c = "."%char) || has_dot s
  end.

(** The names of the options of a state dictionary, the names of its
    state fields, and the (group, key) pairs of a group's entries. *)
Definition option_names (sd : state_dict_t) : list string :=
  sd_param_groups sd ≫= λ group, filter (λ k, k ≠ "params") group.*1.

Definition field_names (sd : state_dict_t) : list string :=
  sd_state sd ≫= λ item, item.2.*1.

Definition entries_of_group (item : nat * dict string packed_entry)
  : list (nat * string) :=
  item.2 ≫= λ entry, [(item.1, entry.1)].

(** What holds of [params] and [occurrences] while the collection runs,
    [done_] being the group entries visited so far: no key occurs twice,
    and a key is that of a visited option, or that of a state field with
    a count its name has reached. *)
Definition keyed (sd : state_dict_t) (done_ : list (nat * string))
    (c : collected) : Prop :=
  NoDup (params c).*1
  ∧ ∀ key, key ∈ (params c).*1 →
      (∃ index option_key,
         (index, option_key) ∈ done_ ∧ option_key ∈ option_names sd
         ∧ key = format_key option_key index)
      ∨ (∃ name n,
           name ∈ field_names sd
           ∧ (1 ≤ n ≤ default 0 (occurrences c !! name))%nat
           ∧ key = format_key name n).

(** A computation only allocates when it leaves the optimizer, the log of
    calls and the tensors there are as they were. *)
Definition only_allocates (w w' : world) : Prop :=
  the_optimizer w' = the_optimizer w
  ∧ trace w' = trace w
  ∧ heap w `prefix_of` heap w'.

(** The events that are collective calls. *)
Definition no_collective (ev : event) : Prop :=
  match ev with
  | EvBroadcastAsync _ _ _ | EvSynchronize _ => False
  | _ => True
  end.

(** The names in a state dictionary without the values: for every group
    the keys of its entries, with the ids under ["params"]; for every
    parameter that has state, the names of its fields. *)
Definition entry_ids (e : packed_entry) : option (list pid) :=
  match e with
  | PackedParams ids => Some ids
  | PackedOption _ => None
  end.

Record skeleton_t : Type := Skeleton {
  sk_groups : list (dict string (option (list pid)));
  sk_fields : dict pid (list string)
}.

Definition group_names (group : dict string packed_entry)
  : dict string (option (list pid)) :=
  (λ '(k, e), (k, entry_ids e)) <$> (group : list (string * packed_entry)).

Definition skeleton (sd : state_dict_t) : skeleton_t :=
  {| sk_groups := group_names <$> sd_param_groups sd;
     sk_fields :=
       (λ '(pid_, fields), (pid_, fields.*1))
         <$> (sd_state sd : list (pid * list (string * field_value))) |}.

(** The keys the names of a state dictionary call for, in the order of the
    batch, with the counts of the field names carried along. *)
Fixpoint field_keys (names : list string) (occ : gmap string nat)
  : list string * gmap string nat :=
  match names with
  | [] => ([], occ)
  | name :: rest =>
      let n := S (default 0%nat (occ !! name)) in
      let '(keys, occ') := field_keys rest (<[name := n]> occ) in
      (format_key name n :: keys, occ')
  end.

Fixpoint param_keys (fields : dict pid (list string)) (ids : list pid)
    (occ : gmap string nat) : list string * gmap string nat :=
  match ids with
  | [] => ([], occ)
  | pid_ :: rest =>
      match dict_get fields pid_ with
      | None => param_keys fields rest occ
      | Some names =>
          let '(keys, occ1) := field_keys names occ in
          let '(keys', occ2) := param_keys fields rest occ1 in
          (keys ++ keys', occ2)
      end
  end.

Definition option_keys (index : nat) (keys : list string) : list string :=
  (λ k, format_key k index) <$> filter (λ k, k ≠ "params") keys.

Definition group_keys (fields : dict pid (list string))
    (item : nat * dict string (option (list pid))) (occ : gmap string nat)
  : list string * gmap string nat :=
  match dict_get item.2 "params" with
  | Some (Some ids) =>
      let '(keys, occ') := param_keys fields ids occ in
      (option_keys item.1 item.2.*1 ++ keys, occ')
  | _ => (option_keys item.1 item.2.*1, occ)
  end.

Fixpoint groups_keys (fields : dict pid (list string))
    (items : list (nat * dict string (option (list pid))))
    (occ : gmap string nat) : list string * gmap string nat :=
  match items with
  | [] => ([], occ)
  | item :: rest =>
      let '(keys, occ1) := group_keys fields item occ in
      let '(keys', occ2) := groups_keys fields rest occ1 in
      (keys ++ keys', occ2)
  end.

Definition batch_keys (sk : skeleton_t) : list string :=
  (groups_keys (sk_fields sk) (enumerate (sk_groups sk)) ∅).1.

(** What an entry [(key, p)] of the batch was made of, [h] being the
    tensors of the rank and [cbo] what [callbacks] holds under the key: the
    wrapper of an option, with the callback of that option on this very
    tensor; the wrapper of a scalar field, with the callback of that field
    on this very tensor; or a tensor of the state, with no callback. *)
Definition entry_of_option (sd : state_dict_t) (h : list ndarray)
    (key : string) (p : loc) (cbo : option callback) : Prop :=
  ∃ index group option_key e a,
    sd_param_groups sd !! index = Some group
    ∧ (option_key, e) ∈ group
    ∧ key = format_key option_key index
    ∧ torch_Tensor (PyList [entry_value e]) = Ok a
    ∧ h !! p = Some a
    ∧ cbo = Some (OptionCallback index option_key p
                    (_get_types (entry_value e))).

Definition entry_of_scalar (sd : state_dict_t) (h : list ndarray)
    (key : string) (p : loc) (cbo : option callback) : Prop :=
  ∃ pid_ fields name s n a,
    dict_get (sd_state sd) pid_ = Some fields
    ∧ (name, FScalar s) ∈ fields
    ∧ key = format_key name n
    ∧ torch_Tensor (PyList [PyScalar s]) = Ok a
    ∧ h !! p = Some a
    ∧ cbo = Some (StateCallback pid_ name (type_of_scalar s) p).

Definition entry_of_tensor (sd : state_dict_t) (key : string) (p : loc)
    (cbo : option callback) : Prop :=
  ∃ pid_ fields name n,
    dict_get (sd_state sd) pid_ = Some fields
    ∧ (name, FTensor p) ∈ fields
    ∧ key = format_key name n
    ∧ cbo = None.

Definition accounted (sd : state_dict_t) (h : list ndarray) (key : string)
    (p : loc) (cbo : option callback) : Prop :=
  entry_of_option sd h key p cbo
  ∨ entry_of_scalar sd h key p cbo
  ∨ entry_of_tensor sd key p cbo.

(** What holds of [params] and [callbacks] while the collection runs:
    every key of a callback is a key of [params]; and as long as no key
    has been given twice, every entry is accounted for with the callback
    now found under its key. *)
Definition wrapping (sd : state_dict_t) (c : collected) (w : world) : Prop :=
  (∀ k cb, callbacks c !! k = Some cb → k ∈ (params c).*1)
  ∧ (NoDup (params c).*1 →
     ∀ key p, (key, p) ∈ params c →
       accounted sd (heap w) key p (callbacks c !! key)).

(** What the optimizer of [w] holds for an entry of the batch whose tensor
    went out with [a] and came back with [received]: under the option, or
    in the scalar field, the entry was made of, what the recorded types
    make of the first item of [received]. *)
Definition option_restored (sd : state_dict_t) (w : world) (key : string)
    (a received : ndarray) : Prop :=
  ∃ index group option_key e x v,
    sd_param_groups sd !! index = Some group
    ∧ (option_key, e) ∈ group
    ∧ key = format_key option_key index
    ∧ torch_Tensor (PyList [entry_value e]) = Ok a
    ∧ first_item received = Ok x
    ∧ _recursive_cast x (_get_types (entry_value e)) = Ok v
    ∧ group_option w index option_key = Some v
    ∧ (shape received = shape a →
       _get_types v = _get_types (entry_value e)).

Definition scalar_restored (sd : state_dict_t) (w : world) (key : string)
    (a received : ndarray) : Prop :=
  ∃ pid_ fields name s n x s',
    dict_get (sd_state sd) pid_ = Some fields
    ∧ (name, FScalar s) ∈ fields
    ∧ key = format_key name n
    ∧ torch_Tensor (PyList [PyScalar s]) = Ok a
    ∧ first_item received = Ok x
    ∧ scalar_cast (type_of_scalar s) x = Ok s'
    ∧ state_field w pid_ name = Some (inr s')
    ∧ type_of_scalar s' = type_of_scalar s.

Definition state_tensor (sd : state_dict_t) (c : collected) (key : string)
    (p : loc) : Prop :=
  ∃ pid_ fields name n,
    dict_get (sd_state sd) pid_ = Some fields
    ∧ (name, FTensor p) ∈ fields
    ∧ key = format_key name n
    ∧ callbacks c !! key = None.

End OptimizerState.

(** ** Sample data

    Concrete groups, optimizers and values on which the embedding is run. *)
Module Sample.
Import Collective ObjectExchange TypeCast OptimizerState.

(** A codec over byte strings themselves: the pickle of a byte string is
    the byte string. *)
Definition dump_bytes (o : list byte) : list byte := o.
Definition load_bytes (b : list byte) : option (list byte) := Some b.
Definition type_name_bytes (o : list byte) : string :=
  match o with
  | [] => "NoneType"
  | _ => "bytes"
  end.
Definition zero_memory (_ : nat) : byte := "000"%byte.

(** Objects of two Python types, [None] and byte strings, with a codec
    that writes a tag before the bytes, and [type(obj).__name__]. *)
Inductive py_object : Type :=
| PyNone
| PyBytes (b : list byte).

Definition dump_object (o : py_object) : list byte :=
  match o with
  | PyNone => ["N"]%byte
  | PyBytes b => "B"%byte :: b
  end.

Definition load_object (b : list byte) : option py_object :=
  match b with
  | ["N"%byte] => Some PyNone
  | "B"%byte :: b => Some (PyBytes b)
  | _ => None
  end.

Definition type_name_object (o : py_object) : string :=
  match o with
  | PyNone => "NoneType"
  | PyBytes _ => "bytes"
  end.

(** Two ranks that pass no name: a byte string on rank 0, [None] on
    rank 1. *)
Definition two_types : list (py_object * option string) :=
  [ (PyBytes ["a"]%byte, None); (PyNone, None) ].

(** A byte string of 2^31 bytes, on the root of two ranks that exchange
    under the name ["model"]. *)
Definition long_bytes : list byte := replicate (Z.to_nat (2 ^ 31)) "000"%byte.

Definition long_and_short : list (list byte * option string) :=
  [ (long_bytes, Some "model"); ([], Some "model") ].

(** A codec whose pickles all have 2^31 bytes. *)
Definition dump_huge (o : list byte) : list byte :=
  replicate (Z.to_nat (2 ^ 31)) "000"%byte.

(** Three ranks exchanging under the name ["model"]. *)
Definition three_ranks : list (list byte * option string) :=
  [ (["a"; "b"; "c"]%byte, Some "model");
    ([], Some "model");
    (["t"; "e"; "n"; "s"; "o"; "r"; "s"]%byte, Some "model") ].

(** The learning rate [0.1], as the binary64 number Python holds, and the
    binary64 value of the binary32 number nearest to it
    ([0.100000001490116...]). *)
Definition tenth : spec_float := S754_finite false 7205759403792794 (-56).
Definition tenth_binary32 : spec_float :=
  S754_finite false 7205759511166976 (-56).

(** Adam's [betas = (0.5, 0.75)] next to a step count and a flag. *)
Definition half : spec_float := S754_finite false 4503599627370496 (-53).
Definition three_quarters : spec_float :=
  S754_finite false 6755399441055744 (-53).
Definition nested_option : pyval :=
  PyTuple
    [ PyList [ PyScalar (PyFloat half); PyScalar (PyFloat three_quarters) ];
      PyList [ PyScalar (PyInt 1000); PyScalar (PyBool true) ] ].

(** binary32 elements for small integers and for [0.5], [0.75]. *)
Definition elem (z : Z) : ndarray := Elem (to_binary32 (float_of_int z)).
Definition elem_half : ndarray := Elem (to_binary32 half).
Definition elem_three_quarters : ndarray := Elem (to_binary32 three_quarters).

Definition weight (id : pid) : parameter :=
  {| p_id := id; requires_grad := true; size := [2%nat]; grad := None |}.

Definition frozen (id : pid) : parameter :=
  {| p_id := id; requires_grad := false; size := [2%nat]; grad := None |}.

(** SGD with momentum over two parameters: each has a momentum buffer,
    tensors 0 and 1 of the rank. *)
Definition sgd : optimizer :=
  {| is_LBFGS := false;
     module_ := "torch.optim.sgd";
     param_groups :=
       [ {| group_params := [weight 101; frozen 103; weight 102];
            group_options :=
              [ ("lr", PyScalar (PyFloat half));
                ("momentum", PyScalar (PyFloat three_quarters));
                ("nesterov", PyScalar (PyBool false)) ] |} ];
     state :=
       [ (101, [("momentum_buffer", FTensor 0%nat)]);
         (102, [("momentum_buffer", FTensor 1%nat)]) ] |}.

Definition sgd_rank : world :=
  {| the_optimizer := sgd;
     heap := [Array [elem 1; elem 2]; Array [elem 3; elem 4]];
     trace := [] |}.

(** A transport that delivers the root's first momentum buffer and fails
    on the second. *)
Definition failing_wire (name : option string) (local : ndarray)
  : result ndarray :=
  if bool_decide (name = Some "momentum_buffer.1")
  then Ok (Array [elem 7; elem 8])
  else if bool_decide (name = Some "momentum_buffer.2")
  then Err (HorovodInternalError "Broadcast failed")
  else Ok local.

(** An optimizer with two groups that keeps a per-parameter scalar
    ["momentum"] next to the option of that name. *)
Definition adaptive : optimizer :=
  {| is_LBFGS := false;
     module_ := "adaptive";
     param_groups :=
       [ {| group_params := [weight 101];
            group_options :=
              [ ("lr", PyScalar (PyFloat half));
                ("momentum", PyScalar (PyFloat half)) ] |};
         {| group_params := [weight 102];
            group_options :=
              [ ("lr", PyScalar (PyFloat half));
                ("momentum", PyScalar (PyFloat half)) ] |} ];
     state :=
       [ (101, [("momentum", FScalar (PyFloat half))]);
         (102, [("momentum", FScalar (PyFloat half))]) ] |}.

Definition adaptive_rank : world :=
  {| the_optimizer := adaptive; heap := []; trace := [] |}.

(** A transport on which the root sends [0.75] for every scalar it
    broadcasts. *)
Definition root_sends_three_quarters (name : option string) (local : ndarray)
  : result ndarray :=
  Ok (Array [elem_three_quarters]).

(** Adam over two parameters, a frozen one between them: each has a step
    counter and a tensor. *)
Definition adam : optimizer :=
  {| is_LBFGS := false;
     module_ := "torch.optim.adam";
     param_groups :=
       [ {| group_params := [weight 101; frozen 103; weight 102];
            group_options :=
              [ ("lr", PyScalar (PyFloat half));
                ("betas", PyTuple [ PyScalar (PyFloat half);
                                    PyScalar (PyFloat three_quarters) ]);
                ("amsgrad", PyScalar (PyBool false)) ] |} ];
     state :=
       [ (101, [("step", FScalar (PyInt 3)); ("exp_avg", FTensor 0%nat)]);
         (102, [("step", FScalar (PyInt 3)); ("exp_avg", FTensor 1%nat)]) ] |}.

Definition adam_rank : world :=
  {| the_optimizer := adam;
     heap := [Array [elem 1]; Array [elem 2]];
     trace := [] |}.

(** A transport on which the root sends [0.75] in every element: tensors
    shaped like the local ones, filled with [0.75]. *)
Fixpoint filled (a : ndarray) : ndarray :=
  match a with
  | Elem _ => elem_three_quarters
  | Array items => Array (filled <$> items)
  end.

Definition root_sends_rows (name : option string) (local : ndarray)
  : result ndarray := Ok (filled local).

(** A transport that delivers what the rank already holds (the rank is the
    root, or agrees with it), and an update rule that does nothing. *)
Definition echo (name : option string) (local : ndarray) : result ndarray :=
  Ok local.

Definition no_update (call : step_call) (o : optimizer) (h : list ndarray)
  : optimizer * list ndarray := (o, h).

(** An update rule that creates a step counter for every parameter that
    has a gradient. *)
Definition counting_update (call : step_call) (o : optimizer)
    (h : list ndarray) : optimizer * list ndarray :=
  (with_state o
     ((λ p, (p_id p, [("step", FScalar (PyInt 1))]))
        <$> filter (λ p, is_Some (grad p)) (param_groups o ≫= group_params)),
   h).

(** A freshly created optimizer of the distributed wrapper. *)
Definition fresh_distributed : optimizer :=
  {| is_LBFGS := false;
     module_ := "horovod.torch.optimizer";
     param_groups :=
       [ {| group_params := [weight 101; frozen 103];
            group_options := [("lr", PyScalar (PyFloat half))] |} ];
     state := [] |}.

Definition fresh_rank : world :=
  {| the_optimizer := fresh_distributed; heap := []; trace := [] |}.

(** A loader that refuses the empty pickle. *)
Definition load_nonempty (b : list byte) : option (list byte) :=
  match b with
  | [] => None
  | _ => Some b
  end.

(** SGD with momentum whose only group carries an option that is a list
    of rows of unequal lengths. *)
Definition ragged : optimizer :=
  {| is_LBFGS := false;
     module_ := "torch.optim.sgd";
     param_groups :=
       [ {| group_params := [weight 101];
            group_options :=
              [ ("lr", PyScalar (PyFloat half));
                ("milestones",
                 PyList [ PyList [PyScalar (PyInt 1); PyScalar (PyInt 2)];
                          PyList [PyScalar (PyInt 3)] ]) ] |} ];
     state := [ (101, [("momentum_buffer", FTensor 0%nat)]) ] |}.

Definition ragged_rank : world :=
  {| the_optimizer := ragged; heap := [Array [elem 1; elem 2]]; trace := [] |}.

(** Adam with the names of [adam] and other values throughout, on a rank
    that keeps its tensors in another order. *)
Definition adam_elsewhere : optimizer :=
  {| is_LBFGS := false;
     module_ := "torch.optim.adam";
     param_groups :=
       [ {| group_params := [weight 101; frozen 103; weight 102];
            group_options :=
              [ ("lr", PyScalar (PyFloat three_quarters));
                ("betas", PyTuple [ PyScalar (PyFloat three_quarters);
                                    PyScalar (PyFloat half) ]);
                ("amsgrad", PyScalar (PyBool true)) ] |} ];
     state :=
       [ (101, [("step", FScalar (PyInt 7)); ("exp_avg", FTensor 1%nat)]);
         (102, [("step", FScalar (PyInt 7)); ("exp_avg", FTensor 0%nat)]) ] |}.

Definition adam_elsewhere_rank : world :=
  {| the_optimizer := adam_elsewhere;
     heap := [Array [elem 5]; Array [elem 6]];
     trace := [] |}.

End Sample.

(* ===================================================================== *)
(** * Part II: the properties                                             *)
(* ===================================================================== *)

(** ** Facts about the lock-step execution of a group *)
Module CollectiveFacts.
Import Collective.

Lemma mapM_imap_Some {X A B} (g : A → option B) (f : nat → X → A)
    (h : nat → X → B) (l : list X) :
  (∀ i x, l !! i = Some x → g (f i x) = Some (h i x)) →
  mapM g (imap f l) = Some (imap h l).
Proof.
  intros Hg. apply mapM_Some, Forall2_same_length_lookup. split.
  - by rewrite !length_imap.
  - intros i a b. rewrite !list_lookup_imap.
    destruct (l !! i) as [x|] eqn:Hx; simpl; [|done].
    intros [= <-] [= <-]. by apply Hg.
Qed.

Lemma forallb_imap {X A} (P : A → bool) (f : nat → X → A) (l : list X) :
  (∀ i x, l !! i = Some x → P (f i x) = true) →
  forallb P (imap f l) = true.
Proof.
  intros HP. apply forallb_forall. intros a Ha%list_elem_of_In.
  apply elem_of_lookup_imap in Ha as (i & x & -> & Hx). eauto.
Qed.

Lemma imap_unindexed {X A} (f : X → A) (l : list X) :
  imap (λ _ x, f x) l = f <$> l.
Proof. apply (imap_const f). Qed.

Lemma imap_not_nil {X A} (f : nat → X → A) (l : list X) :
  l ≠ [] → ∃ a tl, imap f l = a :: tl ∧ ∃ x, l !! 0%nat = Some x ∧ a = f 0%nat x.
Proof. destruct l as [|x l]; [done|]. intros _. simpl. eauto 10. Qed.

(** A broadcast completes when every rank asks for it on the same name and
    root with a buffer shaped like the root's: each rank goes on with the
    root's tensor. *)
Lemma round_broadcast {X A} (f : nat → X → prog A) (l : list X)
    (t : nat → X → tensor) (k : nat → X → tensor → prog A)
    (root : nat) (name : string) (xr : X) :
  l !! root = Some xr →
  (∀ i x, l !! i = Some x →
     f i x = Broadcast_ (t i x) (Z.of_nat root) name (k i x)
     ∧ same_shape (t i x) (t root xr) = true) →
  round (imap f l) = Some (imap (λ i x, k i x (t root xr)) l).
Proof.
  intros Hroot Hf. unfold round.
  rewrite (mapM_imap_Some _ _ (λ i x, (t i x, Z.of_nat root, name, k i x)));
    [|by intros i x [-> _]%Hf].
  assert (l ≠ []) as Hne by (intros ->; done).
  destruct (imap_not_nil (λ i x, (t i x, Z.of_nat root, name, k i x)) l Hne)
    as (a & tl & Heq & x0 & Hx0 & ->).
  unfold deliver_broadcast. rewrite Heq, <-Heq. clear Heq.
  rewrite forallb_imap; [|intros; by rewrite Z.eqb_refl, String.eqb_refl].
  rewrite (proj2 (Z.leb_le 0 (Z.of_nat root))) by lia.
  rewrite Nat2Z.id, list_lookup_imap, Hroot. simpl.
  rewrite forallb_imap; [|by intros i x [_ ?]%Hf].
  by rewrite fmap_imap.
Qed.

(** An allgather of byte or integer buffers completes when every rank asks
    for it on the same name: each rank goes on with the buffers
    concatenated in rank order. *)
Lemma round_allgather_bytes {X A} (f : nat → X → prog A) (l : list X)
    (d : nat → X → list byte) (k : nat → X → tensor → prog A) (name : string) :
  l ≠ [] →
  (∀ i x, l !! i = Some x → f i x = Allgather (ByteTensor (d i x)) name (k i x)) →
  round (imap f l) = Some (imap (λ i x, k i x (ByteTensor (concat (imap d l)))) l).
Proof.
  intros Hne Hf. unfold round.
  assert (mapM bcast_request (imap f l) = None) as ->.
  { destruct l as [|x l]; [done|]. simpl.
    rewrite (Hf 0%nat x eq_refl). done. }
  rewrite (mapM_imap_Some _ _ (λ i x, (ByteTensor (d i x), name, k i x)));
    [|by intros i x ->%Hf].
  destruct (imap_not_nil (λ i x, (ByteTensor (d i x), name, k i x)) l Hne)
    as (a & tl & Heq & x0 & Hx0 & ->).
  unfold deliver_allgather. rewrite Heq, <-Heq. clear Heq.
  rewrite forallb_imap; [|intros; by rewrite String.eqb_refl].
  unfold concat_tensors. rewrite fmap_imap.
  rewrite (mapM_imap_Some _ _ d) by done. simpl.
  by rewrite fmap_imap.
Qed.

Lemma round_allgather_ints {X A} (f : nat → X → prog A) (l : list X)
    (d : nat → X → list Z) (k : nat → X → tensor → prog A) (name : string) :
  l ≠ [] →
  (∀ i x, l !! i = Some x → f i x = Allgather (IntTensor (d i x)) name (k i x)) →
  round (imap f l) = Some (imap (λ i x, k i x (IntTensor (concat (imap d l)))) l).
Proof.
  intros Hne Hf. unfold round.
  assert (mapM bcast_request (imap f l) = None) as ->.
  { destruct l as [|x l]; [done|]. simpl.
    rewrite (Hf 0%nat x eq_refl). done. }
  rewrite (mapM_imap_Some _ _ (λ i x, (IntTensor (d i x), name, k i x)));
    [|by intros i x ->%Hf].
  destruct (imap_not_nil (λ i x, (IntTensor (d i x), name, k i x)) l Hne)
    as (a & tl & Heq & x0 & Hx0 & ->).
  unfold deliver_allgather. rewrite Heq, <-Heq. clear Heq.
  rewrite forallb_imap; [|intros; by rewrite String.eqb_refl].
  unfold concat_tensors. rewrite fmap_imap.
  rewrite (mapM_imap_Some _ _ d) by done. simpl.
  by rewrite fmap_imap.
Qed.

(** A group whose ranks wait in a collective is not finished; a group whose
    ranks have all returned is, and reports what they returned. *)
Lemma unfinished_imap {X A} (f : nat → X → prog A) (l : list X) :
  l ≠ [] →
  (∀ i x, l !! i = Some x → finished (f i x) = false) →
  forallb finished (imap f l) = false.
Proof.
  destruct l as [|x l]; [done|]. intros _ Hf. simpl.
  by rewrite (Hf 0%nat x eq_refl).
Qed.

Lemma run_step {A} (fuel : nat) (ps ps' : list (prog A)) :
  forallb finished ps = false →
  round ps = Some ps' →
  run (S fuel) ps = run fuel ps'.
Proof. intros Hu Hr. simpl. by rewrite Hu, Hr. Qed.

Lemma run_finished {X A} (fuel : nat) (f : nat → X → prog A)
    (r : nat → X → outcome A) (l : list X) :
  (∀ i x, l !! i = Some x → finished (f i x) = true ∧ settle (f i x) = r i x) →
  run fuel (imap f l) = Some (imap r l).
Proof.
  intros Hf.
  assert (forallb finished (imap f l) = true) as Hfin
    by (apply forallb_imap; intros i x Hx; by apply Hf).
  assert (settle <$> imap f l = imap r l) as Hs.
  { rewrite fmap_imap. apply imap_ext. intros i x Hx. by apply Hf. }
  destruct fuel; simpl; by rewrite Hfin, Hs.
Qed.

End CollectiveFacts.

(** ** The object exchange protocol *)
Module ObjectExchangeFacts.
Import Collective ObjectExchange CollectiveFacts.

(** *** Slices by prefix sums *)

Lemma sum_lengths (bs : list (list byte)) :
  sum ((λ b, Z.of_nat (length b)) <$> bs) = Z.of_nat (length (concat bs)).
Proof.
  induction bs as [|b bs IH]; [done|].
  rewrite fmap_cons. change (sum (?x :: ?l)) with (x + sum l).
  rewrite IH. simpl. rewrite length_app. lia.
Qed.

Lemma py_slice_prefix {A} (l : list A) (i : nat) :
  (i ≤ length l)%nat → py_slice l 0 (Z.of_nat i) = take i l.
Proof.
  intros Hi. unfold py_slice, clamp_index. simpl.
  rewrite (proj2 (Z.ltb_ge (Z.of_nat i) 0)) by lia.
  rewrite Z.min_l by lia. rewrite Z.min_l by lia.
  by rewrite Z.sub_0_r, Nat2Z.id.
Qed.

Lemma py_slice_segment {A} (l1 l2 l3 : list A) :
  py_slice (l1 ++ l2 ++ l3) (Z.of_nat (length l1))
           (Z.of_nat (length l1) + Z.of_nat (length l2)) = l2.
Proof.
  unfold py_slice, clamp_index. rewrite !length_app.
  rewrite (proj2 (Z.ltb_ge (Z.of_nat (length l1)) 0)) by lia.
  rewrite (proj2 (Z.ltb_ge (Z.of_nat (length l1) + Z.of_nat (length l2)) 0))
    by lia.
  rewrite !Z.min_l by lia.
  replace (Z.of_nat (length l1) + Z.of_nat (length l2) - Z.of_nat (length l1))
    with (Z.of_nat (length l2)) by lia.
  rewrite !Nat2Z.id, drop_app_length, take_app_length. done.
Qed.

(** Segment [i] of the gathered buffer, cut at the prefix sums of the
    gathered sizes, is rank [i]'s buffer. *)
Lemma select_segment (bs : list (list byte)) (i : nat) (b : list byte) :
  bs !! i = Some b →
  select ((λ b, Z.of_nat (length b)) <$> bs) (concat bs) (Z.of_nat i) = Ret b.
Proof.
  intros Hi. unfold select, index, py_index.
  pose proof (lookup_lt_Some _ _ _ Hi) as Hlt.
  rewrite (proj2 (Z.leb_le 0 (Z.of_nat i))) by lia.
  rewrite Nat2Z.id, list_lookup_fmap, Hi. simpl.
  rewrite py_slice_prefix by (rewrite length_fmap; lia).
  rewrite <-fmap_take, sum_lengths.
  rewrite <-(take_drop_middle bs i b Hi) at 1.
  rewrite concat_app, concat_cons. by rewrite py_slice_segment.
Qed.

(** Work a rank does on its own calls no collective. *)
Lemma mapM_finished {X B} (f : X → prog B) (l : list X) :
  (∀ x, finished (f x) = true) → finished (mapM f l) = true.
Proof.
  intros Hf. induction l as [|x l IH]; [done|]. simpl.
  specialize (Hf x). destruct (f x); try done. simpl.
  destruct (mapM f l); done.
Qed.

Lemma mapM_seq_Ret {B} (f : nat → prog B) (ys : list B) (s : nat) :
  (∀ i y, ys !! i = Some y → f (s + i)%nat = Ret y) →
  mapM f (seq s (length ys)) = Ret ys.
Proof.
  revert s. induction ys as [|y ys IH]; intros s Hf; [done|].
  simpl. rewrite <-(Nat.add_0_r s) at 1. rewrite (Hf 0%nat y eq_refl).
  rewrite (IH (S s)); [done|].
  intros i y' Hi. rewrite <-(Hf (S i) y' Hi). f_equal. lia.
Qed.

Section Protocol.
Context {Obj : Type}.
Variable dump : Obj → list byte.
Variable load : list byte → option Obj.
Variable type_name : Obj → string.
Variable uninitialized : nat → byte.

Local Abbreviation broadcast_object := (broadcast_object dump load type_name uninitialized).
Local Abbreviation allgather_object := (allgather_object dump load type_name).
Local Abbreviation default_name := (default_name type_name).
Local Abbreviation pickles := (pickles dump).
Local Abbreviation gathered_sizes := (gathered_sizes dump).

(** *** [broadcast_object], rank by rank *)

Lemma torch_IntTensor_length (n : nat) :
  Z.of_nat n < 2 ^ 31 →
  torch_IntTensor [Z.of_nat n] = Ret (IntTensor [Z.of_nat n]).
Proof.
  intros Hn. unfold torch_IntTensor, int32. simpl.
  rewrite (proj2 (Z.leb_le _ _)) by lia.
  by rewrite (proj2 (Z.ltb_lt _ _)) by lia.
Qed.

Lemma torch_IntTensor_overflow (n : nat) :
  2 ^ 31 ≤ Z.of_nat n →
  torch_IntTensor [Z.of_nat n]
  = Raise (RuntimeError
             "value cannot be converted to type int32 without overflow").
Proof.
  intros Hn. unfold torch_IntTensor, int32. simpl.
  rewrite (proj2 (Z.leb_le _ _)) by lia.
  by rewrite (proj2 (Z.ltb_ge _ _)) by lia.
Qed.

(** A root whose pickle is too long to announce raises before its first
    broadcast. *)
Lemma broadcast_object_long_pickle (obj : Obj) (root_rank : Z)
    (name : option string) :
  ¬ announceable dump obj →
  broadcast_object root_rank obj root_rank name
  = Raise (RuntimeError
             "value cannot be converted to type int32 without overflow").
Proof.
  intros Hfit. unfold broadcast_object. rewrite Z.eqb_refl. simpl.
  rewrite torch_IntTensor_overflow; [done|].
  unfold announceable in Hfit. lia.
Qed.

(** The root announces the length of its pickle, then sends the pickle, and
    returns the object it was given. *)
Lemma broadcast_object_root (obj : Obj) (root_rank : Z) (name : option string) :
  announceable dump obj →
  broadcast_object root_rank obj root_rank name =
    Broadcast_ (IntTensor [Z.of_nat (length (dump obj))]) root_rank
      (default_name name obj +:+ ".sz")
      (λ _, Broadcast_ (ByteTensor (dump obj)) root_rank
              (default_name name obj +:+ ".t") (λ _, Ret obj)).
Proof.
  intros Hfit. unfold broadcast_object. rewrite Z.eqb_refl. simpl.
  by rewrite torch_IntTensor_length.
Qed.

(** Every other rank receives the length into [IntTensor [0]], allocates a
    byte buffer of that length, receives the pickle into it and loads it. *)
Lemma broadcast_object_peer_size (rank : Z) (obj : Obj) (root_rank : Z)
    (name : option string) :
  rank ≠ root_rank →
  ∃ k, broadcast_object rank obj root_rank name =
         Broadcast_ (IntTensor [0]) root_rank
           (default_name name obj +:+ ".sz") k.
Proof.
  intros Hne%Z.eqb_neq. unfold broadcast_object. rewrite Hne. by eexists.
Qed.

Lemma broadcast_object_peer_payload (rank : Z) (obj : Obj) (root_rank : Z)
    (name : option string) (n : nat) :
  rank ≠ root_rank →
  continue (broadcast_object rank obj root_rank name) (IntTensor [Z.of_nat n]) =
    Broadcast_ (ByteTensor (uninitialized <$> seq 0 n)) root_rank
      (default_name name obj +:+ ".t")
      (λ t, tobytes t ≫= cloudpickle_load load).
Proof.
  intros Hne%Z.eqb_neq. unfold broadcast_object. rewrite Hne. simpl.
  unfold ByteTensor_of_size, index, py_index. simpl.
  rewrite (proj2 (Z.ltb_ge (Z.of_nat n) 0)) by lia.
  by rewrite Nat2Z.id.
Qed.

(** What every rank of a group ends with: the root with its own object,
    every other rank with what the codec makes of the root's pickle. *)
Lemma broadcast_object_group_run (calls : list (Obj * option string))
    (root : nat) (obj : Obj) (name : option string) (fuel : nat) :
  calls !! root = Some (obj, name) →
  announceable dump obj →
  same_channel type_name calls →
  (2 ≤ fuel)%nat →
  run fuel (broadcast_object_group dump load type_name uninitialized
              (Z.of_nat root) calls)
  = Some (imap (λ i _, if decide (i = root) then Returned obj
                       else settle (cloudpickle_load load (dump obj))) calls).
Proof.
  intros Hroot Hfit Hchan Hfuel.
  destruct fuel as [|[|fuel]]; [lia..|]. clear Hfuel.
  assert (calls ≠ []) as Hne by (intros ->; done).
  set (chan := default_name name obj).
  set (p := λ (i : nat) (c : Obj * option string),
              broadcast_object (Z.of_nat i) c.1 (Z.of_nat root) c.2).
  assert (∀ i c, calls !! i = Some c →
      p i c = Broadcast_ (buffer (p i c)) (Z.of_nat root) (chan +:+ ".sz")
                (continue (p i c))
      ∧ same_shape (buffer (p i c)) (IntTensor [Z.of_nat (length (dump obj))])
        = true) as Hsz.
  { intros i [o n] Hi. unfold p; simpl.
    rewrite <-(Hchan i root _ _ Hi Hroot : default_name n o = chan).
    destruct (decide (i = root)) as [->|Hir].
    - rewrite Hroot in Hi. injection Hi as -> ->.
      by rewrite broadcast_object_root by done.
    - destruct (broadcast_object_peer_size (Z.of_nat i) o (Z.of_nat root) n)
        as [k ->]; [lia|done]. }
  assert (buffer (p root (obj, name))
          = IntTensor [Z.of_nat (length (dump obj))]) as Hbuf
    by (unfold p; simpl; by rewrite broadcast_object_root by done).
  unfold broadcast_object_group, launch. fold p.
  erewrite run_step; cycle 1.
  { apply unfinished_imap; [done|]. by intros i c [-> _]%Hsz. }
  { apply (round_broadcast p calls (λ i c, buffer (p i c))
             (λ i c, continue (p i c)) root (chan +:+ ".sz") _ Hroot).
    intros i c Hi. rewrite Hbuf. by apply Hsz. }
  rewrite Hbuf.
  set (q := λ (i : nat) (c : Obj * option string),
              continue (p i c) (IntTensor [Z.of_nat (length (dump obj))])).
  assert (∀ i c, calls !! i = Some c →
      q i c = Broadcast_ (buffer (q i c)) (Z.of_nat root) (chan +:+ ".t")
                (continue (q i c))
      ∧ same_shape (buffer (q i c)) (ByteTensor (dump obj)) = true) as Hpay.
  { intros i [o n] Hi. unfold q, p; simpl.
    rewrite <-(Hchan i root _ _ Hi Hroot : default_name n o = chan).
    destruct (decide (i = root)) as [->|Hir].
    - rewrite Hroot in Hi. injection Hi as -> ->.
      rewrite broadcast_object_root by done. simpl. split; [done|].
      unfold same_shape. simpl. by rewrite Nat.eqb_refl.
    - rewrite broadcast_object_peer_payload by lia. simpl. split; [done|].
      unfold same_shape. simpl.
      by rewrite length_fmap, length_seq, Nat.eqb_refl. }
  assert (buffer (q root (obj, name)) = ByteTensor (dump obj)) as Hbuf'
    by (unfold q, p; simpl; by rewrite broadcast_object_root by done).
  erewrite run_step; cycle 1.
  { apply unfinished_imap; [done|]. by intros i c [-> _]%Hpay. }
  { apply (round_broadcast q calls (λ i c, buffer (q i c))
             (λ i c, continue (q i c)) root (chan +:+ ".t") _ Hroot).
    intros i c Hi. rewrite Hbuf'. by apply Hpay. }
  rewrite Hbuf'.
  apply run_finished. intros i [o n] Hi. unfold q, p; simpl.
  destruct (decide (i = root)) as [->|Hir].
  - rewrite Hroot in Hi. injection Hi as -> ->.
    by rewrite broadcast_object_root by done.
  - rewrite broadcast_object_peer_payload by lia. simpl.
    unfold cloudpickle_load. by destruct (load (dump obj)).
Qed.

(** An outcome reached within some number of steps is reached within
    more. *)
Lemma run_more {A} (fuel : nat) (ps : list (prog A))
    (outcomes : list (outcome A)) :
  run fuel ps = Some outcomes → run (S fuel) ps = Some outcomes.
Proof.
  revert ps. induction fuel as [|fuel IH]; intros ps.
  - simpl. by destruct (forallb finished ps).
  - intros H. simpl in H |- *.
    destruct (forallb finished ps); [done|].
    destruct (round ps) as [ps'|]; [|done]. by apply IH.
Qed.

(** A group in which a rank has raised does not meet again: the ranks
    that wait are left waiting. *)
Lemma run_with_raise {A} (fuel : nat) (ps : list (prog A)) (i : nat)
    (e : exn) :
  ps !! i = Some (Raise e) →
  run (S fuel) ps = Some (settle <$> ps).
Proof.
  intros Hps.
  assert (round ps = None) as Hround.
  { unfold round.
    destruct (mapM bcast_request ps) as [reqs|] eqn:Hb.
    { apply mapM_Some in Hb.
      by destruct (Forall2_lookup_l _ _ _ _ _ Hb Hps) as (? & _ & ?). }
    destruct (mapM gather_request ps) as [reqs|] eqn:Hg; [|done].
    apply mapM_Some in Hg.
    by destruct (Forall2_lookup_l _ _ _ _ _ Hg Hps) as (? & _ & ?). }
  simpl. destruct (forallb finished ps); [done|]. by rewrite Hround.
Qed.

(** A root whose pickle is too long to announce raises, and every other
    rank is left waiting in the broadcast of the length. *)
Lemma broadcast_object_group_long_pickle (calls : list (Obj * option string))
    (root : nat) (obj : Obj) (name : option string) (fuel : nat) :
  calls !! root = Some (obj, name) →
  ¬ announceable dump obj →
  run (S fuel) (broadcast_object_group dump load type_name uninitialized
                  (Z.of_nat root) calls)
  = Some (imap (λ i _,
                  if decide (i = root)
                  then Raised (RuntimeError
                         "value cannot be converted to type int32 without overflow")
                  else Hung) calls).
Proof.
  intros Hroot Hfit.
  set (ps := broadcast_object_group dump load type_name uninitialized
               (Z.of_nat root) calls).
  rewrite (run_with_raise fuel ps root
             (RuntimeError
                "value cannot be converted to type int32 without overflow")).
  2: { unfold ps, broadcast_object_group, launch.
       rewrite list_lookup_imap, Hroot. simpl.
       by rewrite broadcast_object_long_pickle. }
  f_equal. unfold ps, broadcast_object_group, launch.
  rewrite fmap_imap. apply imap_ext. intros i c Hi. simpl.
  destruct (decide (i = root)) as [->|Hne].
  - rewrite Hroot in Hi. injection Hi as <-. simpl.
    by rewrite broadcast_object_long_pickle.
  - destruct (broadcast_object_peer_size (Z.of_nat i) c.1 (Z.of_nat root) c.2)
      as [k ->]; [lia|done].
Qed.

(** C1, as the code has it.  Round trip of [broadcast_object]: when the
    codec reads back what it wrote, the length of the root's pickle fits
    the 32-bit tensor that announces it, and the ranks of the group enter
    the exchange on one name (the name they pass, or the type name of
    their object), with a root that is one of them, every rank returns the
    root's original object.  The root pickles the object and broadcasts
    the length of the pickle, then the pickle; every other rank receives
    the length into [IntTensor [0]], receives the pickle into a byte
    buffer of the length received, and loads what it received. *)
Theorem broadcast_object_round_trip (calls : list (Obj * option string))
    (root : nat) (obj : Obj) (name : option string) (fuel : nat) :
  (∀ o, load (dump o) = Some o) →
  calls !! root = Some (obj, name) →
  announceable dump obj →
  same_channel type_name calls →
  (2 ≤ fuel)%nat →
  run fuel (broadcast_object_group dump load type_name uninitialized
              (Z.of_nat root) calls)
  = Some ((λ _, Returned obj) <$> calls)
  ∧ broadcast_object (Z.of_nat root) obj (Z.of_nat root) name
    = Broadcast_ (IntTensor [Z.of_nat (length (dump obj))]) (Z.of_nat root)
        (default_name name obj +:+ ".sz")
        (λ _, Broadcast_ (ByteTensor (dump obj)) (Z.of_nat root)
                (default_name name obj +:+ ".t") (λ _, Ret obj))
  ∧ ∀ i c, calls !! i = Some c → i ≠ root →
      ∃ k, broadcast_object (Z.of_nat i) c.1 (Z.of_nat root) c.2
           = Broadcast_ (IntTensor [0]) (Z.of_nat root)
               (default_name c.2 c.1 +:+ ".sz") k
         ∧ ∀ n, k (IntTensor [Z.of_nat n])
                = Broadcast_ (ByteTensor (uninitialized <$> seq 0 n))
                    (Z.of_nat root) (default_name c.2 c.1 +:+ ".t")
                    (λ t, tobytes t ≫= cloudpickle_load load).
Proof.
  intros Hcodec Hroot Hfit Hchan Hfuel. split; [|split].
  - rewrite (broadcast_object_group_run calls root obj name fuel) by done.
    f_equal. rewrite <-imap_const. apply imap_ext. intros i c _. simpl.
    unfold cloudpickle_load. rewrite Hcodec. by case_decide.
  - by apply broadcast_object_root.
  - intros i [o n'] Hi Hne. simpl.
    destruct (broadcast_object_peer_size (Z.of_nat i) o (Z.of_nat root) n')
      as [k Hk]; [lia|].
    exists k. split; [done|]. intros n.
    rewrite <-(broadcast_object_peer_payload (Z.of_nat i) o (Z.of_nat root)
                 n' n) by lia.
    by rewrite Hk.
Qed.


(** *** [allgather_object] *)

Lemma allgather_object_calls (size : nat) (obj : Obj) (name : option string) :
  announceable dump obj →
  allgather_object size obj name =
    Allgather (IntTensor [Z.of_nat (length (dump obj))])
      (default_name name obj +:+ ".sz")
      (λ t, sizes ← tolist t;
            Allgather (ByteTensor (dump obj)) (default_name name obj +:+ ".t")
              (λ u, gathered ← tobytes u;
                    mapM (λ i, select sizes gathered (Z.of_nat i)
                               ≫= cloudpickle_load load) (seq 0 size))).
Proof.
  intros Hfit. unfold allgather_object. simpl.
  by rewrite torch_IntTensor_length.
Qed.

Lemma allgather_object_group_run (calls : list (Obj * option string))
    (fuel : nat) :
  Forall (λ c, announceable dump c.1) calls →
  same_channel type_name calls →
  (2 ≤ fuel)%nat →
  run fuel (allgather_object_group dump load type_name calls)
  = Some ((λ _, settle (mapM (λ i, select (gathered_sizes calls)
                                     (concat (pickles calls)) (Z.of_nat i)
                                   ≫= cloudpickle_load load)
                             (seq 0 (length calls)))) <$> calls).
Proof.
  intros Hfit Hchan Hfuel. rewrite Forall_lookup in Hfit.
  destruct fuel as [|[|fuel]]; [lia..|]. clear Hfuel.
  destruct (decide (calls = [])) as [->|Hne]; [done|].
  destruct calls as [|[obj0 name0] rest] eqn:Hcalls; [done|].
  rewrite <-Hcalls in *.
  assert (calls !! 0%nat = Some (obj0, name0)) as H0 by (by subst calls).
  clear Hcalls.
  set (chan := default_name name0 obj0).
  assert (∀ i c, calls !! i = Some c → default_name c.2 c.1 = chan) as Hc
    by (intros i c Hi; apply (Hchan i 0%nat _ _ Hi H0)).
  set (p := λ (i : nat) (c : Obj * option string),
              allgather_object (length calls) c.1 c.2).
  unfold allgather_object_group, launch. fold p.
  erewrite run_step; cycle 1.
  { apply unfinished_imap; [done|]. intros i c Hi. unfold p.
    by rewrite allgather_object_calls by (by apply (Hfit i)). }
  { apply (round_allgather_ints p calls
             (λ _ c, [Z.of_nat (length (dump c.1))])
             (λ i c, continue (p i c)) (chan +:+ ".sz") Hne).
    intros i c Hi. unfold p.
    rewrite allgather_object_calls by (by apply (Hfit i)).
    by rewrite (Hc i c Hi). }
  assert (concat (imap (λ (_ : nat) (c : Obj * option string),
                          [Z.of_nat (length (dump c.1))]) calls)
          = gathered_sizes calls) as ->.
  { unfold gathered_sizes, pickles. rewrite imap_unindexed, <-list_fmap_compose.
    clear. induction calls as [|c l IH]; [done|].
    rewrite !fmap_cons, concat_cons, IH. done. }
  set (q := λ (i : nat) (c : Obj * option string),
              continue (p i c) (IntTensor (gathered_sizes calls))).
  erewrite run_step; cycle 1.
  { apply unfinished_imap; [done|]. intros i c Hi. unfold q, p.
    by rewrite allgather_object_calls by (by apply (Hfit i)). }
  { apply (round_allgather_bytes q calls (λ _ c, dump c.1)
             (λ i c, continue (q i c)) (chan +:+ ".t") Hne).
    intros i c Hi. unfold q, p.
    rewrite allgather_object_calls by (by apply (Hfit i)). simpl.
    by rewrite (Hc i c Hi). }
  rewrite imap_unindexed. fold (pickles calls).
  rewrite <-imap_unindexed. apply run_finished. intros i c Hi.
  unfold q, p. rewrite allgather_object_calls by (by apply (Hfit i)).
  simpl. split; [|done].
  apply mapM_finished. intros j. unfold select, index.
  destruct (py_index _ _); [|done]. simpl.
  unfold cloudpickle_load. by destruct (load _).
Qed.

(** A rank whose pickle is too long to announce raises before its first
    allgather, and the ranks that can announce theirs are left waiting in
    the allgather of the sizes. *)
Lemma allgather_object_long_pickle (size : nat) (obj : Obj)
    (name : option string) :
  ¬ announceable dump obj →
  allgather_object size obj name
  = Raise (RuntimeError
             "value cannot be converted to type int32 without overflow").
Proof.
  intros Hfit. unfold allgather_object. simpl.
  rewrite torch_IntTensor_overflow; [done|].
  unfold announceable in Hfit. lia.
Qed.

Lemma allgather_object_group_long_pickle (calls : list (Obj * option string))
    (i : nat) (c : Obj * option string) (fuel : nat) :
  calls !! i = Some c →
  ¬ announceable dump c.1 →
  run (S fuel) (allgather_object_group dump load type_name calls)
  = Some ((λ c, if decide (Z.of_nat (length (dump c.1)) < 2 ^ 31) then Hung
                else Raised (RuntimeError
                       "value cannot be converted to type int32 without overflow"))
            <$> calls).
Proof.
  intros Hi Hfit.
  set (ps := allgather_object_group dump load type_name calls).
  rewrite (run_with_raise fuel ps i
             (RuntimeError
                "value cannot be converted to type int32 without overflow")).
  2: { unfold ps, allgather_object_group, launch.
       rewrite list_lookup_imap, Hi. simpl.
       by rewrite allgather_object_long_pickle. }
  f_equal. unfold ps, allgather_object_group, launch.
  rewrite fmap_imap, <-(imap_const (λ c, if decide _ then _ else _)).
  apply imap_ext. intros j c' Hj. simpl.
  destruct (decide (Z.of_nat (length (dump c'.1)) < 2 ^ 31))
    as [Hshort|Hlong].
  - by rewrite allgather_object_calls.
  - by rewrite allgather_object_long_pickle.
Qed.

(** C2, as the code has it.  [allgather_object]: on a group of any size
    that enters the exchange on one name (the name the ranks pass, or the
    type name of their objects), when the codec reads back what it wrote
    and the length of every pickle fits the 32-bit tensor that announces
    it, every rank returns the list of the ranks' objects in rank order;
    and segment [i] of the gathered buffer, cut from the prefix sum of the
    sizes before [i] over [sizes[i]] bytes, is rank [i]'s pickle. *)
Theorem allgather_object_rank_order (calls : list (Obj * option string))
    (fuel : nat) :
  (∀ o, load (dump o) = Some o) →
  Forall (λ c, announceable dump c.1) calls →
  same_channel type_name calls →
  (2 ≤ fuel)%nat →
  run fuel (allgather_object_group dump load type_name calls)
  = Some ((λ _, Returned (fst <$> calls)) <$> calls)
  ∧ ∀ i c, calls !! i = Some c →
      select (gathered_sizes calls) (concat (pickles calls)) (Z.of_nat i)
      = Ret (dump c.1).
Proof.
  intros Hcodec Hfit Hchan Hfuel.
  assert (∀ i c, calls !! i = Some c →
            select (gathered_sizes calls) (concat (pickles calls)) (Z.of_nat i)
            = Ret (dump c.1)) as Hsel.
  { intros i c Hi. apply select_segment.
    unfold pickles. by rewrite list_lookup_fmap, Hi. }
  split; [|done].
  rewrite allgather_object_group_run by done. f_equal.
  apply list_fmap_ext. intros _ _ _. f_equal.
  rewrite <-(length_fmap fst calls).
  rewrite (mapM_seq_Ret _ (fst <$> calls) 0); [done|].
  intros i o Hi. rewrite list_lookup_fmap in Hi.
  destruct (calls !! i) as [c'|] eqn:Hi'; [|done].
  injection Hi as <-. simpl. rewrite (Hsel i c' Hi'). simpl.
  unfold cloudpickle_load. by rewrite Hcodec.
Qed.

End Protocol.

(** The theorems at work on three ranks that exchange byte strings of
    lengths 3, 0 and 7. *)
Lemma three_ranks_same_channel :
  same_channel Sample.type_name_bytes Sample.three_ranks.
Proof.
  intros i j c c' Hi Hj.
  assert (∀ k d, Sample.three_ranks !! k = Some d →
            default_name Sample.type_name_bytes d.2 d.1 = "model") as Hk.
  { intros [|[|[|k]]] d Hd; simplify_eq/=; done. }
  by rewrite (Hk i c Hi), (Hk j c' Hj).
Qed.

Lemma broadcast_object_round_trip_witness :
  run 2 (broadcast_object_group Sample.dump_bytes Sample.load_bytes
           Sample.type_name_bytes Sample.zero_memory 2 Sample.three_ranks)
  = Some ((λ _, Returned ["t"; "e"; "n"; "s"; "o"; "r"; "s"]%byte)
            <$> Sample.three_ranks)
  ∧ broadcast_object Sample.dump_bytes Sample.load_bytes
      Sample.type_name_bytes Sample.zero_memory 2
      ["t"; "e"; "n"; "s"; "o"; "r"; "s"]%byte 2 (Some "model")
    = Broadcast_ (IntTensor [7]) 2 "model.sz"
        (λ _, Broadcast_ (ByteTensor ["t"; "e"; "n"; "s"; "o"; "r"; "s"]%byte)
                2 "model.t"
                (λ _, Ret ["t"; "e"; "n"; "s"; "o"; "r"; "s"]%byte))
  ∧ ∀ i c, Sample.three_ranks !! i = Some c → i ≠ 2%nat →
      ∃ k, broadcast_object Sample.dump_bytes Sample.load_bytes
             Sample.type_name_bytes Sample.zero_memory
             (Z.of_nat i) c.1 2 c.2
           = Broadcast_ (IntTensor [0]) 2
               (default_name Sample.type_name_bytes c.2 c.1 +:+ ".sz") k
         ∧ ∀ n, k (IntTensor [Z.of_nat n])
                = Broadcast_ (ByteTensor (Sample.zero_memory <$> seq 0 n)) 2
                    (default_name Sample.type_name_bytes c.2 c.1 +:+ ".t")
                    (λ t, tobytes t ≫= cloudpickle_load Sample.load_bytes).
Proof.
  apply (broadcast_object_round_trip Sample.dump_bytes Sample.load_bytes
           Sample.type_name_bytes Sample.zero_memory Sample.three_ranks
           2 ["t"; "e"; "n"; "s"; "o"; "r"; "s"]%byte (Some "model") 2).
  - reflexivity.
  - reflexivity.
  - reflexivity.
  - exact three_ranks_same_channel.
  - lia.
Defined.

Lemma long_bytes_length :
  Z.of_nat (length (Sample.dump_bytes Sample.long_bytes)) = 2 ^ 31.
Proof.
  unfold Sample.dump_bytes, Sample.long_bytes.
  rewrite length_replicate, Z2Nat.id; lia.
Qed.

(** Two groups on which the codec reads back what it wrote and the root
    is a rank of the group, yet no rank returns the root's object.  On two
    ranks that pass no name, the root with a byte string and the other
    with [None], the root announces the length under ["bytes.sz"] and the
    other rank waits under ["NoneType.sz"].  On two ranks that pass one
    name, the root with a byte string of 2^31 bytes, the root raises on
    the tensor of the length and the other rank waits for the length.
    Both however many steps are allowed. *)
Lemma broadcast_object_does_not_return :
  ((∀ o, Sample.load_object (Sample.dump_object o) = Some o)
   ∧ Sample.two_types !! 0%nat = Some (Sample.PyBytes ["a"]%byte, None)
   ∧ (∀ fuel,
        run (S fuel)
          (broadcast_object_group Sample.dump_object Sample.load_object
             Sample.type_name_object Sample.zero_memory 0 Sample.two_types)
        = Some [Hung; Hung])
   ∧ ¬ ∃ fuel,
         run fuel
           (broadcast_object_group Sample.dump_object Sample.load_object
              Sample.type_name_object Sample.zero_memory 0 Sample.two_types)
         = Some ((λ _, Returned (Sample.PyBytes ["a"]%byte))
                   <$> Sample.two_types))
  ∧ ((∀ o, Sample.load_bytes (Sample.dump_bytes o) = Some o)
     ∧ Sample.long_and_short !! 0%nat
       = Some (Sample.long_bytes, Some "model")
     ∧ (∀ fuel,
          run (S fuel)
            (broadcast_object_group Sample.dump_bytes Sample.load_bytes
               Sample.type_name_bytes Sample.zero_memory 0
               Sample.long_and_short)
          = Some [ Raised (RuntimeError
                     "value cannot be converted to type int32 without overflow");
                   Hung ])
     ∧ ¬ ∃ fuel,
           run fuel
             (broadcast_object_group Sample.dump_bytes Sample.load_bytes
                Sample.type_name_bytes Sample.zero_memory 0
                Sample.long_and_short)
           = Some ((λ _, Returned Sample.long_bytes)
                     <$> Sample.long_and_short)).
Proof.
  split.
  - split; [by intros [|b]|]. split; [done|]. split; [by intros fuel|].
    intros [[|fuel] H]; done.
  - assert (∀ fuel,
              run (S fuel)
                (broadcast_object_group Sample.dump_bytes Sample.load_bytes
                   Sample.type_name_bytes Sample.zero_memory 0
                   Sample.long_and_short)
              = Some [ Raised (RuntimeError
                         "value cannot be converted to type int32 without overflow");
                       Hung ]) as Hrun.
    { intros fuel.
      apply (broadcast_object_group_long_pickle Sample.dump_bytes
               Sample.load_bytes Sample.type_name_bytes Sample.zero_memory
               Sample.long_and_short 0 Sample.long_bytes (Some "model")).
      - reflexivity.
      - unfold announceable. rewrite long_bytes_length. lia. }
    split; [done|]. split; [reflexivity|]. split; [exact Hrun|].
    intros [fuel H%run_more]. rewrite Hrun in H. discriminate H.
Qed.


Lemma allgather_object_rank_order_witness :
  run 2 (allgather_object_group Sample.dump_bytes Sample.load_bytes
           Sample.type_name_bytes Sample.three_ranks)
  = Some ((λ _, Returned (fst <$> Sample.three_ranks)) <$> Sample.three_ranks)
  ∧ ∀ i c, Sample.three_ranks !! i = Some c →
      select (gathered_sizes Sample.dump_bytes Sample.three_ranks)
        (concat (pickles Sample.dump_bytes Sample.three_ranks)) (Z.of_nat i)
      = Ret (Sample.dump_bytes c.1).
Proof.
  apply (allgather_object_rank_order Sample.dump_bytes Sample.load_bytes
           Sample.type_name_bytes Sample.three_ranks 2).
  - reflexivity.
  - repeat constructor.
  - exact three_ranks_same_channel.
  - lia.
Defined.

(** Two groups on which the codec reads back what it wrote, yet no rank
    returns the list of the group's objects.  On two ranks that pass no
    name, one with a byte string and one with [None], the sizes are
    gathered under ["bytes.sz"] by one rank and under ["NoneType.sz"] by
    the other.  On two ranks that pass one name, one with a byte string of
    2^31 bytes, that rank raises on the tensor of the length and the other
    waits for the sizes.  Both however many steps are allowed. *)
Lemma allgather_object_does_not_return :
  ((∀ o, Sample.load_object (Sample.dump_object o) = Some o)
   ∧ (∀ fuel,
        run (S fuel)
          (allgather_object_group Sample.dump_object Sample.load_object
             Sample.type_name_object Sample.two_types)
        = Some [Hung; Hung])
   ∧ ¬ ∃ fuel,
         run fuel
           (allgather_object_group Sample.dump_object Sample.load_object
              Sample.type_name_object Sample.two_types)
         = Some ((λ _, Returned (fst <$> Sample.two_types))
                   <$> Sample.two_types))
  ∧ ((∀ o, Sample.load_bytes (Sample.dump_bytes o) = Some o)
     ∧ (∀ fuel,
          run (S fuel)
            (allgather_object_group Sample.dump_bytes Sample.load_bytes
               Sample.type_name_bytes Sample.long_and_short)
          = Some [ Raised (RuntimeError
                     "value cannot be converted to type int32 without overflow");
                   Hung ])
     ∧ ¬ ∃ fuel,
           run fuel
             (allgather_object_group Sample.dump_bytes Sample.load_bytes
                Sample.type_name_bytes Sample.long_and_short)
           = Some ((λ _, Returned (fst <$> Sample.long_and_short))
                     <$> Sample.long_and_short)).
Proof.
  split.
  - split; [by intros [|b]|]. split; [by intros fuel|].
    intros [[|fuel] H]; done.
  - assert (∀ fuel,
              run (S fuel)
                (allgather_object_group Sample.dump_bytes Sample.load_bytes
                   Sample.type_name_bytes Sample.long_and_short)
              = Some [ Raised (RuntimeError
                         "value cannot be converted to type int32 without overflow");
                       Hung ]) as Hrun.
    { intros fuel.
      rewrite (allgather_object_group_long_pickle Sample.dump_bytes
                 Sample.load_bytes Sample.type_name_bytes
                 Sample.long_and_short 0 (Sample.long_bytes, Some "model"));
        [|reflexivity
         |change (¬ Z.of_nat (length (Sample.dump_bytes Sample.long_bytes))
                    < 2 ^ 31);
          rewrite long_bytes_length; lia].
      unfold Sample.long_and_short. rewrite !fmap_cons, fmap_nil.
      rewrite decide_False.
      2: { change (¬ Z.of_nat (length (Sample.dump_bytes Sample.long_bytes))
                     < 2 ^ 31).
           rewrite long_bytes_length. lia. }
      rewrite decide_True; [reflexivity|].
      change (Z.of_nat 0 < 2 ^ 31). lia. }
    split; [done|]. split; [exact Hrun|].
    intros [fuel H%run_more]. rewrite Hrun in H. discriminate H.
Qed.

(** The partition boundaries for pickles of lengths [3; 0; 7] are
    [0,3), [3,3) and [3,10). *)
Example size_prefix_boundaries :
  let sizes := gathered_sizes Sample.dump_bytes Sample.three_ranks in
  sizes = [3; 0; 7]
  ∧ (λ i, (sum (py_slice sizes 0 i), sum (py_slice sizes 0 i) + sizes !!! Z.to_nat i))
      <$> [0; 1; 2] = [(0, 3); (3, 3); (3, 10)].
Proof. done. Qed.

(** Ranks that pass objects of different types and no name do not meet:
    the lengths are announced under different names. *)
Example unnamed_exchange_of_different_types_hangs :
  run 2 (broadcast_object_group Sample.dump_bytes Sample.load_bytes
           Sample.type_name_bytes Sample.zero_memory 0
           [(["a"]%byte, None); ([], None)])
  = Some [Hung; Hung].
Proof. reflexivity. Qed.

End ObjectExchangeFacts.

(** ** Scalars through tensors *)
Module TypeCastFacts.
Import TypeCast.

(** Induction over values, with the property at hand for the items of a
    container. *)
Lemma pyval_nested_ind (P : pyval → Prop) :
  (∀ s, P (PyScalar s)) →
  (∀ items, Forall P items → P (PyTuple items)) →
  (∀ items, Forall P items → P (PyList items)) →
  ∀ v, P v.
Proof.
  intros Hs Ht Hl. fix IH 1. intros [s|items|items].
  - apply Hs.
  - apply Ht. induction items as [|x xs IHxs]; constructor;
      [apply IH | apply IHxs].
  - apply Hl. induction items as [|x xs IHxs]; constructor;
      [apply IH | apply IHxs].
Qed.

Lemma result_fmap_Ok {A B} (f : A → B) (r : result A) (b : B) :
  f <$> r = Ok b → ∃ a, r = Ok a ∧ b = f a.
Proof. destruct r as [a|e]; [|done]. intros [= <-]. eauto. Qed.

Lemma result_bind_Ok {A B} (f : A → result B) (r : result A) (b : B) :
  r ≫= f = Ok b → ∃ a, r = Ok a ∧ f a = Ok b.
Proof. destruct r as [a|e]; [|done]. eauto. Qed.

Lemma mapM_result_cons {A B} (f : A → result B) (x : A) (l : list A)
    (ys : list B) :
  mapM f (x :: l) = Ok ys →
  ∃ y ys', f x = Ok y ∧ mapM f l = Ok ys' ∧ ys = y :: ys'.
Proof.
  simpl. intros (y & Hy & H)%result_bind_Ok.
  apply result_bind_Ok in H as (ys' & Hys & [= <-]). eauto.
Qed.

(** The array [flatten] hands on is the data of the value itself. *)
Lemma flatten_tensor_data (v : pyval) (a : ndarray) :
  flatten v = Ok a → tensor_data v = Ok a.
Proof.
  unfold flatten, torch_Tensor. simpl.
  destruct (tensor_data v) as [a'|e]; [|done]. simpl.
  destruct (shape a'); simpl; [|done]. by intros [= ->].
Qed.

Lemma _recursive_cast_container (t : container_type) (x : list ndarray)
    (dtypes : list signature) :
  _recursive_cast (Array x) (Container t dtypes)
  = build t <$> cast_items x dtypes.
Proof. simpl. fold cast_items. by destruct (cast_items x dtypes). Qed.

Lemma cast_items_round_trip (items : list pyval) (x : list ndarray) :
  Forall (λ v, ∀ a, tensor_data v = Ok a →
                 Forall survives_binary32 (scalars v) →
                 _recursive_cast a (_get_types v) = Ok v) items →
  mapM tensor_data items = Ok x →
  Forall survives_binary32 (mjoin (scalars <$> items)) →
  cast_items x (_get_types <$> items) = Ok items.
Proof.
  intros IH. revert x. induction IH as [|v items Hv _ IHitems]; intros x Hx Hs.
  - simpl in Hx. by injection Hx as <-.
  - apply mapM_result_cons in Hx as (a & x' & Ha & Hx' & ->).
    rewrite fmap_cons in Hs. simpl in Hs. apply Forall_app in Hs as [Hs1 Hs2].
    rewrite fmap_cons. simpl.
    rewrite (Hv a Ha Hs1). simpl.
    fold cast_items. by rewrite (IHitems x' Hx' Hs2).
Qed.

Lemma tensor_round_trip (v : pyval) :
  ∀ a, tensor_data v = Ok a →
       Forall survives_binary32 (scalars v) →
       _recursive_cast a (_get_types v) = Ok v.
Proof.
  induction v as [s|items IH|items IH] using pyval_nested_ind; intros a Ha Hs.
  - simpl in Ha. apply result_fmap_Ok in Ha as (x & Hx & ->).
    simpl in Hs. rewrite Forall_singleton in Hs. unfold survives_binary32 in Hs.
    rewrite Hx in Hs. simpl in Hs. simpl. by rewrite Hs.
  - simpl in Ha. apply result_fmap_Ok in Ha as (x & Hx & ->).
    change (_get_types (PyTuple items))
      with (Container py_tuple (_get_types <$> items)).
    rewrite _recursive_cast_container.
    by rewrite (cast_items_round_trip items x IH Hx Hs).
  - simpl in Ha. apply result_fmap_Ok in Ha as (x & Hx & ->).
    change (_get_types (PyList items))
      with (Container py_list (_get_types <$> items)).
    rewrite _recursive_cast_container.
    by rewrite (cast_items_round_trip items x IH Hx Hs).
Qed.

(** C4, as the code has it.  A value that [torch.Tensor] accepts, and whose
    scalars each come back from a binary32 element as they went in, is
    reconstructed from its tensor exactly: types, nesting and values. *)
Theorem reconstruct_flatten_exact (v : pyval) (a : ndarray) :
  flatten v = Ok a →
  Forall survives_binary32 (scalars v) →
  reconstruct a (_get_types v) = Ok v.
Proof.
  intros Ha%flatten_tensor_data Hs. by apply tensor_round_trip.
Qed.

Lemma reconstruct_flatten_exact_witness :
  flatten Sample.nested_option
    = Ok (Array [ Array [ Elem (S754_finite false 8388608 (-24));
                          Elem (S754_finite false 12582912 (-24)) ];
                  Array [ Elem (S754_finite false 16384000 (-14));
                          Elem (S754_finite false 8388608 (-23)) ] ])
  ∧ reconstruct
      (Array [ Array [ Elem (S754_finite false 8388608 (-24));
                       Elem (S754_finite false 12582912 (-24)) ];
               Array [ Elem (S754_finite false 16384000 (-14));
                       Elem (S754_finite false 8388608 (-23)) ] ])
      (_get_types Sample.nested_option)
    = Ok Sample.nested_option.
Proof.
  split; [reflexivity|].
  apply (reconstruct_flatten_exact Sample.nested_option).
  - reflexivity.
  - repeat constructor.
Defined.

(** C4, as the claim has it, fails: the learning rate [0.1] comes back as
    the binary32 number nearest to it. *)
Lemma tenth_is_not_reconstructed :
  let v := PyScalar (PyFloat Sample.tenth) in
  (a ← flatten v; reconstruct a (_get_types v))
    = Ok (PyScalar (PyFloat Sample.tenth_binary32))
  ∧ (a ← flatten v; reconstruct a (_get_types v)) ≠ Ok v.
Proof. split; [reflexivity|]. intros [=]. Qed.

(** A step count beyond 24 bits does not come back either. *)
Example large_int_is_not_reconstructed :
  let v := PyScalar (PyInt 16777217) in
  (a ← flatten v; reconstruct a (_get_types v)) = Ok (PyScalar (PyInt 16777216)).
Proof. reflexivity. Qed.

End TypeCastFacts.

(** ** The optimizer state broadcaster *)
Module OptimizerStateFacts.
Import TypeCast OptimizerState.

(** *** Reasoning about a rank's computations *)

Lemma bind_run {A B} (m : M A) (f : A → M B) (w : world) :
  (m ≫= f) w = match m w with
               | (Ok a, w') => f a w'
               | (Err e, w') => (Err e, w')
               end.
Proof. done. Qed.

Lemma bind_Ok {A B} (m : M A) (f : A → M B) (w w' : world) (a : A) :
  m w = (Ok a, w') → (m ≫= f) w = f a w'.
Proof. intros H. by rewrite bind_run, H. Qed.

Lemma bind_Err {A B} (m : M A) (f : A → M B) (w w' : world) (e : exn) :
  m w = (Err e, w') → (m ≫= f) w = (Err e, w').
Proof. intros H. by rewrite bind_run, H. Qed.

Lemma bind_inv_Ok {A B} (m : M A) (f : A → M B) (w w' : world) (b : B) :
  (m ≫= f) w = (Ok b, w') →
  ∃ a w1, m w = (Ok a, w1) ∧ f a w1 = (Ok b, w').
Proof.
  rewrite bind_run. destruct (m w) as [[a|e] w1]; [eauto|done].
Qed.

Section Across.
Context (R : world → world → Prop) `{!Reflexive R, !Transitive R}.

Lemma across_ret {A} (a : A) : across R (mret a : M A).
Proof. intros w. simpl. reflexivity. Qed.

Lemma across_raise {A} (e : exn) : across R (raise e : M A).
Proof. intros w. simpl. reflexivity. Qed.

Lemma across_lift {A} (r : result A) : across R (lift r).
Proof. intros w. simpl. reflexivity. Qed.

Lemma across_bind {A B} (m : M A) (f : A → M B) :
  across R m → (∀ a, across R (f a)) → across R (m ≫= f).
Proof.
  intros Hm Hf w. rewrite bind_run. specialize (Hm w).
  destruct (m w) as [[a|e] w1]; simpl in *; [|done].
  etrans; [done|]. apply Hf.
Qed.

Lemma across_for_fold {X S} (l : list X) (body : S → X → M S) (s : S) :
  (∀ s x, across R (body s x)) → across R (for_fold l body s).
Proof.
  intros Hbody. revert s. induction l as [|x l IH]; intros s; simpl.
  - apply across_ret.
  - apply across_bind; [apply Hbody | apply IH].
Qed.

Lemma across_for_each {X} (l : list X) (body : X → M unit) :
  (∀ x, across R (body x)) → across R (for_each l body).
Proof. intros Hbody. apply across_for_fold. intros _ x. apply Hbody. Qed.

End Across.

Global Instance adds_refl P : Reflexive (adds P).
Proof. intros w. exists []. by rewrite app_nil_r. Qed.

Global Instance adds_trans P : Transitive (adds P).
Proof.
  intros w1 w2 w3 (evs1 & H1 & HP1) (evs2 & H2 & HP2).
  exists (evs1 ++ evs2). rewrite H2, H1, app_assoc. split; [done|].
  by apply Forall_app.
Qed.

Global Instance same_optimizer_refl : Reflexive same_optimizer.
Proof. by intros w. Qed.
Global Instance same_optimizer_trans : Transitive same_optimizer.
Proof. unfold same_optimizer. intros w1 w2 w3 H1 H2. congruence. Qed.
Global Instance same_heap_refl : Reflexive same_heap.
Proof. by intros w. Qed.
Global Instance same_heap_trans : Transitive same_heap.
Proof. unfold same_heap. intros w1 w2 w3 H1 H2. congruence. Qed.

Ltac across_step :=
  lazymatch goal with
  | |- across _ (mret _) => apply across_ret; try apply _
  | |- across _ (raise _) => apply across_raise; try apply _
  | |- across _ (lift _) => apply across_lift; try apply _
  | |- across _ (_ ≫= _) => apply across_bind; try apply _
  | |- across _ (for_fold _ _ _) => apply across_for_fold; try apply _
  | |- across _ (for_each _ _) => apply across_for_each; try apply _
  | |- across _ (match ?x with _ => _ end) => destruct x
  | |- ∀ _, _ => intros
  end.

(** Reads change nothing; writes to the tensors and to the optimizer add
    no event. *)
Section Primitives.
Context (R : world → world → Prop) `{!Reflexive R, !Transitive R}.

Lemma across_get_optimizer : across R get_optimizer.
Proof. intros w. simpl. reflexivity. Qed.

Lemma across_get_heap : across R get_heap.
Proof. intros w. simpl. reflexivity. Qed.

Lemma across_read_tensor (p : loc) : across R (read_tensor p).
Proof.
  unfold read_tensor. apply across_bind; [apply _..|apply across_get_heap|].
  intros h. destruct (h !! p); [apply across_ret|apply across_raise]; apply _.
Qed.

End Primitives.

Lemma adds_log (P : event → Prop) (ev : event) :
  P ev → across (adds P) (log ev).
Proof. intros HP w. exists [ev]. split; [done|]. by constructor. Qed.

Lemma adds_put_optimizer (P : event → Prop) (o : optimizer) :
  across (adds P) (put_optimizer o).
Proof. intros w. exists []. by rewrite app_nil_r. Qed.

Lemma adds_put_heap (P : event → Prop) (h : list ndarray) :
  across (adds P) (put_heap h).
Proof. intros w. exists []. by rewrite app_nil_r. Qed.

Lemma same_optimizer_log (ev : event) : across same_optimizer (log ev).
Proof. by intros w. Qed.

Lemma same_optimizer_put_heap (h : list ndarray) :
  across same_optimizer (put_heap h).
Proof. by intros w. Qed.

Lemma same_heap_log (ev : event) : across same_heap (log ev).
Proof. by intros w. Qed.

Lemma same_heap_put_optimizer (o : optimizer) :
  across same_heap (put_optimizer o).
Proof. by intros w. Qed.

Ltac across_auto :=
  repeat first
    [ apply across_get_optimizer; apply _
    | apply across_get_heap; apply _
    | apply across_read_tensor; apply _
    | apply adds_put_optimizer
    | apply adds_put_heap
    | apply same_optimizer_log
    | apply same_optimizer_put_heap
    | apply same_heap_log
    | apply same_heap_put_optimizer
    | apply adds_log; done
    | across_step ].

Lemma with_param_groups_id (o : optimizer) :
  with_param_groups o (param_groups o) = o.
Proof. by destruct o. Qed.

Lemma with_param_groups_twice (o : optimizer) (gs gs' : list param_group) :
  with_param_groups (with_param_groups o gs) gs' = with_param_groups o gs'.
Proof. done. Qed.

Section Rank.
Variable update_rule :
  step_call → optimizer → list ndarray → optimizer * list ndarray.
Variable wire : option string → ndarray → result ndarray.

Local Abbreviation broadcast_optimizer_state :=
  (broadcast_optimizer_state update_rule wire).
Local Abbreviation broadcast_parameters := (broadcast_parameters wire).
Local Abbreviation synchronize := (synchronize wire).
Local Abbreviation initialize_state := (initialize_state update_rule).
Local Abbreviation step := (step update_rule).
Local Abbreviation prepare := (prepare update_rule).

(** C8. A [torch.optim.LBFGS] optimizer is refused with the source's
    [ValueError] and the world as it was: no event (no collective call, no
    read of the state), the optimizer and the tensors untouched. *)
Theorem lbfgs_is_rejected_before_anything (root_rank : Z) (w : world) :
  is_LBFGS (the_optimizer w) = true →
  broadcast_optimizer_state root_rank w
  = (Err (ValueError "cannot broadcast torch.optim.LBFGS state"), w).
Proof.
  intros Hlbfgs. unfold OptimizerState.broadcast_optimizer_state.
  rewrite bind_run. simpl. by rewrite Hlbfgs.
Qed.

(** *** The later phases add no step and no gradient *)

Lemma collect_adds (P : event → Prop) (sd : state_dict_t) :
  across (adds P) (collect sd).
Proof.
  unfold collect, collect_group, collect_param, collect_field, collect_option,
    new_Tensor, alloc.
  across_auto.
Qed.

Lemma broadcast_parameters_adds (params : params_arg) (root_rank : Z) :
  across (adds no_initialisation) (broadcast_parameters params root_rank).
Proof.
  unfold OptimizerState.broadcast_parameters, broadcast_async_,
    OptimizerState.synchronize, write_tensor.
  across_auto.
Qed.

Lemma run_callbacks_adds (c : collected) :
  across (adds no_initialisation) (run_callbacks c).
Proof.
  unfold run_callbacks. apply across_for_each; [apply _..|].
  intros [key p]. unfold callback_body, invoke, set_state_field,
    set_group_option.
  across_auto.
Qed.

(** *** The initialisation of an empty state *)

Lemma zero_grad_params (sd : state_dict_t) (gpre gpost : list param_group)
    (grp : param_group) (rest ppre : list parameter) (w : world) :
  sd_state sd = [] →
  param_groups (the_optimizer w)
    = gpre ++ with_params grp (ppre ++ rest) :: gpost →
  ∃ w', for_each (imap (λ j, pair (length ppre + j)%nat) rest)
          (zero_grad_body sd (length gpre)) w = (Ok (), w')
    ∧ the_optimizer w'
      = with_param_groups (the_optimizer w)
          (gpre ++ with_params grp (ppre ++ (with_zero_grad <$> rest)) :: gpost)
    ∧ heap w' = heap w
    ∧ trace w' = trace w ++ grad_events rest.
Proof.
  intros Hsd. revert ppre w.
  induction rest as [|p rest IH]; intros ppre w Hw.
  - exists w. split; [done|]. rewrite fmap_nil, <-Hw, with_param_groups_id.
    unfold grad_events. by rewrite filter_nil, fmap_nil, app_nil_r.
  - set (q := with_zero_grad p).
    assert (∃ w1, zero_grad_body sd (length gpre) (length ppre + 0, p)%nat w
                  = (Ok (), w1)
              ∧ the_optimizer w1
                = with_param_groups (the_optimizer w)
                    (gpre ++ with_params grp ((ppre ++ [q]) ++ rest) :: gpost)
              ∧ heap w1 = heap w
              ∧ trace w1 = trace w ++ grad_events [p]) as (w1 & H1 & Ho1 & Hh1 & Ht1).
    { unfold zero_grad_body, q, with_zero_grad, grad_events.
      rewrite Hsd. simpl. rewrite filter_cons.
      destruct (requires_grad p) eqn:Hreq; simpl.
      - eexists. split; [reflexivity|]. simpl.
        split; [|done]. rewrite Hw. f_equal.
        replace (length gpre) with (length gpre + 0)%nat at 1 by lia.
        rewrite alter_app_r. simpl. do 2 f_equal. unfold with_params. simpl.
        f_equal. rewrite alter_app_r. simpl. by rewrite <-app_assoc.
      - exists w. split; [done|]. rewrite app_nil_r.
        rewrite <-app_assoc. simpl. by rewrite <-Hw, with_param_groups_id. }
    destruct (IH (ppre ++ [q]) w1) as (w' & H' & Ho' & Hh' & Ht').
    { by rewrite Ho1. }
    exists w'. split; [|split; [|split]].
    + unfold for_each in *. simpl. rewrite (bind_Ok _ _ _ _ _ H1).
      rewrite <-H'. f_equal. apply imap_ext. intros j x _. simpl.
      rewrite length_app. simpl. f_equal. lia.
    + rewrite Ho', Ho1, with_param_groups_twice.
      rewrite fmap_cons, <-app_assoc. done.
    + congruence.
    + rewrite Ht', Ht1, <-app_assoc. f_equal. unfold grad_events.
      rewrite (filter_cons _ p rest). rewrite !filter_cons, filter_nil.
      by destruct (decide _).
Qed.

Lemma zero_grad_groups (sd : state_dict_t) (rest gpre : list param_group)
    (w : world) :
  sd_state sd = [] →
  param_groups (the_optimizer w) = gpre ++ rest →
  ∃ w', for_each (imap (λ i, pair (length gpre + i)%nat) rest)
          (zero_grad_group sd) w = (Ok (), w')
    ∧ the_optimizer w'
      = with_param_groups (the_optimizer w) (gpre ++ with_zero_grads rest)
    ∧ heap w' = heap w
    ∧ trace w' = trace w ++ grad_events (rest ≫= group_params).
Proof.
  intros Hsd. revert gpre w.
  induction rest as [|grp rest IH]; intros gpre w Hw.
  - exists w. split; [done|]. unfold with_zero_grads. simpl.
    rewrite <-Hw, with_param_groups_id. unfold grad_events.
    by rewrite app_nil_r.
  - destruct (zero_grad_params sd gpre rest grp (group_params grp) [] w Hsd)
      as (w1 & H1 & Ho1 & Hh1 & Ht1).
    { rewrite Hw. simpl. by destruct grp. }
    simpl in Ho1.
    destruct (IH (gpre ++ [with_params grp (with_zero_grad <$> group_params grp)]) w1)
      as (w' & H' & Ho' & Hh' & Ht').
    { rewrite Ho1. simpl. by rewrite <-app_assoc. }
    exists w'. split; [|split; [|split]].
    + unfold for_each in *. simpl. rewrite Nat.add_0_r.
      unfold enumerate. simpl in H1.
      rewrite (bind_Ok _ _ _ _ _ H1).
      rewrite <-H'. f_equal. apply imap_ext. intros j x _. simpl.
      rewrite length_app. simpl. f_equal. lia.
    + rewrite Ho', Ho1, with_param_groups_twice.
      unfold with_zero_grads. rewrite fmap_cons, <-app_assoc. done.
    + congruence.
    + rewrite Ht', Ht1, <-app_assoc. f_equal. unfold grad_events.
      simpl. by rewrite filter_app, fmap_app.
Qed.

Lemma step_run (call : step_call) (w : world) :
  ∃ w', step call w = (Ok (), w')
    ∧ trace w' = trace w ++ [EvStep call (the_optimizer w)].
Proof.
  unfold OptimizerState.step, mbind, M_bind, get_optimizer, log, get_heap. simpl.
  destruct (update_rule _ _ _) as [o' h']. simpl. eauto.
Qed.

Lemma state_broadcast_adds (root_rank : Z) (sd : state_dict_t) :
  across (adds no_initialisation)
    (if bool_decide (length (sd_state sd) = 0%nat) then mret ()
     else c ← collect sd;
          _ ← broadcast_parameters (ParamsList (inl <$> params c)) root_rank;
          run_callbacks c).
Proof.
  case_bool_decide; [apply across_ret; apply _|].
  apply across_bind; [apply _.. | apply collect_adds |]. intros c.
  apply across_bind; [apply _.. | apply broadcast_parameters_adds |]. intros _.
  apply run_callbacks_adds.
Qed.

(** C7. On an optimizer whose state is empty the call reads the state,
    assigns a zero gradient to every parameter that requires gradients,
    takes one step, and reads the state again; nothing after that is a
    step or a gradient assignment.  The step is taken on the optimizer
    with those gradients in place, and for an optimizer of the distributed
    wrapper's module it is the parent class's step, never its own. *)
Theorem empty_state_is_initialized_by_one_plain_step (root_rank : Z)
    (w : world) :
  is_LBFGS (the_optimizer w) = false →
  state (the_optimizer w) = [] →
  ∃ call rest,
    trace (broadcast_optimizer_state root_rank w).2
    = trace w
        ++ [EvStateDict]
        ++ grad_events (param_groups (the_optimizer w) ≫= group_params)
        ++ [EvStep call
              (with_param_groups (the_optimizer w)
                 (with_zero_grads (param_groups (the_optimizer w))));
            EvStateDict]
        ++ rest
    ∧ Forall no_initialisation rest
    ∧ (module_ (the_optimizer w) = DistributedOptimizer_module →
       call = SuperStep)
    ∧ (module_ (the_optimizer w) ≠ DistributedOptimizer_module →
       call = OwnStep).
Proof.
  intros Hlbfgs Hstate.
  set (o := the_optimizer w) in *.
  set (call := if String.eqb (module_ o) DistributedOptimizer_module
               then SuperStep else OwnStep).
  set (w1 := {| the_optimizer := o; heap := heap w;
                trace := trace w ++ [EvStateDict] |}).
  destruct (zero_grad_groups (pack o) (param_groups o) [] w1)
    as (w2 & H2 & Ho2 & Hh2 & Ht2); [done..|].
  destruct (step_run call w2) as (w3 & H3 & Ht3).
  set (w4 := {| the_optimizer := the_optimizer w3; heap := heap w3;
                trace := trace w3 ++ [EvStateDict] |}).
  set (sd := pack (the_optimizer w3)).
  assert (broadcast_optimizer_state root_rank w
          = (if bool_decide (length (sd_state sd) = 0%nat) then mret ()
             else c ← collect sd;
                  _ ← broadcast_parameters (ParamsList (inl <$> params c))
                        root_rank;
                  run_callbacks c) w4) as ->.
  { unfold OptimizerState.broadcast_optimizer_state.
    rewrite (bind_Ok _ _ w w o) by done. rewrite Hlbfgs.
    rewrite (bind_Ok _ _ w w1 (pack o)) by done.
    rewrite (bind_Ok _ _ w1 w4 sd); [done|].
    unfold OptimizerState.initialize_state.
    rewrite bool_decide_eq_true_2 by (simpl; fold o; by rewrite Hstate).
    rewrite (bind_Ok _ _ w1 w1 o) by done.
    rewrite (bind_Ok _ _ w1 w2 ()) by exact H2.
    assert ((if String.eqb (module_ o) DistributedOptimizer_module
             then step SuperStep else step OwnStep) = step call) as ->
      by (unfold call; by destruct (String.eqb _ _)).
    rewrite (bind_Ok _ _ w2 w3 ()) by exact H3.
    done. }
  destruct (state_broadcast_adds root_rank sd w4) as (rest & Hrest & HP).
  exists call, rest. split; [|split; [done|split]].
  - rewrite Hrest. unfold w4. simpl. rewrite Ht3, Ht2, Ho2. unfold w1. simpl.
    rewrite <-!app_assoc. done.
  - intros Hm. unfold call. fold o in Hm. rewrite Hm.
    by rewrite String.eqb_refl.
  - intros Hm. unfold call. fold o in Hm.
    by apply String.eqb_neq in Hm as ->.
Qed.

(** *** Errors of the batched broadcast *)

Lemma broadcast_parameters_same_optimizer (params : params_arg)
    (root_rank : Z) :
  across same_optimizer (broadcast_parameters params root_rank).
Proof.
  unfold OptimizerState.broadcast_parameters, broadcast_async_,
    OptimizerState.synchronize, write_tensor.
  across_auto.
Qed.

Lemma broadcast_parameters_no_callback (params : params_arg)
    (root_rank : Z) :
  across (adds no_callback) (broadcast_parameters params root_rank).
Proof.
  unfold OptimizerState.broadcast_parameters, broadcast_async_,
    OptimizerState.synchronize, write_tensor.
  across_auto.
Qed.

Lemma broadcast_optimizer_state_phases (root_rank : Z) (w w0 : world)
    (sd : state_dict_t) :
  is_LBFGS (the_optimizer w) = false →
  prepare w = (Ok sd, w0) →
  sd_state sd ≠ [] →
  broadcast_optimizer_state root_rank w
  = (c ← collect sd;
     _ ← broadcast_parameters (ParamsList (inl <$> params c)) root_rank;
     run_callbacks c) w0.
Proof.
  intros Hlbfgs Hprep Hsd. unfold OptimizerState.broadcast_optimizer_state.
  rewrite (bind_Ok _ _ w w (the_optimizer w)) by done. rewrite Hlbfgs.
  unfold prepare in Hprep. apply bind_inv_Ok in Hprep as (sd0 & w' & H0 & H1).
  rewrite (bind_Ok _ _ _ _ _ H0), (bind_Ok _ _ _ _ _ H1).
  rewrite bool_decide_eq_false_2; [done|]. by destruct (sd_state sd).
Qed.

(** C6, as the code has it.  When the batched broadcast raises, the call
    raises the same error, no callback has run, and the optimizer holds
    the options, scalars and tensor objects it held when the broadcast
    began (the contents of the tensors already waited for are the
    root's). *)
Theorem failed_broadcast_runs_no_callback (root_rank : Z) (w w0 w1 w2 : world)
    (sd : state_dict_t) (c : collected) (e : exn) :
  is_LBFGS (the_optimizer w) = false →
  prepare w = (Ok sd, w0) →
  sd_state sd ≠ [] →
  collect sd w0 = (Ok c, w1) →
  broadcast_parameters (ParamsList (inl <$> params c)) root_rank w1
    = (Err e, w2) →
  broadcast_optimizer_state root_rank w = (Err e, w2)
  ∧ the_optimizer w2 = the_optimizer w1
  ∧ ∃ evs, trace w2 = trace w1 ++ evs ∧ Forall no_callback evs.
Proof.
  intros Hlbfgs Hprep Hsd Hcollect Hbroadcast.
  split; [|split].
  - rewrite (broadcast_optimizer_state_phases root_rank w w0 sd) by done.
    rewrite (bind_Ok _ _ _ _ _ Hcollect).
    by rewrite (bind_Err _ _ _ _ _ Hbroadcast).
  - pose proof (broadcast_parameters_same_optimizer
                  (ParamsList (inl <$> params c)) root_rank w1) as H.
    by rewrite Hbroadcast in H.
  - pose proof (broadcast_parameters_no_callback
                  (ParamsList (inl <$> params c)) root_rank w1) as H.
    by rewrite Hbroadcast in H.
Qed.

End Rank.

(** *** The collection of keys, tensors and callbacks *)

(** One field adds one entry to [params], under the field's name and a
    count. *)
Lemma collect_field_key (pid_ : pid) (c c' : collected)
    (name : string) (p : field_value) (w w' : world) :
  collect_field pid_ c (name, p) w = (Ok c', w') →
  ∃ n l, params c' = params c ++ [(format_key name n, l)].
Proof.
  unfold collect_field. destruct p as [l|s].
  - intros [= <- <-]. simpl. eauto.
  - intros (l & w1 & _ & [= <- <-])%bind_inv_Ok. simpl. eauto.
Qed.

Lemma collect_fields_keys (pid_ : pid) (fields : param_state)
    (c c' : collected) (w w' : world) :
  for_fold fields (collect_field pid_) c w = (Ok c', w') →
  ∃ entries,
    params c' = params c ++ entries
    ∧ Forall2 (λ entry field, ∃ n, entry.1 = format_key field.1 n)
        entries fields.
Proof.
  revert c w. induction fields as [|[name p] fields IH]; intros c w.
  - intros [= <- <-]. exists []. by rewrite app_nil_r.
  - simpl. intros (c1 & w1 & H1 & Hrest)%bind_inv_Ok.
    apply collect_field_key in H1 as (n & l & H1).
    apply IH in Hrest as (entries & Hentries & Hall).
    exists ((format_key name n, l) :: entries). split.
    + by rewrite Hentries, H1, <-app_assoc.
    + constructor; [by exists n|done].
Qed.

(** C10. A parameter id without an entry in the state leaves [params],
    [callbacks], [occurrences] and the world as they are; the loop over a
    group's ids is the loop over those of its ids that own state; and every
    field of an id that owns state adds its entry to [params]. *)
Theorem parameters_without_state_are_skipped (state_dict : state_dict_t)
    (ids : list pid) (c : collected) (w : world) :
  (∀ pid_, dict_get (sd_state state_dict) pid_ = None →
     collect_param state_dict c pid_ w = (Ok c, w))
  ∧ for_fold ids (collect_param state_dict) c w
    = for_fold
        (filter (λ pid_, is_Some (dict_get (sd_state state_dict) pid_)) ids)
        (collect_param state_dict) c w
  ∧ (∀ pid_ fields c' w',
       dict_get (sd_state state_dict) pid_ = Some fields →
       collect_param state_dict c pid_ w = (Ok c', w') →
       ∃ entries,
         params c' = params c ++ entries
         ∧ Forall2 (λ entry field, ∃ n, entry.1 = format_key field.1 n)
             entries fields).
Proof.
  split; [|split].
  - intros pid_ Hnone. unfold collect_param. by rewrite Hnone.
  - revert c w. induction ids as [|pid_ ids IH]; intros c w; [done|].
    rewrite filter_cons. destruct (dict_get (sd_state state_dict) pid_)
      as [fields|] eqn:Hget.
    + rewrite decide_True by done. simpl. rewrite !bind_run.
      destruct (collect_param state_dict c pid_ w) as [[c1|e] w1]; [|done].
      apply IH.
    + rewrite decide_False by (by intros [? [=]]). simpl. rewrite bind_run.
      unfold collect_param at 1. rewrite Hget. simpl. apply IH.
  - intros pid_ fields c' w' Hget. unfold collect_param. rewrite Hget.
    apply collect_fields_keys.
Qed.

(** *** The callbacks *)

Lemma dict_get_set {K V} `{EqDecision K} (d : dict K V) (k k' : K) (v : V) :
  dict_get (dict_set d k v) k'
  = if decide (k = k') then Some v else dict_get d k'.
Proof.
  induction d as [|[k0 v0] d IH]; simpl.
  - by destruct (decide (k = k')).
  - destruct (decide (k0 = k)) as [->|Hne]; simpl.
    + by destruct (decide (k = k')).
    + destruct (decide (k0 = k')) as [->|Hne']; [|done].
      by rewrite decide_False by done.
Qed.

Lemma set_group_option_run (index : nat) (option_key : string) (v : pyval)
    (w w' : world) :
  set_group_option index option_key v w = (Ok (), w') →
  heap w' = heap w ∧ trace w' = trace w
  ∧ state (the_optimizer w') = state (the_optimizer w)
  ∧ ∀ i k, group_option w' i k
           = if decide (index = i ∧ option_key = k) then Some v
             else group_option w i k.
Proof.
  unfold set_group_option. rewrite bind_run. simpl.
  destruct (param_groups (the_optimizer w) !! index) as [grp|] eqn:Hgrp;
    [|done].
  intros [= <-]. simpl. repeat split; try done.
  intros i k. unfold group_option. simpl.
  destruct (decide (index = i)) as [<-|Hi].
  - rewrite list_lookup_insert_eq by (by eapply lookup_lt_Some).
    rewrite Hgrp. simpl. rewrite dict_get_set.
    destruct (decide (option_key = k)) as [<-|Hk].
    + by rewrite decide_True.
    + by rewrite decide_False by (by intros [_ ?]).
  - rewrite list_lookup_insert_ne by done.
    by rewrite decide_False by (by intros [? _]).
Qed.

Lemma set_state_field_run (pid_ : pid) (name : string) (s : scalar)
    (w w' : world) :
  set_state_field pid_ name (FScalar s) w = (Ok (), w') →
  heap w' = heap w ∧ trace w' = trace w
  ∧ param_groups (the_optimizer w') = param_groups (the_optimizer w)
  ∧ ∀ q n, state_field w' q n
           = if decide (pid_ = q ∧ name = n) then Some (inr s)
             else state_field w q n.
Proof.
  unfold set_state_field. rewrite bind_run. simpl.
  destruct (dict_get (state (the_optimizer w)) pid_) as [fields|] eqn:Hf;
    [|done].
  intros [= <-]. simpl. repeat split; try done.
  intros q n. unfold state_field. simpl. rewrite dict_get_set.
  destruct (decide (pid_ = q)) as [<-|Hq].
  - rewrite Hf. simpl. rewrite dict_get_set.
    destruct (decide (name = n)) as [<-|Hn].
    + by rewrite decide_True.
    + by rewrite decide_False by (by intros [_ ?]).
  - by rewrite decide_False by (by intros [? _]).
Qed.

Lemma read_tensor_run (p : loc) (w w' : world) (a : ndarray) :
  read_tensor p w = (Ok a, w') → w' = w ∧ heap w !! p = Some a.
Proof.
  unfold read_tensor. rewrite bind_run. simpl.
  destruct (heap w !! p); [|done]. by intros [= <- <-].
Qed.

Lemma lift_run {A} (r : result A) (w w' : world) (a : A) :
  lift r w = (Ok a, w') → w' = w ∧ r = Ok a.
Proof. by intros [= -> <-]. Qed.

(** A callback leaves the tensors and the trace as they are, writes what
    it makes of its tensor into its slot, and leaves every other slot as
    it is. *)
Lemma invoke_run (cb : callback) (w w' : world) :
  invoke cb w = (Ok (), w') →
  heap w' = heap w ∧ trace w' = trace w
  ∧ restored w' (heap w) cb
  ∧ ∀ h cb', slot_of cb' ≠ slot_of cb → restored w h cb' → restored w' h cb'.
Proof.
  destruct cb as [pid_ name t p|index option_key option_tensor dtypes]; simpl.
  - intros (a & w1 & [-> Ha]%read_tensor_run & H)%bind_inv_Ok.
    apply bind_inv_Ok in H as (x & w1 & [-> Hx]%lift_run & H).
    apply bind_inv_Ok in H as (s & w1 & [-> Hs]%lift_run & H).
    apply set_state_field_run in H as (Hh & Ht & Hg & Hstate).
    repeat split; try done.
    + exists a, x, s. repeat split; try done.
      by rewrite Hstate, decide_True.
    + intros h [q n t' p'|i k tl dt] Hslot; simpl in *.
      * intros (a' & x' & s' & ? & ? & ? & Hfield).
        exists a', x', s'. repeat split; try done.
        rewrite Hstate, decide_False; [done|]. intros [-> ->]. by apply Hslot.
      * intros (a' & x' & v' & ? & ? & ? & Hopt).
        exists a', x', v'. repeat split; try done.
        unfold group_option in *. by rewrite Hg.
  - intros (a & w1 & [-> Ha]%read_tensor_run & H)%bind_inv_Ok.
    apply bind_inv_Ok in H as (x & w1 & [-> Hx]%lift_run & H).
    apply bind_inv_Ok in H as (v & w1 & [-> Hv]%lift_run & H).
    apply set_group_option_run in H as (Hh & Ht & Hs & Hopt).
    repeat split; try done.
    + exists a, x, v. repeat split; try done.
      by rewrite Hopt, decide_True.
    + intros h [q n t' p'|i k tl dt] Hslot; simpl in *.
      * intros (a' & x' & s' & ? & ? & ? & Hfield).
        exists a', x', s'. repeat split; try done.
        unfold state_field in *. by rewrite Hs, Hh.
      * intros (a' & x' & v' & ? & ? & ? & Hopt').
        exists a', x', v'. repeat split; try done.
        rewrite Hopt, decide_False; [done|]. intros [-> ->]. by apply Hslot.
Qed.

Lemma restored_same (w w0 : world) (h : list ndarray) (cb : callback) :
  the_optimizer w0 = the_optimizer w → heap w0 = heap w →
  restored w h cb → restored w0 h cb.
Proof.
  intros Ho Hh. destruct cb; simpl; unfold state_field, group_option;
    by rewrite Ho, ?Hh.
Qed.

Lemma callback_loop (c : collected) (entries : list (string * loc))
    (w w' : world) :
  coherent c →
  for_each entries (callback_body c) w = (Ok (), w') →
  heap w' = heap w
  ∧ trace w'
    = trace w ++ (EvCallback <$> filter (λ k, is_Some (callbacks c !! k))
                                   (fst <$> entries))
  ∧ (∀ k cb, callbacks c !! k = Some cb →
       restored w (heap w) cb → restored w' (heap w) cb)
  ∧ (∀ k cb, k ∈ (fst <$> entries) → callbacks c !! k = Some cb →
       restored w' (heap w) cb).
Proof.
  intros Hcoh. revert w.
  induction entries as [|[key p] entries IH]; intros w.
  - intros [= <-]. rewrite app_nil_r. repeat split; try done.
    intros k cb Hk. by apply elem_of_nil in Hk.
  - unfold for_each. simpl.
    intros ([] & w1 & Hbody & Hrest)%bind_inv_Ok.
    apply IH in Hrest as (Hh & Ht & Hkeep & Hnew).
    assert (heap w1 = heap w
            ∧ trace w1
              = trace w ++ (EvCallback <$>
                              filter (λ k, is_Some (callbacks c !! k)) [key])
            ∧ (∀ k cb, callbacks c !! k = Some cb →
                 restored w (heap w) cb → restored w1 (heap w) cb)
            ∧ (∀ cb, callbacks c !! key = Some cb →
                 restored w1 (heap w) cb)) as (Hh1 & Ht1 & Hkeep1 & Hnew1).
    { rewrite filter_cons, filter_nil.
      destruct (callbacks c !! key) as [cb|] eqn:Hcb.
      - rewrite decide_True by done.
        apply bind_inv_Ok in Hbody as ([] & w0 & [= <-] & Hinv).
        apply invoke_run in Hinv as (Hh0 & Ht0 & Hres & Hother). simpl in *.
        repeat split; try done.
        + intros k cb' Hk Hcb'.
          destruct (decide (slot_of cb' = slot_of cb)) as [Heq|Hne].
          * by rewrite (Hcoh k key cb' cb Hk Hcb Heq).
          * apply Hother; [done|]. by eapply restored_same; [..|exact Hcb'].
        + by intros cb' [= <-].
      - rewrite decide_False by (by intros [? [=]]).
        injection Hbody as <-. rewrite app_nil_r.
        repeat split; first [done | by intros]. }
    rewrite Hh1 in *. repeat split.
    + done.
    + rewrite Ht, Ht1, <-app_assoc, <-fmap_app. do 2 f_equal.
      by rewrite <-(filter_app _ [key] (entries.*1)).
    + intros k cb Hk Hres. eapply Hkeep; [done|]. by eapply Hkeep1.
    + intros k cb Hk Hcb. apply (elem_of_cons _ k key) in Hk as [->|Hk].
      * eapply Hkeep; [done|]. by apply Hnew1.
      * by eapply Hnew.
Qed.

(** *** What the collection registers *)

(** Loop invariants, without and with the list of what has been visited. *)
Lemma for_fold_invariant {X S} (Q : X → Prop) (J : S → Prop)
    (body : S → X → M S) :
  (∀ s x w s' w', Q x → J s → body s x w = (Ok s', w') → J s') →
  ∀ l s w s' w',
    Forall Q l → J s → for_fold l body s w = (Ok s', w') → J s'.
Proof.
  intros Hstep. induction l as [|x l IH]; intros s w s' w' HQ HJ; simpl.
  - by intros [= <- <-].
  - intros (s1 & w1 & H1 & Hrest)%bind_inv_Ok.
    apply Forall_cons in HQ as [Hx HQ]. eapply IH; [done| |done]. eauto.
Qed.

Lemma for_fold_visiting {X S G} (g : X → list G) (Q : X → Prop)
    (J : list G → S → Prop) (body : S → X → M S) :
  (∀ V s x w s' w',
     Q x → NoDup (V ++ g x) → J V s → body s x w = (Ok s', w') →
     J (V ++ g x) s') →
  ∀ l V s w s' w',
    Forall Q l → NoDup (V ++ (l ≫= g)) → J V s →
    for_fold l body s w = (Ok s', w') → J (V ++ (l ≫= g)) s'.
Proof.
  intros Hstep. induction l as [|x l IH]; intros V s w s' w' HQ Hnd HJ.
  - intros [= <- <-]. simpl. by rewrite app_nil_r.
  - intros Hrun. rewrite bind_cons, app_assoc in Hnd |- *.
    simpl in Hrun. apply bind_inv_Ok in Hrun as (s1 & w1 & H1 & Hrest).
    apply Forall_cons in HQ as [Hx HQ].
    eapply IH; [done..| |done].
    eapply Hstep; [done| |done..]. by apply NoDup_app in Hnd as [? _].
Qed.

Lemma collecting_coherent (sd : state_dict_t) (V : list (pid * string))
    (c : collected) :
  collecting sd V c → coherent c.
Proof.
  intros (_ & Hreg & _ & Huniq) k1 k2 cb1 cb2 H1 H2 Hslot.
  destruct cb1 as [q1 n1 t1 p1|i1 o1 l1 d1], cb2 as [q2 n2 t2 p2|i2 o2 l2 d2];
    simpl in Hslot; try done.
  - injection Hslot as <- <-.
    pose proof (Huniq _ _ _ _ _ _ _ _ H1 H2) as <-. congruence.
  - injection Hslot as <- <-.
    destruct (Hreg _ _ H1) as [-> _]. destruct (Hreg _ _ H2) as [-> _].
    congruence.
Qed.

Lemma new_Tensor_run (x : pyval) (w w' : world) (p : loc) :
  new_Tensor x w = (Ok p, w') →
  the_optimizer w' = the_optimizer w ∧ trace w' = trace w.
Proof.
  unfold new_Tensor. intros (a & w1 & [-> _]%lift_run & H)%bind_inv_Ok.
  by injection H as <- <-.
Qed.

Lemma collect_option_collecting (sd : state_dict_t) (index : nat)
    (group : dict string packed_entry) (V : list (pid * string))
    (c c' : collected) (item : string * packed_entry) (w w' : world) :
  sd_param_groups sd !! index = Some group →
  item ∈ group →
  collecting sd V c →
  collect_option index c item w = (Ok c', w') →
  collecting sd V c'.
Proof.
  intros Hgroup Hitem (Hkeys & Hreg & Hvis & Huniq).
  destruct item as [option_key e]. unfold collect_option.
  destruct (String.eqb option_key "params"); [by intros [= <- <-]|].
  intros (p & w1 & _ & [= <- <-])%bind_inv_Ok. simpl.
  split; [|split; [|split]]; simpl.
  - intros k cb [[<- <-]|[Hne Hk]]%lookup_insert_Some;
      rewrite fmap_app, elem_of_app; [right; set_solver|left; eauto].
  - intros k cb [[<- <-]|[Hne Hk]]%lookup_insert_Some; [|eauto].
    simpl. split; [done|]. by exists group, e.
  - intros k pid_ name t q [[_ [=]]|[Hne Hk]]%lookup_insert_Some. eauto.
  - intros k1 k2 pid_ name t1 p1 t2 p2
      [[_ [=]]|[Hne1 Hk1]]%lookup_insert_Some
      [[_ [=]]|[Hne2 Hk2]]%lookup_insert_Some. eauto.
Qed.

Lemma collect_field_collecting (sd : state_dict_t) (pid_ : pid)
    (fields : param_state) (V : list (pid * string)) (c c' : collected)
    (item : string * field_value) (w w' : world) :
  dict_get (sd_state sd) pid_ = Some fields →
  item ∈ fields →
  NoDup (V ++ [(pid_, item.1)]) →
  collecting sd V c →
  collect_field pid_ c item w = (Ok c', w') →
  collecting sd (V ++ [(pid_, item.1)]) c'.
Proof.
  intros Hfields Hitem Hnd (Hkeys & Hreg & Hvis & Huniq).
  assert ((pid_, item.1) ∉ V) as Hfresh.
  { apply NoDup_app in Hnd as (_ & Hdisj & _). intros Hin.
    apply (Hdisj _ Hin). set_solver. }
  destruct item as [name [p|s]]; unfold collect_field; simpl in *.
  - intros [= <- <-]. simpl. split; [|split; [|split]]; simpl.
    + intros k cb Hk. rewrite fmap_app, elem_of_app. left. eauto.
    + done.
    + intros k q n t l Hk. rewrite elem_of_app. left. eauto.
    + done.
  - intros (p & w1 & _ & [= <- <-])%bind_inv_Ok. simpl.
    split; [|split; [|split]]; simpl.
    + intros k cb [[<- <-]|[Hne Hk]]%lookup_insert_Some;
        rewrite fmap_app, elem_of_app; [right; set_solver|left; eauto].
    + intros k cb [[<- <-]|[Hne Hk]]%lookup_insert_Some; [|eauto].
      simpl. split; [by eexists|]. by exists fields, s.
    + intros k q n t l [[_ [= <- <- _ _]]|[Hne Hk]]%lookup_insert_Some;
        rewrite elem_of_app; [right; set_solver|left; eauto].
    + intros k1 k2 q n t1 p1 t2 p2
        [[<- [= <- <- _ _]]|[Hne1 Hk1]]%lookup_insert_Some
        [[<- H2]|[Hne2 Hk2]]%lookup_insert_Some; try done.
      * destruct Hfresh. eauto.
      * injection H2 as <- <- _ _. destruct Hfresh. eauto.
      * eauto.
Qed.

Lemma collect_param_collecting (sd : state_dict_t) (V : list (pid * string))
    (c c' : collected) (pid_ : pid) (w w' : world) :
  NoDup (V ++ visited_of_id sd pid_) →
  collecting sd V c →
  collect_param sd c pid_ w = (Ok c', w') →
  collecting sd (V ++ visited_of_id sd pid_) c'.
Proof.
  unfold collect_param, visited_of_id.
  destruct (dict_get (sd_state sd) pid_) as [fields|] eqn:Hfields.
  - intros Hnd Hc.
    apply (for_fold_visiting (λ field, [(pid_, field.1)]) (λ item, item ∈ fields)
             (collecting sd)); [|by apply Forall_forall|done..].
    intros V' s x w0 s' w0' Hx Hnd' Hs. by eapply collect_field_collecting.
  - intros _ Hc [= <- <-]. by rewrite app_nil_r.
Qed.

Lemma collect_group_collecting (sd : state_dict_t) (V : list (pid * string))
    (c c' : collected) (item : nat * dict string packed_entry) (w w' : world) :
  sd_param_groups sd !! item.1 = Some item.2 →
  NoDup (V ++ visited_of_group sd item) →
  collecting sd V c →
  collect_group sd c item w = (Ok c', w') →
  collecting sd (V ++ visited_of_group sd item) c'.
Proof.
  destruct item as [index group]. unfold collect_group, visited_of_group.
  simpl. intros Hgroup Hnd Hc (c1 & w1 & Hopts & Hids)%bind_inv_Ok.
  assert (collecting sd V c1) as Hc1.
  { revert Hopts. apply (for_fold_invariant (λ item, item ∈ group));
      [|by apply Forall_forall|done].
    intros s x w0 s' w0' Hx Hs. by eapply collect_option_collecting. }
  destruct (dict_get group "params") as [[ids|v]|]; [|done..].
  revert Hids. apply (for_fold_visiting (visited_of_id sd) (λ _, True)
                        (collecting sd)); [|by apply Forall_forall|done..].
  intros V' s x w0 s' w0' _ Hnd' Hs. by apply collect_param_collecting.
Qed.

Lemma collect_collecting (sd : state_dict_t) (c : collected) (w w' : world) :
  NoDup (visited sd) →
  collect sd w = (Ok c, w') →
  collecting sd (visited sd) c.
Proof.
  unfold collect, visited. intros Hnd Hrun.
  assert (∀ V s x w0 s' w0',
            sd_param_groups sd !! x.1 = Some x.2 →
            NoDup (V ++ visited_of_group sd x) → collecting sd V s →
            collect_group sd s x w0 = (Ok s', w0') →
            collecting sd (V ++ visited_of_group sd x) s') as Hstep
    by (intros *; apply collect_group_collecting).
  eapply (for_fold_visiting _ _ _ _ Hstep _ []); [|done| |exact Hrun].
  - apply Forall_forall. intros [i g] Hin. unfold enumerate in Hin.
    apply elem_of_lookup_imap in Hin as (j & y & [= -> ->] & Hy). done.
  - repeat split; simpl; intros *; by rewrite lookup_empty.
Qed.

(** *** The theorems at work *)

Lemma lbfgs_is_rejected_before_anything_witness :
  let w := {| the_optimizer :=
                {| is_LBFGS := true; module_ := "torch.optim.lbfgs";
                   param_groups := param_groups Sample.sgd; state := [] |};
              heap := []; trace := [] |} in
  broadcast_optimizer_state Sample.no_update Sample.echo 0 w
  = (Err (ValueError "cannot broadcast torch.optim.LBFGS state"), w).
Proof.
  apply (lbfgs_is_rejected_before_anything Sample.no_update Sample.echo).
  reflexivity.
Defined.

Lemma empty_state_is_initialized_by_one_plain_step_witness :
  ∃ call rest,
    trace (broadcast_optimizer_state Sample.counting_update Sample.echo 0
             Sample.fresh_rank).2
    = trace Sample.fresh_rank
        ++ [EvStateDict]
        ++ grad_events (param_groups Sample.fresh_distributed ≫= group_params)
        ++ [EvStep call
              (with_param_groups Sample.fresh_distributed
                 (with_zero_grads (param_groups Sample.fresh_distributed)));
            EvStateDict]
        ++ rest
    ∧ Forall no_initialisation rest
    ∧ (module_ Sample.fresh_distributed = DistributedOptimizer_module →
       call = SuperStep)
    ∧ (module_ Sample.fresh_distributed ≠ DistributedOptimizer_module →
       call = OwnStep).
Proof.
  apply (empty_state_is_initialized_by_one_plain_step Sample.counting_update
           Sample.echo 0 Sample.fresh_rank); reflexivity.
Defined.

(** The freshly created optimizer of the distributed wrapper takes the
    parent class's step, once, after the zero gradient of its one
    parameter that requires gradients; the step counter the update rule
    creates is then broadcast. *)
Example fresh_distributed_optimizer_steps_once :
  trace (broadcast_optimizer_state Sample.counting_update Sample.echo 0
           Sample.fresh_rank).2
  = [ EvStateDict;
      EvSetGrad 101 (zeros [2%nat]);
      EvStep SuperStep
        (with_param_groups Sample.fresh_distributed
           (with_zero_grads (param_groups Sample.fresh_distributed)));
      EvStateDict;
      EvBroadcastAsync (Some "lr.0") 0%nat 0;
      EvBroadcastAsync (Some "step.1") 1%nat 0;
      EvSynchronize (Handle (Some "lr.0") 0%nat 0);
      EvSynchronize (Handle (Some "step.1") 1%nat 0);
      EvCallback "lr.0";
      EvCallback "step.1" ].
Proof. vm_compute. reflexivity. Qed.

(** C6, as the claim has it, fails: the transfer of the second momentum
    buffer fails after the first buffer, a tensor of the optimizer's state,
    has been overwritten with the root's. *)
Lemma failed_broadcast_leaves_a_tensor_overwritten :
  let r := broadcast_optimizer_state Sample.no_update Sample.failing_wire 0
             Sample.sgd_rank in
  r.1 = Err (HorovodInternalError "Broadcast failed")
  ∧ state_field Sample.sgd_rank 101 "momentum_buffer"
    = Some (inl (Array [Sample.elem 1; Sample.elem 2]))
  ∧ state_field r.2 101 "momentum_buffer"
    = Some (inl (Array [Sample.elem 7; Sample.elem 8]))
  ∧ state_field r.2 101 "momentum_buffer"
    ≠ state_field Sample.sgd_rank 101 "momentum_buffer".
Proof.
  split; [vm_compute; reflexivity|].
  split; [vm_compute; reflexivity|].
  split; [vm_compute; reflexivity|].
  vm_compute. intros [=].
Qed.

Lemma failed_broadcast_runs_no_callback_witness :
  let w := Sample.sgd_rank in
  let sd := pack Sample.sgd in
  let w0 := (prepare Sample.no_update w).2 in
  let w1 := (collect sd w0).2 in
  let c := match (collect sd w0).1 with
           | Ok c => c
           | Err _ => Collected [] ∅ ∅
           end in
  let w2 := (broadcast_parameters Sample.failing_wire
               (ParamsList (inl <$> params c)) 0 w1).2 in
  broadcast_optimizer_state Sample.no_update Sample.failing_wire 0 w
    = (Err (HorovodInternalError "Broadcast failed"), w2)
  ∧ the_optimizer w2 = the_optimizer w1
  ∧ ∃ evs, trace w2 = trace w1 ++ evs ∧ Forall no_callback evs.
Proof.
  intros w sd w0 w1 c w2.
  apply (failed_broadcast_runs_no_callback Sample.no_update
           Sample.failing_wire 0 w w0 w1 w2 sd c).
  - vm_compute; reflexivity.
  - vm_compute; reflexivity.
  - vm_compute. discriminate.
  - vm_compute; reflexivity.
  - vm_compute; reflexivity.
Defined.

(** C3 fails on an optimizer whose second group has an option named like a
    scalar field of the state: the first occurrence of the field and the
    option of group 1 get the key ["momentum.1"].  The option's callback
    takes the key, and the field of parameter 101 is never written: the
    root sends [0.75] for every scalar, parameter 102 ends with it,
    parameter 101 with the [0.5] it had. *)
Lemma option_key_collides_with_state_key :
  let cw := collect (pack Sample.adaptive) Sample.adaptive_rank in
  let r := broadcast_optimizer_state Sample.no_update
             Sample.root_sends_three_quarters 0 Sample.adaptive_rank in
  (λ c, fst <$> params c) <$> cw.1
    = Ok ["lr.0"; "momentum.0"; "momentum.1"; "lr.1"; "momentum.1";
          "momentum.2"]
  ∧ ¬ NoDup ["lr.0"; "momentum.0"; "momentum.1"; "lr.1"; "momentum.1";
             "momentum.2"]
  ∧ (λ c, callbacks c !! "momentum.1") <$> cw.1
    = Ok (Some (OptionCallback 1 "momentum" 4%nat (Scalar py_float)))
  ∧ r.1 = Ok ()
  ∧ state_field r.2 101 "momentum" = Some (inr (PyFloat Sample.half))
  ∧ state_field r.2 102 "momentum"
    = Some (inr (PyFloat Sample.three_quarters)).
Proof.
  split; [vm_compute; reflexivity|].
  split.
  { intros Hnd. apply NoDup_cons in Hnd as [_ Hnd].
    apply NoDup_cons in Hnd as [_ Hnd]. apply NoDup_cons in Hnd as [Hin _].
    apply Hin. set_solver. }
  split; [vm_compute; reflexivity|].
  split; [vm_compute; reflexivity|].
  split; vm_compute; reflexivity.
Qed.

Lemma adam_visits_no_pair_twice : NoDup (visited (pack Sample.adam)).
Proof. apply (bool_decide_unpack _). vm_compute. exact I. Qed.

(** An Adam-like optimizer (a step counter and a tensor for each of two
    parameters) on a rank that receives the root's [0.75] in every
    element. *)
Example adam_rank_after_the_broadcast :
  let r := broadcast_optimizer_state Sample.no_update Sample.root_sends_rows 0
             Sample.adam_rank in
  r.1 = Ok ()
  ∧ group_option r.2 0 "lr"
    = Some (PyScalar (PyFloat Sample.three_quarters))
  ∧ group_option r.2 0 "betas"
    = Some (PyTuple [PyScalar (PyFloat Sample.three_quarters);
                     PyScalar (PyFloat Sample.three_quarters)])
  ∧ group_option r.2 0 "amsgrad" = Some (PyScalar (PyBool true))
  ∧ state_field r.2 101 "step" = Some (inr (PyInt 0))
  ∧ state_field r.2 102 "step" = Some (inr (PyInt 0))
  ∧ state_field r.2 101 "exp_avg"
    = Some (inl (Array [Sample.elem_three_quarters])).
Proof. repeat split; vm_compute; reflexivity. Qed.

End OptimizerStateFacts.

(* ===================================================================== *)
(** * Part III: further properties                                        *)
(* ===================================================================== *)

(** ** The object exchange when the codec fails *)
Module ObjectExchangeOutcomes.
Import Collective ObjectExchange CollectiveFacts ObjectExchangeFacts.

(** A comprehension that loads a list of pickles ends with the first
    pickle the loader refuses. *)
Lemma mapM_load {Obj} (load : list byte → option Obj)
    (f : nat → prog Obj) (bs : list (list byte)) (s : nat) :
  (∀ i b, bs !! i = Some b → f (s + i)%nat = cloudpickle_load load b) →
  mapM f (seq s (length bs))
  = match mapM load bs with
    | Some os => Ret os
    | None => Raise UnpicklingError
    end.
Proof.
  revert s. induction bs as [|b bs IH]; intros s Hf; [done|].
  simpl. rewrite <-(Nat.add_0_r s) at 1. rewrite (Hf 0%nat b eq_refl).
  rewrite (IH (S s)).
  - unfold cloudpickle_load. destruct (load b) as [o|]; [|done]. simpl.
    by destruct (mapM load bs).
  - intros i b' Hi. rewrite <-(Hf (S i) b' Hi). f_equal. lia.
Qed.

Section Protocol.
Context {Obj : Type}.
Variable dump : Obj → list byte.
Variable load : list byte → option Obj.
Variable type_name : Obj → string.
Variable uninitialized : nat → byte.

(** X1. [broadcast_object] with any codec, on a group that enters the
    exchange on one name and whose root holds a pickle short enough for
    the 32-bit tensor that announces its length: the root returns its
    argument, and every other rank ends with what the loader makes of the
    root's pickle, the loaded object or the loader's error. The two
    broadcasts have completed on every rank by then, and a rank's own
    argument does not show in its result. *)
Theorem broadcast_object_outcomes (calls : list (Obj * option string))
    (root : nat) (obj : Obj) (name : option string) (fuel : nat) :
  calls !! root = Some (obj, name) →
  announceable dump obj →
  same_channel type_name calls →
  (2 ≤ fuel)%nat →
  run fuel (broadcast_object_group dump load type_name uninitialized
              (Z.of_nat root) calls)
  = Some (imap (λ i _, if decide (i = root) then Returned obj
                       else match load (dump obj) with
                            | Some o => Returned o
                            | None => Raised UnpicklingError
                            end) calls).
Proof.
  intros Hroot Hfit Hchan Hfuel.
  rewrite (broadcast_object_group_run dump load type_name uninitialized
             calls root obj name fuel Hroot Hfit Hchan Hfuel).
  f_equal. apply imap_ext. intros i c _. simpl.
  destruct (decide (i = root)); [done|].
  unfold cloudpickle_load. by destruct (load (dump obj)).
Qed.

(** X2. [allgather_object] with any codec, on a group that enters the
    exchange on one name and whose pickles are all short enough for the
    32-bit tensor that announces their lengths: every rank loads every
    pickle, so all ranks end alike, with the list of the loaded objects in
    rank order or, when the loader refuses one of the pickles, with its
    error. *)
Theorem allgather_object_outcomes (calls : list (Obj * option string))
    (fuel : nat) :
  Forall (λ c, announceable dump c.1) calls →
  same_channel type_name calls →
  (2 ≤ fuel)%nat →
  run fuel (allgather_object_group dump load type_name calls)
  = Some ((λ _, match mapM load (pickles dump calls) with
                | Some objs => Returned objs
                | None => Raised UnpicklingError
                end) <$> calls).
Proof.
  intros Hfit Hchan Hfuel.
  rewrite (allgather_object_group_run dump load type_name calls fuel
             Hfit Hchan Hfuel).
  f_equal. apply list_fmap_ext. intros _ _ _.
  replace (length calls) with (length (pickles dump calls))
    by (unfold pickles; apply length_fmap).
  rewrite (mapM_load load _ (pickles dump calls) 0).
  - by destruct (mapM load (pickles dump calls)).
  - intros i b Hi. simpl.
    unfold gathered_sizes. by rewrite (select_segment _ i b Hi).
Qed.

(** X18. A rank whose pickle has 2^31 bytes or more raises when it builds
    the tensor of the length, before its first collective call.  In
    [broadcast_object] with that rank as the root, every other rank is
    left waiting in the broadcast of the length; in [allgather_object],
    the ranks with shorter pickles are left waiting in the allgather of the
    sizes; however many steps are allowed. *)
Theorem long_pickle_outcomes (calls : list (Obj * option string))
    (rank : nat) (obj : Obj) (name : option string) (fuel : nat) :
  calls !! rank = Some (obj, name) →
  2 ^ 31 ≤ Z.of_nat (length (dump obj)) →
  run (S fuel) (broadcast_object_group dump load type_name uninitialized
                  (Z.of_nat rank) calls)
  = Some (imap (λ i _,
                  if decide (i = rank)
                  then Raised (RuntimeError
                         "value cannot be converted to type int32 without overflow")
                  else Hung) calls)
  ∧ run (S fuel) (allgather_object_group dump load type_name calls)
    = Some ((λ c, if decide (Z.of_nat (length (dump c.1)) < 2 ^ 31) then Hung
                  else Raised (RuntimeError
                         "value cannot be converted to type int32 without overflow"))
              <$> calls).
Proof.
  intros Hrank Hlong.
  assert (¬ announceable dump obj) as Hfit
    by (unfold announceable; lia).
  split.
  - by apply (broadcast_object_group_long_pickle dump load type_name
                uninitialized calls rank obj name).
  - by apply (allgather_object_group_long_pickle dump load type_name
                calls rank (obj, name)).
Qed.

End Protocol.

End ObjectExchangeOutcomes.

(** ** The types of a value that comes back from a tensor *)
Module TypeCastTypes.
Import TypeCast TypeCastFacts.

Lemma scalar_cast_type (t : scalar_type) (a : ndarray) (s : scalar) :
  scalar_cast t a = Ok s → type_of_scalar s = t.
Proof.
  unfold scalar_cast. intros (x & _ & Hs)%result_bind_Ok.
  destruct t; simpl in Hs.
  - apply result_fmap_Ok in Hs as (z & _ & ->). done.
  - by injection Hs as <-.
  - by injection Hs as <-.
Qed.

Lemma build_types (t : container_type) (items : list pyval) :
  _get_types (build t items) = Container t (_get_types <$> items).
Proof. by destruct t. Qed.

(** The sub-arrays of an array that has a shape have one shape. *)
Lemma shape_Array (items : list ndarray) (sh : list nat) :
  shape (Array items) = Some sh →
  ∃ s, sh = length items :: s ∧ Forall (λ item, shape item = Some s) items.
Proof.
  destruct items as [|first rest]; simpl.
  - intros [= <-]. by exists [].
  - destruct (shape first) as [s|] eqn:Hfirst; [|done].
    destruct (forallb _ rest) eqn:Hrest; [|done].
    intros [= <-]. exists s. split; [done|].
    constructor; [done|].
    apply Is_true_true, forallb_True in Hrest.
    eapply Forall_impl; [exact Hrest|].
    intros item Hitem. by apply bool_decide_unpack in Hitem.
Qed.

Lemma shape_Elem (a : ndarray) : shape a = Some [] → ∃ x, a = Elem x.
Proof.
  destruct a as [x|items]; [by eauto|].
  intros (s & [=] & _)%shape_Array.
Qed.

Lemma mapM_result_length {A B} (f : A → result B) (l : list A) (ys : list B) :
  mapM f l = Ok ys → length ys = length l.
Proof.
  revert ys. induction l as [|x l IH]; intros ys Hys.
  - simpl in Hys. by injection Hys as <-.
  - apply mapM_result_cons in Hys as (y & ys' & _ & Hys' & ->).
    simpl. by rewrite (IH ys').
Qed.

Lemma cast_items_keep_types (items : list pyval) :
  Forall (λ v0, ∀ a0 a s v,
            tensor_data v0 = Ok a0 → shape a0 = Some s → shape a = Some s →
            _recursive_cast a (_get_types v0) = Ok v →
            _get_types v = _get_types v0) items →
  ∀ x0 x s vs,
    mapM tensor_data items = Ok x0 →
    Forall (λ item, shape item = Some s) x0 →
    Forall (λ item, shape item = Some s) x →
    length x = length x0 →
    cast_items x (_get_types <$> items) = Ok vs →
    _get_types <$> vs = _get_types <$> items.
Proof.
  induction 1 as [|v0 items Hv0 _ IH]; intros x0 x s vs Hx0 Hs0 Hs Hlen Hvs.
  - simpl in Hx0. injection Hx0 as <-.
    destruct x; [|done]. simpl in Hvs. by injection Hvs as <-.
  - apply mapM_result_cons in Hx0 as (a0 & x0' & Ha0 & Hx0' & ->).
    destruct x as [|a x']; [done|].
    apply Forall_cons in Hs0 as [Hsa0 Hs0], Hs as [Hsa Hs].
    rewrite fmap_cons in Hvs. simpl in Hvs. fold cast_items in Hvs.
    apply result_bind_Ok in Hvs as (v & Hv & Hvs).
    apply result_bind_Ok in Hvs as (vs' & Hvs' & [= <-]).
    rewrite !fmap_cons. f_equal.
    + exact (Hv0 a0 a s v Ha0 Hsa0 Hsa Hv).
    + apply (IH x0' x' s vs' Hx0' Hs0 Hs); [|done].
      simpl in Hlen. lia.
Qed.

Lemma recursive_cast_types (v0 : pyval) :
  ∀ (a0 a : ndarray) (s : list nat) (v : pyval),
    tensor_data v0 = Ok a0 →
    shape a0 = Some s →
    shape a = Some s →
    _recursive_cast a (_get_types v0) = Ok v →
    _get_types v = _get_types v0.
Proof.
  assert (∀ t items,
            Forall (λ v0, ∀ a0 a s v,
              tensor_data v0 = Ok a0 → shape a0 = Some s → shape a = Some s →
              _recursive_cast a (_get_types v0) = Ok v →
              _get_types v = _get_types v0) items →
            ∀ a0 a s v,
              Array <$> mapM tensor_data items = Ok a0 →
              shape a0 = Some s → shape a = Some s →
              _recursive_cast a (Container t (_get_types <$> items)) = Ok v →
              _get_types v = Container t (_get_types <$> items)) as Hcontainer.
  { intros t items IH a0 a s v Ha0 Hs0 Hs Hv.
    apply result_fmap_Ok in Ha0 as (x0 & Hx0 & ->).
    apply shape_Array in Hs0 as (s' & -> & Hs0).
    destruct a as [x|x]; [done|].
    apply shape_Array in Hs as (s'' & [= Hlen <-] & Hs).
    rewrite _recursive_cast_container in Hv.
    apply result_fmap_Ok in Hv as (vs & Hvs & ->).
    rewrite build_types. f_equal.
    by apply (cast_items_keep_types items IH x0 x s' vs). }
  induction v0 as [s0|items IH|items IH] using pyval_nested_ind;
    intros a0 a s v Ha0 Hs0 Hs Hv.
  - simpl in Ha0. apply result_fmap_Ok in Ha0 as (x0 & _ & ->).
    simpl in Hs0. injection Hs0 as <-.
    apply shape_Elem in Hs as [x ->].
    simpl in Hv. apply result_fmap_Ok in Hv as (s' & Hs' & ->).
    simpl. f_equal. by apply scalar_cast_type in Hs'.
  - by apply (Hcontainer py_tuple items IH a0 a s v).
  - by apply (Hcontainer py_list items IH a0 a s v).
Qed.

Lemma flatten_shape (v : pyval) (a : ndarray) :
  flatten v = Ok a → ∃ s, shape a = Some s.
Proof.
  unfold flatten, torch_Tensor. simpl.
  destruct (tensor_data v) as [a'|e]; [|done]. simpl.
  destruct (shape a') as [s|] eqn:Hs; simpl; [|done].
  intros [= <-]. by exists s.
Qed.

(** X3. The types of an option survive the broadcast whatever the root sent:
    when the array that comes back has the shape of the array that went
    out, what [_recursive_cast] makes of it with the types recorded by
    [_get_types] has these types again, tuples and lists at every level
    and [int], [float] or [bool] at the leaves. *)
Theorem recursive_cast_keeps_types (v0 v : pyval) (a0 a : ndarray) :
  flatten v0 = Ok a0 →
  shape a = shape a0 →
  reconstruct a (_get_types v0) = Ok v →
  _get_types v = _get_types v0.
Proof.
  intros Ha0 Hshape Hv.
  destruct (flatten_shape v0 a0 Ha0) as [s Hs].
  apply flatten_tensor_data in Ha0.
  apply (recursive_cast_types v0 a0 a s v Ha0 Hs); [|done].
  by rewrite Hshape.
Qed.

Lemma scalar_cast_finite (t : scalar_type) (x : spec_float) :
  all_finite (Elem x) = true → ∃ s, scalar_cast t (Elem x) = Ok s.
Proof.
  intros Hx. unfold scalar_cast. simpl.
  destruct t; [|by eexists..].
  destruct x; try done; by eexists.
Qed.

Lemma cast_items_return (items : list pyval) :
  Forall (λ v0, ∀ a0 a s,
            tensor_data v0 = Ok a0 → shape a0 = Some s → shape a = Some s →
            all_finite a = true →
            ∃ v, _recursive_cast a (_get_types v0) = Ok v) items →
  ∀ x0 x s,
    mapM tensor_data items = Ok x0 →
    Forall (λ item, shape item = Some s) x0 →
    Forall (λ item, shape item = Some s) x →
    length x = length x0 →
    forallb all_finite x = true →
    ∃ vs, cast_items x (_get_types <$> items) = Ok vs.
Proof.
  induction 1 as [|v0 items Hv0 _ IH]; intros x0 x s Hx0 Hs0 Hs Hlen Hfin.
  - simpl in Hx0. injection Hx0 as <-.
    destruct x; [|done]. by exists [].
  - apply mapM_result_cons in Hx0 as (a0 & x0' & Ha0 & Hx0' & ->).
    destruct x as [|a x']; [done|].
    apply Forall_cons in Hs0 as [Hsa0 Hs0], Hs as [Hsa Hs].
    simpl in Hfin. apply andb_true_iff in Hfin as [Hfa Hfin].
    destruct (Hv0 a0 a s Ha0 Hsa0 Hsa Hfa) as [v Hv].
    destruct (IH x0' x' s Hx0' Hs0 Hs ltac:(simpl in Hlen; lia) Hfin)
      as [vs Hvs].
    exists (v :: vs). rewrite fmap_cons. simpl. fold cast_items.
    by rewrite Hv, Hvs.
Qed.

Lemma recursive_cast_return (v0 : pyval) :
  ∀ (a0 a : ndarray) (s : list nat),
    tensor_data v0 = Ok a0 →
    shape a0 = Some s →
    shape a = Some s →
    all_finite a = true →
    ∃ v, _recursive_cast a (_get_types v0) = Ok v.
Proof.
  assert (∀ t items,
            Forall (λ v0, ∀ a0 a s,
              tensor_data v0 = Ok a0 → shape a0 = Some s → shape a = Some s →
              all_finite a = true →
              ∃ v, _recursive_cast a (_get_types v0) = Ok v) items →
            ∀ a0 a s,
              Array <$> mapM tensor_data items = Ok a0 →
              shape a0 = Some s → shape a = Some s →
              all_finite a = true →
              ∃ v, _recursive_cast a (Container t (_get_types <$> items))
                   = Ok v) as Hcontainer.
  { intros t items IH a0 a s Ha0 Hs0 Hs Hfin.
    apply result_fmap_Ok in Ha0 as (x0 & Hx0 & ->).
    apply shape_Array in Hs0 as (s' & -> & Hs0).
    destruct a as [x|x]; [done|].
    apply shape_Array in Hs as (s'' & [= Hlen <-] & Hs).
    rewrite _recursive_cast_container. simpl in Hfin.
    destruct (cast_items_return items IH x0 x s' Hx0 Hs0 Hs (eq_sym Hlen) Hfin)
      as [vs ->].
    by eexists. }
  induction v0 as [s0|items IH|items IH] using pyval_nested_ind;
    intros a0 a s Ha0 Hs0 Hs Hfin.
  - simpl in Ha0. apply result_fmap_Ok in Ha0 as (x0 & _ & ->).
    simpl in Hs0. injection Hs0 as <-.
    apply shape_Elem in Hs as [x ->].
    destruct (scalar_cast_finite (type_of_scalar s0) x Hfin) as [s' Hs'].
    exists (PyScalar s'). simpl. by rewrite Hs'.
  - by apply (Hcontainer py_tuple items IH a0 a s).
  - by apply (Hcontainer py_list items IH a0 a s).
Qed.

(** X4. The option callback's cast returns whenever the array that comes back
    has the shape of the array that went out and holds neither an infinity
    nor a NaN: it can fail on nothing but such an element in the place of
    an [int]. *)
Theorem recursive_cast_returns_on_finite_arrays (v0 : pyval)
    (a0 a : ndarray) :
  flatten v0 = Ok a0 →
  shape a = shape a0 →
  all_finite a = true →
  ∃ v, reconstruct a (_get_types v0) = Ok v ∧ _get_types v = _get_types v0.
Proof.
  intros Ha0 Hshape Hfin.
  destruct (flatten_shape v0 a0 Ha0) as [s Hs].
  apply flatten_tensor_data in Ha0. rewrite Hs in Hshape.
  destruct (recursive_cast_return v0 a0 a s Ha0 Hs Hshape Hfin) as [v Hv].
  exists v. split; [done|].
  by apply (recursive_cast_types v0 a0 a s v).
Qed.

End TypeCastTypes.

(** ** Integers and booleans in binary32 elements *)
Module TypeCastExact.
Import TypeCast TypeCastFacts.

(** A mantissa that fills the precision is left as it is. *)
Lemma round_aux_canonical (prec emax : Z) (s : bool) (m : positive) (e : Z) :
  Z.pos (digits2_pos m) = prec →
  3 - emax - prec ≤ e → e ≤ emax - prec →
  binary_round_aux prec emax s (Z.pos m) e loc_Exact = S754_finite s m e.
Proof.
  intros Hd Hmin Hmax.
  unfold binary_round_aux, shr_fexp, fexp, emin, Zdigits2.
  replace ((Z.pos (digits2_pos m) + e - prec) `max` (3 - emax - prec) - e)
    with 0 by lia.
  simpl.
  replace ((Z.pos (digits2_pos m) + e - prec) `max` (3 - emax - prec) - e)
    with 0 by lia.
  simpl. by rewrite (proj2 (Z.leb_le _ _) Hmax).
Qed.

(** Appending [k] zero bits. *)
Lemma digits2_pos_shift (p k : positive) :
  digits2_pos (Pos.iter xO p k) = (digits2_pos p + k)%positive.
Proof.
  induction k as [|k IH] using Pos.peano_ind.
  - simpl. by rewrite Pos.add_1_r.
  - rewrite Pos.iter_succ. simpl. by rewrite IH, Pos.add_succ_r.
Qed.

Lemma Zpos_shift (p k : positive) :
  Z.pos (Pos.iter xO p k) = Z.pos p * 2 ^ Z.pos k.
Proof.
  induction k as [|k IH] using Pos.peano_ind.
  - simpl. lia.
  - rewrite Pos.iter_succ, Pos2Z.inj_succ, Z.pow_succ_r by lia.
    rewrite Pos2Z.inj_xO, IH. lia.
Qed.

(** A mantissa of 53 bits whose low 29 bits are zero is cut to 24 bits
    without rounding. *)
Lemma round_aux_24_of_53 (s : bool) (m : positive) (e : Z) :
  Z.pos (digits2_pos m) = 24 →
  -178 ≤ e → e ≤ 75 →
  binary_round_aux 24 128 s (Z.pos (Pos.iter xO m 29)) e loc_Exact
  = S754_finite s m (e + 29).
Proof.
  intros Hd Hmin Hmax.
  unfold binary_round_aux, shr_fexp, fexp, emin, Zdigits2.
  rewrite digits2_pos_shift.
  replace ((Z.pos (digits2_pos m + 29) + e - 24) `max` (3 - 128 - 24) - e)
    with 29 by lia.
  cbn.
  replace ((Z.pos (digits2_pos m) + (e + 29) - 24) `max` (3 - 128 - 24)
           - (e + 29)) with 0 by lia.
  cbn. by rewrite (proj2 (Z.leb_le (e + 29) (128 - 24))) by lia.
Qed.

Lemma shl_align_left (m : positive) (e : Z) (k : positive) :
  shl_align m e (e - Z.pos k) = (Pos.iter xO m k, e - Z.pos k).
Proof.
  unfold shl_align. replace (e - Z.pos k - e) with (Z.neg k) by lia. done.
Qed.

Lemma shl_align_none (m : positive) (e e' : Z) :
  e ≤ e' → shl_align m e e' = (m, e).
Proof.
  intros He. unfold shl_align. destruct (e' - e) eqn:Hd; [done..|lia].
Qed.

(** An integer of at most 24 bits as a double, and that double as a
    binary32 number. *)
Lemma float_of_small_int (s : bool) (p : positive) :
  (digits2_pos p < 24)%positive →
  to_binary32 (float_of_int (cond_Zopp s (Z.pos p)))
  = S754_finite s (Pos.iter xO p (24 - digits2_pos p)) 
      (Z.pos (digits2_pos p) - 24).
Proof.
  intros Hd. set (d := digits2_pos p) in *.
  assert (float_of_int (cond_Zopp s (Z.pos p))
          = S754_finite s (Pos.iter xO p (53 - d)) (Z.pos d - 53)) as ->.
  { unfold float_of_int, binary_normalize.
    assert (binary_round 53 1024 s p 0
            = S754_finite s (Pos.iter xO p (53 - d)) (Z.pos d - 53)) as <-.
    { unfold binary_round, fexp, emin. fold d.
      replace ((Z.pos d + 0 - 53) `max` (3 - 1024 - 53))
        with (0 - Z.pos (53 - d)) by lia.
      rewrite shl_align_left.
      replace (0 - Z.pos (53 - d)) with (Z.pos d - 53) by lia.
      apply round_aux_canonical; [|lia..].
      rewrite digits2_pos_shift. fold d. lia. }
    by destruct s. }
  unfold to_binary32, round_to.
  assert (∀ m e, binary_normalize 24 128 (cond_Zopp s (Z.pos m)) e s
                 = binary_round 24 128 s m e) as -> by (by destruct s).
  unfold binary_round, fexp, emin.
  rewrite digits2_pos_shift. fold d.
  rewrite shl_align_none by lia.
  replace (53 - d)%positive with (29 + (24 - d))%positive by lia.
  rewrite Pos.iter_add.
  rewrite round_aux_24_of_53; [f_equal; lia| |lia..].
  rewrite digits2_pos_shift. fold d. lia.
Qed.

Lemma float_of_24_bit_int (s : bool) (p : positive) :
  digits2_pos p = 24%positive →
  to_binary32 (float_of_int (cond_Zopp s (Z.pos p))) = S754_finite s p 0.
Proof.
  intros Hd.
  assert (float_of_int (cond_Zopp s (Z.pos p))
          = S754_finite s (Pos.iter xO p 29) (-29)) as ->.
  { unfold float_of_int, binary_normalize.
    assert (binary_round 53 1024 s p 0
            = S754_finite s (Pos.iter xO p 29) (-29)) as <-.
    { unfold binary_round, fexp, emin. rewrite Hd.
      change ((24 + 0 - 53) `max` (3 - 1024 - 53)) with (0 - 29).
      rewrite shl_align_left.
      apply round_aux_canonical; [|lia..].
      rewrite digits2_pos_shift, Hd. lia. }
    by destruct s. }
  unfold to_binary32, round_to.
  assert (∀ m e, binary_normalize 24 128 (cond_Zopp s (Z.pos m)) e s
                 = binary_round 24 128 s m e) as -> by (by destruct s).
  unfold binary_round, fexp, emin.
  rewrite digits2_pos_shift, Hd.
  rewrite shl_align_none by lia.
  rewrite round_aux_24_of_53; [done| |lia..].
  by rewrite Hd.
Qed.

Lemma digits2_pos_size (p : positive) : digits2_pos p = Pos.size p.
Proof. induction p as [p IH|p IH|]; simpl; by rewrite ?IH. Qed.

Lemma digits2_pos_bound (p : positive) :
  Z.pos p < 2 ^ 24 → (digits2_pos p ≤ 24)%positive.
Proof.
  intros Hp. rewrite digits2_pos_size.
  pose proof (Pos.size_le p) as Hle.
  destruct (decide (Pos.size p ≤ 24)%positive) as [|Hgt]; [done|].
  exfalso.
  assert (2 ^ 25 ≤ 2 ^ Z.pos (Pos.size p)) as Hpow
    by (apply Z.pow_le_mono_r; lia).
  assert (Z.pos (2 ^ Pos.size p) ≤ Z.pos p~0) as Hle'
    by (by apply Pos2Z.pos_le_pos).
  rewrite Pos2Z.inj_pow in Hle'. lia.
Qed.

(** The integer part of such a binary32 number is the integer. *)
Lemma small_int_survives (s : bool) (p : positive) :
  Z.pos p ≤ 2 ^ 24 →
  scalar_cast py_int
    (Elem (to_binary32 (float_of_int (cond_Zopp s (Z.pos p)))))
  = Ok (PyInt (cond_Zopp s (Z.pos p))).
Proof.
  intros Hp.
  destruct (decide (Z.pos p = 2 ^ 24)) as [Heq|Hne].
  { injection Heq as ->. by destruct s. }
  assert (digits2_pos p ≤ 24)%positive as Hd by (apply digits2_pos_bound; lia).
  destruct (decide (digits2_pos p = 24%positive)) as [H24|H24].
  { rewrite float_of_24_bit_int by done. done. }
  rewrite float_of_small_int by lia.
  unfold scalar_cast. simpl. do 2 f_equal. f_equal.
  rewrite Zpos_shift.
  replace (Z.pos (digits2_pos p) - 24)
    with (- Z.pos (24 - digits2_pos p)) by lia.
  rewrite Z.shiftl_opp_r, Z.shiftr_div_pow2 by lia.
  apply Z.div_mul. lia.
Qed.

(** X5. An [int] of magnitude at most 2^24 and a [bool] come back from a
    binary32 element as they went in: [t(torch.Tensor([x]).numpy()[0])] is
    [x] for them, for the step counters and flags of an optimizer. *)
Theorem small_integers_and_flags_survive :
  (∀ z, Z.abs z ≤ 2 ^ 24 → survives_binary32 (PyInt z))
  ∧ (∀ b, survives_binary32 (PyBool b)).
Proof.
  split.
  - intros z Hz. unfold survives_binary32, store_scalar.
    destruct (Z.ltb_spec (2 ^ 53) (Z.abs z)) as [Hbig|_]; [lia|].
    simpl. destruct z as [|p|p].
    + done.
    + apply (small_int_survives false p). lia.
    + apply (small_int_survives true p). lia.
  - by intros [].
Qed.
End TypeCastExact.


(** ** [broadcast_parameters] on its own *)
Module BroadcastParametersFacts.
Import TypeCast OptimizerState OptimizerStateFacts.

Section Rank.
Variable wire : option string → ndarray → result ndarray.

Local Abbreviation synchronize := (synchronize wire).
Local Abbreviation broadcast_parameters := (broadcast_parameters wire).

(** The first loop submits every pair and keeps the handles in order. *)
Lemma submit_loop (root_rank : Z) (entries : list (option string * loc))
    (handles : list handle) (w : world) :
  for_fold entries
    (λ handles '(name, p),
       handle ← broadcast_async_ p root_rank name;
       mret (handles ++ [handle])) handles w
  = (Ok (handles ++ ((λ '(name, p), Handle name p root_rank) <$> entries)),
     {| the_optimizer := the_optimizer w; heap := heap w;
        trace := trace w ++ submitted root_rank entries |}).
Proof.
  revert handles w. induction entries as [|[name p] entries IH];
    intros handles w.
  - simpl. rewrite !app_nil_r. by destruct w.
  - simpl. unfold mbind, M_bind, broadcast_async_, log. simpl.
    rewrite IH. simpl. unfold submitted. rewrite <-!app_assoc.
    done.
Qed.

(** What [synchronize] does to a rank: the wait is recorded; then the
    tensor of the handle, when there is one and the transport delivers,
    holds what was delivered. *)
Lemma synchronize_run (h : handle) (w : world) :
  synchronize h w
  = let w1 := {| the_optimizer := the_optimizer w; heap := heap w;
                 trace := trace w ++ [EvSynchronize h] |} in
    match heap w !! h_tensor h with
    | None => (Err (RuntimeError "no such tensor"), w1)
    | Some a =>
        match wire (h_name h) a with
        | Err e => (Err e, w1)
        | Ok received =>
            (Ok (), {| the_optimizer := the_optimizer w;
                       heap := <[h_tensor h := received]> (heap w);
                       trace := trace w ++ [EvSynchronize h] |})
        end
    end.
Proof.
  unfold OptimizerState.synchronize, read_tensor, write_tensor.
  unfold mbind, M_bind, log, get_heap, lift, put_heap. simpl.
  destruct (heap w !! h_tensor h) as [a|]; simpl; [|done].
  by destruct (wire (h_name h) a).
Qed.

Lemma synchronize_trace (h : handle) (w : world) :
  trace (synchronize h w).2 = trace w ++ [EvSynchronize h].
Proof.
  rewrite synchronize_run. simpl.
  destruct (heap w !! h_tensor h) as [a|]; [|done].
  by destruct (wire (h_name h) a).
Qed.

(** The second loop waits for the handles in order, up to the first one
    that fails. *)
Lemma wait_loop (handles : list handle) (w : world) :
  ∃ k, (k ≤ length handles)%nat
    ∧ trace (for_each handles synchronize w).2
      = trace w ++ take k (EvSynchronize <$> handles)
    ∧ ((for_each handles synchronize w).1 = Ok () → k = length handles).
Proof.
  revert w. induction handles as [|h handles IH]; intros w.
  - exists 0%nat. simpl. by rewrite app_nil_r.
  - unfold for_each. simpl. rewrite bind_run.
    pose proof (synchronize_trace h w) as Hh.
    destruct (synchronize h w) as [[[]|e] w1]; simpl in Hh.
    + destruct (IH w1) as (k & Hk & Ht & Hok). exists (S k).
      split; [simpl; lia|]. split.
      * unfold for_each in Ht. rewrite Ht, Hh, <-app_assoc. done.
      * intros Hr. simpl. f_equal. by apply Hok.
    + exists 1%nat. split; [simpl; lia|]. split; [|done].
      simpl. by rewrite take_0.
Qed.

(** X6. What a call of [broadcast_parameters] does. An argument that is
    neither a dictionary nor a list is refused with [ValueError] before
    anything happens. Otherwise every pair is submitted, in order, before
    the first wait; the handles are waited for in the order of submission;
    the call returns when all have been waited for, and a wait that raises
    ends the call, with the handles after it never waited for. *)
Theorem broadcasts_are_submitted_before_any_wait (params : params_arg)
    (root_rank : Z) (w : world) :
  match entries_of params with
  | None =>
      ∃ msg, broadcast_parameters params root_rank w = (Err (ValueError msg), w)
  | Some entries =>
      ∃ k, (k ≤ length entries)%nat
        ∧ trace (broadcast_parameters params root_rank w).2
          = trace w ++ submitted root_rank entries
              ++ take k (awaited root_rank entries)
        ∧ ((broadcast_parameters params root_rank w).1 = Ok () →
           k = length entries)
  end.
Proof.
  destruct params as [d|l|ty]; simpl; [| |by eexists].
  all: unfold OptimizerState.broadcast_parameters.
  all: match goal with
       | |- context [mret ?es ≫= _] =>
           set (entries := es);
           rewrite (bind_Ok _ _ w w entries) by done
       end.
  all: rewrite (bind_Ok _ _ _ _ _ (submit_loop root_rank entries [] w)).
  all: simpl.
  all: match goal with
       | |- context [for_each ?hs _ ?w1] =>
           destruct (wait_loop hs w1) as (k & Hk & Ht & Hok)
       end.
  all: exists k; rewrite length_fmap in Hk, Hok.
  all: split; [done|]; split; [|done].
  all: rewrite Ht; simpl; rewrite <-app_assoc; do 2 f_equal.
  all: unfold awaited; rewrite <-list_fmap_compose; f_equal.
  all: apply list_fmap_ext; by intros _ [name p] _.
Qed.

(** *** The tensors a call writes *)

Lemma wait_loop_frame (handles : list handle) (w : world) :
  let w' := (for_each handles synchronize w).2 in
  the_optimizer w' = the_optimizer w
  ∧ length (heap w') = length (heap w)
  ∧ ∀ q, q ∉ h_tensor <$> handles → heap w' !! q = heap w !! q.
Proof.
  revert w. induction handles as [|h handles IH]; intros w; [done|].
  unfold for_each. simpl. rewrite bind_run, synchronize_run. simpl.
  destruct (heap w !! h_tensor h) as [a|]; [|by simpl].
  destruct (wire (h_name h) a) as [received|e]; [|by simpl].
  match goal with
  | |- context [for_fold handles _ () ?w1] =>
      destruct (IH w1) as (Ho & Hlen & Hq)
  end.
  unfold for_each in Ho, Hlen, Hq. simpl in Ho, Hlen, Hq.
  split; [done|]. split.
  - by rewrite Hlen, length_insert.
  - intros q Hnot. rewrite not_elem_of_cons in Hnot.
    destruct Hnot as [Hne Hnot].
    rewrite (Hq q Hnot). by apply list_lookup_insert_ne.
Qed.

(** X7. A call of [broadcast_parameters] leaves the optimizer as it is, makes
    no tensor and drops none, and writes no tensor but those it was given. *)
Theorem broadcast_parameters_writes_only_its_tensors (params : params_arg)
    (root_rank : Z) (w : world) :
  let w' := (broadcast_parameters params root_rank w).2 in
  the_optimizer w' = the_optimizer w
  ∧ length (heap w') = length (heap w)
  ∧ ∀ q, q ∉ tensors_of params → heap w' !! q = heap w !! q.
Proof.
  destruct params as [d|l|ty]; [| |done].
  all: unfold OptimizerState.broadcast_parameters, tensors_of, entries_of.
  all: match goal with
       | |- context [mret ?es ≫= _] =>
           set (entries := es);
           rewrite (bind_Ok _ _ w w entries) by done
       end.
  all: rewrite (bind_Ok _ _ _ _ _ (submit_loop root_rank entries [] w)).
  all: simpl.
  all: match goal with
       | |- context [for_each ?hs _ ?w1] =>
           destruct (wait_loop_frame hs w1) as (Ho & Hlen & Hq)
       end.
  all: split; [done|]; split; [done|].
  all: intros q Hnot; apply Hq.
  all: rewrite <-list_fmap_compose.
  all: intros Hin; apply Hnot.
  all: apply list_elem_of_fmap in Hin as ([name p] & -> & Hin).
  all: apply list_elem_of_fmap; by exists (name, p).
Qed.

(** *** Dictionaries *)

Lemma sorted_items_sorted (d : dict string loc) :
  Sorted String.le (sorted_items d).*1.
Proof.
  unfold sorted_items.
  apply (Sorted_fmap fst (λ a b : string * loc, String.le a.1 b.1) String.le);
    [done|].
  apply Sorted_merge_sort. intros a b. apply (total String.le).
Qed.

Lemma NoDup_keys_value {V} (d : dict string V) (k : string) (v1 v2 : V) :
  NoDup d.*1 → (k, v1) ∈ d → (k, v2) ∈ d → v1 = v2.
Proof.
  induction d as [|[k' v'] d IH]; intros Hnd H1 H2.
  { by apply elem_of_nil in H1. }
  rewrite fmap_cons in Hnd. apply NoDup_cons in Hnd as [Hnot Hnd].
  apply elem_of_cons in H1 as [H1|H1], H2 as [H2|H2].
  - congruence.
  - injection H1 as -> ->. exfalso. apply Hnot.
    apply list_elem_of_fmap. by exists (k', v2).
  - injection H2 as -> ->. exfalso. apply Hnot.
    apply list_elem_of_fmap. by exists (k', v1).
  - by apply IH.
Qed.

Lemma sorted_items_permutation (d d' : dict string loc) :
  NoDup d.*1 → d ≡ₚ d' → sorted_items d' = sorted_items d.
Proof.
  intros Hnd Hperm. unfold sorted_items.
  set (R := λ a b : string * loc, String.le a.1 b.1).
  assert (Transitive R) as HR
    by (intros a b c; unfold R; apply (transitivity (R := String.le))).
  assert (Total R) as HT by (intros a b; apply (total String.le)).
  apply (Sorted_unique_strong R).
  - intros x1 x2 Hx1 Hx2 H12 H21.
    rewrite merge_sort_Permutation in Hx1, Hx2. rewrite <-Hperm in Hx1.
    destruct x1 as [k1 v1], x2 as [k2 v2]. unfold R in H12, H21.
    simpl in H12, H21.
    assert (k1 = k2) as -> by (by apply (anti_symm String.le)).
    f_equal. exact (NoDup_keys_value d k2 v1 v2 Hnd Hx1 Hx2).
  - by apply Sorted_merge_sort.
  - by apply Sorted_merge_sort.
  - by rewrite !merge_sort_Permutation.
Qed.

(** X8. A dictionary is broadcast in the order of its keys: the names go out
    in ascending order, and two ranks whose dictionaries hold the same
    items make the same call, in whatever order the items were put in. *)
Theorem dictionary_is_broadcast_in_key_order (d d' : dict string loc)
    (root_rank : Z) (w : world) :
  NoDup d.*1 →
  d ≡ₚ d' →
  Sorted String.le (sorted_items d).*1
  ∧ entries_of (ParamsDict d') = entries_of (ParamsDict d)
  ∧ broadcast_parameters (ParamsDict d') root_rank w
    = broadcast_parameters (ParamsDict d) root_rank w.
Proof.
  intros Hnd Hperm. split; [apply sorted_items_sorted|].
  unfold OptimizerState.broadcast_parameters, entries_of.
  by rewrite (sorted_items_permutation d d' Hnd Hperm).
Qed.

(** *** What the tensors hold afterwards *)

Lemma wait_loop_delivers (handles : list handle) (w w' : world) :
  NoDup (h_tensor <$> handles) →
  for_each handles synchronize w = (Ok (), w') →
  ∀ h, h ∈ handles →
    ∃ a received, heap w !! h_tensor h = Some a
      ∧ wire (h_name h) a = Ok received
      ∧ heap w' !! h_tensor h = Some received.
Proof.
  revert w. induction handles as [|h0 handles IH]; intros w Hnd Hrun h Hh.
  { by apply elem_of_nil in Hh. }
  rewrite fmap_cons in Hnd. apply NoDup_cons in Hnd as [Hfresh Hnd].
  unfold for_each in Hrun. simpl in Hrun.
  apply bind_inv_Ok in Hrun as ([] & w1 & H0 & Hrest).
  rewrite synchronize_run in H0. simpl in H0.
  destruct (heap w !! h_tensor h0) as [a0|] eqn:Ha0; [|done].
  destruct (wire (h_name h0) a0) as [r0|e] eqn:Hr0; [|done].
  injection H0 as <-.
  apply elem_of_cons in Hh as [->|Hh].
  - exists a0, r0. split; [done|]. split; [done|].
    pose proof (wait_loop_frame handles
                  {| the_optimizer := the_optimizer w;
                     heap := <[h_tensor h0 := r0]> (heap w);
                     trace := trace w ++ [EvSynchronize h0] |})
      as (_ & _ & Hq).
    unfold for_each in Hq. rewrite Hrest in Hq. simpl in Hq.
    rewrite (Hq _ Hfresh). apply list_lookup_insert_eq.
    by eapply lookup_lt_Some.
  - destruct (IH _ Hnd Hrest h Hh) as (a & r & Ha & Hr & Hw').
    exists a, r. split; [|done]. simpl in Ha.
    rewrite list_lookup_insert_ne in Ha; [done|].
    intros Heq. apply Hfresh. rewrite Heq. by apply list_elem_of_fmap_2.
Qed.

(** X9. A call that returns has updated every tensor it was given in place:
    each one holds what the transport delivered for its name and its
    contents at the time of the call. *)
Theorem broadcast_parameters_delivers (params : params_arg) (root_rank : Z)
    (entries : list (option string * loc)) (w w' : world) :
  entries_of params = Some entries →
  NoDup entries.*2 →
  broadcast_parameters params root_rank w = (Ok (), w') →
  ∀ name p, (name, p) ∈ entries →
    ∃ a received, heap w !! p = Some a
      ∧ wire name a = Ok received
      ∧ heap w' !! p = Some received.
Proof.
  intros Hentries Hnd Hrun name p Hin.
  assert (for_each ((λ '(name, p), Handle name p root_rank) <$> entries)
            synchronize
            {| the_optimizer := the_optimizer w; heap := heap w;
               trace := trace w ++ submitted root_rank entries |}
          = (Ok (), w')) as Hwait.
  { destruct params as [d|l|ty]; [| |done].
    all: injection Hentries as <-.
    all: unfold OptimizerState.broadcast_parameters in Hrun.
    all: match type of Hrun with
         | context [mret ?es ≫= _] =>
             rewrite (bind_Ok _ _ w w es) in Hrun by done;
             rewrite (bind_Ok _ _ _ _ _ (submit_loop root_rank es [] w))
               in Hrun
         end.
    all: exact Hrun. }
  assert (h_tensor <$> ((λ '(name, p), Handle name p root_rank) <$> entries)
          = entries.*2) as Hlocs.
  { rewrite <-list_fmap_compose. apply list_fmap_ext. by intros _ [n q] _. }
  destruct (wait_loop_delivers _ _ _ ltac:(by rewrite Hlocs) Hwait
              (Handle name p root_rank)) as (a & r & Ha & Hr & Hw').
  { apply list_elem_of_fmap. by exists (name, p). }
  by exists a, r.
Qed.

End Rank.
End BroadcastParametersFacts.

(** ** The keys of the batch *)
Module KeyFacts.
Import TypeCast OptimizerState OptimizerStateFacts.

(** *** ['%s.%d'] is injective: the digits hold no dot *)

Lemma pretty_N_char_no_dot (x : N) : pretty_N_char x ≠ "."%char.
Proof. unfold pretty_N_char. by repeat case_match. Qed.

Lemma pretty_N_go_no_dot (x : N) (s : string) :
  has_dot s = false → has_dot (pretty_N_go x s) = false.
Proof.
  revert s. induction (N.lt_wf_0 x) as [x _ IH]; intros s Hs.
  destruct (decide (x = 0)%N) as [->|].
  { by rewrite pretty_N_go_0. }
  rewrite pretty_N_go_step by lia.
  apply IH; [by apply N.div_lt; lia|].
  simpl. rewrite Hs, orb_false_r.
  apply bool_decide_eq_false, pretty_N_char_no_dot.
Qed.

Lemma pretty_nat_no_dot (n : nat) : has_dot (pretty n) = false.
Proof.
  unfold pretty, pretty_nat, pretty, pretty_N.
  case_decide; [done|]. by apply pretty_N_go_no_dot.
Qed.

Lemma dot_splits (s1 s2 d1 d2 : string) :
  has_dot d1 = false → has_dot d2 = false →
  s1 +:+ String "."%char d1 = s2 +:+ String "."%char d2 → s1 = s2 ∧ d1 = d2.
Proof.
  intros H1 H2. revert s2.
  assert (∀ s d, has_dot (s +:+ String "."%char d) = true) as Hdot.
  { intros s d. induction s as [|c s IH]; simpl; [done|].
    rewrite IH. apply orb_true_r. }
  induction s1 as [|c s1 IH]; intros [|c' s2] Heq; simpl in Heq.
  - by simplify_eq.
  - simplify_eq. by rewrite Hdot in H1.
  - simplify_eq. by rewrite Hdot in H2.
  - simplify_eq. edestruct IH as [-> ->]; [eassumption|done].
Qed.

(** A key names one name and one number. *)
Lemma format_key_inj (name1 name2 : string) (n1 n2 : nat) :
  format_key name1 n1 = format_key name2 n2 → name1 = name2 ∧ n1 = n2.
Proof.
  unfold format_key. intros Heq.
  apply (dot_splits name1 name2 (pretty n1) (pretty n2)) in Heq as [-> Heq];
    [|apply pretty_nat_no_dot..].
  split; [done|]. by apply (inj pretty).
Qed.

(** *** The keys the collection gives out *)

Lemma dict_get_elem_of {K V} `{EqDecision K} (d : dict K V) (k : K) (v : V) :
  dict_get d k = Some v → (k, v) ∈ d.
Proof.
  induction d as [|[k' v'] d IH]; simpl; [done|].
  case_decide as Hk.
  - intros [= <-]. subst. by left.
  - intros Hd. right. by apply IH.
Qed.

Lemma keyed_mono (sd : state_dict_t) (V V' : list (nat * string))
    (c : collected) :
  V ⊆ V' → keyed sd V c → keyed sd V' c.
Proof.
  intros Hsub [Hnd Hkeys]. split; [done|].
  intros key Hkey. destruct (Hkeys key Hkey) as [(i & k & Hin & Hk & ->)|H].
  - left. exists i, k. eauto.
  - by right.
Qed.

Section Distinct.
Variable sd : state_dict_t.
Hypothesis names_apart : Forall (λ k, k ∉ field_names sd) (option_names sd).

Lemma collect_option_keyed (index : nat) (group : dict string packed_entry)
    (V : list (nat * string)) (c c' : collected)
    (item : string * packed_entry) (w w' : world) :
  group ∈ sd_param_groups sd →
  item ∈ group →
  NoDup (V ++ [(index, item.1)]) →
  keyed sd V c →
  collect_option index c item w = (Ok c', w') →
  keyed sd (V ++ [(index, item.1)]) c'.
Proof.
  intros Hgroup Hitem Hnd Hc.
  destruct item as [option_key e]. unfold collect_option. simpl in *.
  destruct (String.eqb option_key "params") eqn:Hparams.
  { intros [= <- <-]. eapply keyed_mono; [|done].
    intros x Hx. apply elem_of_app. by left. }
  apply String.eqb_neq in Hparams.
  intros (p & w1 & _ & [= <- <-])%bind_inv_Ok.
  assert (option_key ∈ option_names sd) as Hname.
  { unfold option_names. apply list_elem_of_bind. exists group.
    split; [|done]. apply list_elem_of_filter. split; [done|].
    apply list_elem_of_fmap. by exists (option_key, e). }
  destruct Hc as [Hnd' Hkeys]. split; simpl.
  - rewrite fmap_app. apply NoDup_app. split; [done|]. split; [|apply NoDup_singleton].
    intros key Hkey ->%list_elem_of_singleton.
    destruct (Hkeys _ Hkey) as [(i & k & Hin & _ & Heq)|(name & n & Hf & _ & Heq)].
    + apply format_key_inj in Heq as [-> ->].
      apply NoDup_app in Hnd as (_ & Hdisj & _).
      apply (Hdisj _ Hin). by left.
    + apply format_key_inj in Heq as [-> _].
      rewrite Forall_forall in names_apart. by apply (names_apart name).
  - intros key. rewrite fmap_app, elem_of_app.
    intros [Hkey| ->%list_elem_of_singleton].
    + destruct (Hkeys _ Hkey) as [(i & k & Hin & Hk & ->)|H]; [|by right].
      left. exists i, k. split; [apply elem_of_app; by left|done].
    + left. exists index, option_key.
      split; [apply elem_of_app; right; by left|done].
Qed.

Lemma collect_field_keyed (pid_ : pid) (fields : param_state)
    (V : list (nat * string)) (c c' : collected)
    (item : string * field_value) (w w' : world) :
  dict_get (sd_state sd) pid_ = Some fields →
  item ∈ fields →
  keyed sd V c →
  collect_field pid_ c item w = (Ok c', w') →
  keyed sd V c'.
Proof.
  intros Hfields Hitem [Hnd Hkeys].
  destruct item as [name p].
  assert (name ∈ field_names sd) as Hname.
  { unfold field_names. apply list_elem_of_bind. exists (pid_, fields).
    split; [|by apply dict_get_elem_of].
    apply list_elem_of_fmap. by exists (name, p). }
  assert (∀ c',
            params c'
            = params c
                ++ [(format_key name (S (default 0%nat (occurrences c !! name))),
                     (params c').*2 !!! length (params c))] →
            occurrences c'
            = <[name := S (default 0%nat (occurrences c !! name))]>
                (occurrences c) →
            keyed sd V c') as Hstep.
  { remember (default 0%nat (occurrences c !! name)) as n0 eqn:Hn0.
    intros c1 Hp Ho. split.
    - rewrite Hp, fmap_app. apply NoDup_app. split; [done|].
      split; [|apply NoDup_singleton].
      intros key Hkey ->%list_elem_of_singleton.
      destruct (Hkeys _ Hkey)
        as [(i & k & _ & Hk & Heq)|(name' & n & _ & Hn & Heq)].
      + apply format_key_inj in Heq as [Heq _]. subst k.
        rewrite Forall_forall in names_apart. by apply (names_apart name).
      + apply format_key_inj in Heq as [Heq1 Heq2]. subst name' n. lia.
    - intros key. rewrite Hp, fmap_app, elem_of_app, Ho.
      intros [Hkey| ->%list_elem_of_singleton].
      + destruct (Hkeys _ Hkey) as [H|(name' & n & Hf & Hn & ->)]; [by left|].
        right. exists name', n. split; [done|]. split; [|done].
        destruct (decide (name = name')) as [<-|Hne].
        * rewrite lookup_insert_eq. simpl. lia.
        * by rewrite lookup_insert_ne.
      + right. exists name, (S n0). split; [done|]. split; [|done].
        rewrite lookup_insert_eq. simpl. lia. }
  unfold collect_field. rewrite lookup_insert_eq. simpl.
  destruct p as [p|s].
  - intros [= <- <-]. apply Hstep; simpl; [|done].
    rewrite fmap_app, lookup_total_app_r by (by rewrite length_fmap).
    by rewrite length_fmap, Nat.sub_diag.
  - intros (p & w1 & _ & [= <- <-])%bind_inv_Ok. apply Hstep; simpl; [|done].
    rewrite fmap_app, lookup_total_app_r by (by rewrite length_fmap).
    by rewrite length_fmap, Nat.sub_diag.
Qed.

Lemma collect_param_keyed (V : list (nat * string)) (c c' : collected)
    (pid_ : pid) (w w' : world) :
  keyed sd V c →
  collect_param sd c pid_ w = (Ok c', w') →
  keyed sd V c'.
Proof.
  unfold collect_param.
  destruct (dict_get (sd_state sd) pid_) as [fields|] eqn:Hfields.
  - intros Hc. apply (for_fold_invariant (λ item, item ∈ fields));
      [|by apply Forall_forall|done].
    intros s x w0 s' w0' Hx Hs. by eapply collect_field_keyed.
  - by intros Hc [= <- <-].
Qed.

Lemma collect_group_keyed (V : list (nat * string)) (c c' : collected)
    (item : nat * dict string packed_entry) (w w' : world) :
  item.2 ∈ sd_param_groups sd →
  NoDup (V ++ entries_of_group item) →
  keyed sd V c →
  collect_group sd c item w = (Ok c', w') →
  keyed sd (V ++ entries_of_group item) c'.
Proof.
  destruct item as [index group]. unfold collect_group, entries_of_group.
  simpl. intros Hgroup Hnd Hc (c1 & w1 & Hopts & Hids)%bind_inv_Ok.
  assert (keyed sd (V ++ (group ≫= λ entry, [(index, entry.1)])) c1) as Hc1.
  { revert Hopts.
    apply (for_fold_visiting (λ entry, [(index, entry.1)])
             (λ entry, entry ∈ group) (keyed sd));
      [|by apply Forall_forall|done..].
    intros V' s x w0 s' w0' Hx Hnd' Hs.
    by apply (collect_option_keyed index group). }
  destruct (dict_get group "params") as [[ids|v]|]; [|done..].
  revert Hids. apply (for_fold_invariant (λ _, True));
    [|by apply Forall_forall|done].
  intros s x w0 s' w0' _ Hs. by apply collect_param_keyed.
Qed.

End Distinct.

Lemma entries_of_groups_NoDup (groups : list (dict string packed_entry)) :
  Forall (λ group, NoDup group.*1) groups →
  NoDup (enumerate groups ≫= entries_of_group).
Proof.
  intros Hgroups. rewrite Forall_forall in Hgroups. unfold enumerate.
  apply NoDup_bind.
  - intros [i1 g1] [i2 g2] [i k]
      (j1 & y1 & [= -> ->] & H1)%elem_of_lookup_imap
      (j2 & y2 & [= -> ->] & H2)%elem_of_lookup_imap.
    unfold entries_of_group. simpl.
    intros (e1 & [= -> _]%list_elem_of_singleton & _)%list_elem_of_bind
           (e2 & [= -> _]%list_elem_of_singleton & _)%list_elem_of_bind.
    congruence.
  - intros [i g] (j & y & [= -> ->] & Hy)%elem_of_lookup_imap.
    unfold entries_of_group. simpl.
    assert (y ≫= (λ entry, [(j, entry.1)]) = pair j <$> y.*1) as ->.
    { clear. induction y as [|e y IH]; [done|]. csimpl. by rewrite IH. }
    apply NoDup_fmap_2; [|apply Hgroups; by eapply list_elem_of_lookup_2].
    by intros k1 k2 [= ->].
  - apply NoDup_alt. intros i1 i2 [i g] H1 H2.
    rewrite list_lookup_imap in H1, H2.
    destruct (groups !! i1) eqn:E1, (groups !! i2) eqn:E2; simplify_eq/=.
    done.
Qed.

(** X10. C3 within its bounds. When the options of the groups carry other
    names than the state fields do, the keys of the batch are distinct:
    the collection gives every option of every group and every state field
    of every parameter a key of its own. *)
Theorem distinct_names_give_distinct_keys (sd : state_dict_t)
    (c : collected) (w w' : world) :
  Forall (λ group, NoDup group.*1) (sd_param_groups sd) →
  Forall (λ k, k ∉ field_names sd) (option_names sd) →
  collect sd w = (Ok c, w') →
  NoDup (params c).*1.
Proof.
  intros Hgroups Hnames Hrun. unfold collect in Hrun.
  assert (keyed sd ([] ++ (enumerate (sd_param_groups sd) ≫= entries_of_group))
            c) as [Hnd _]; [|done].
  revert Hrun.
  apply (for_fold_visiting entries_of_group
           (λ item, item.2 ∈ sd_param_groups sd) (keyed sd)).
  - intros V s x w0 s' w0' Hx Hnd Hs. by apply collect_group_keyed.
  - apply Forall_forall. intros [i g] Hin. unfold enumerate in Hin.
    apply elem_of_lookup_imap in Hin as (j & y & [= -> ->] & Hy).
    by eapply list_elem_of_lookup_2.
  - simpl. by apply entries_of_groups_NoDup.
  - split; simpl; [apply NoDup_nil_2|]. intros key Hkey.
    by apply elem_of_nil in Hkey.
Qed.

End KeyFacts.

(** ** The phases of [broadcast_optimizer_state] *)
Module OptimizerStatePhases.
Import TypeCast OptimizerState OptimizerStateFacts.

Global Instance only_allocates_refl : Reflexive only_allocates.
Proof. by intros w. Qed.

Global Instance only_allocates_trans : Transitive only_allocates.
Proof.
  intros w1 w2 w3 (Ho1 & Ht1 & Hh1) (Ho2 & Ht2 & Hh2).
  split; [congruence|]. split; [congruence|]. by etrans.
Qed.

Lemma new_Tensor_only_allocates (x : pyval) :
  across only_allocates (new_Tensor x).
Proof.
  intros w. unfold new_Tensor, alloc. rewrite bind_run. unfold lift.
  destruct (torch_Tensor x) as [a|e]; [|done]. simpl.
  split; [done|]. split; [done|]. by apply prefix_app_r.
Qed.

(** The collection writes nothing: what it wraps goes into new tensors. *)
Lemma collect_only_allocates (sd : state_dict_t) :
  across only_allocates (collect sd).
Proof.
  unfold collect, collect_group, collect_param, collect_field, collect_option.
  repeat first [ apply new_Tensor_only_allocates | across_step ].
Qed.

Section Rank.
Variable update_rule :
  step_call → optimizer → list ndarray → optimizer * list ndarray.
Variable wire : option string → ndarray → result ndarray.

Local Abbreviation broadcast_optimizer_state :=
  (broadcast_optimizer_state update_rule wire).
Local Abbreviation prepare := (prepare update_rule).
Local Abbreviation step := (step update_rule).

(** X11. A value that cannot be wrapped in a tensor ends the call before any
    broadcast is submitted: the call raises what the collection raised,
    and the rank is as the initialisation left it but for the tensors the
    collection had made by then. *)
Theorem wrapping_error_precedes_every_broadcast (root_rank : Z)
    (w w0 w1 : world) (sd : state_dict_t) (e : exn) :
  is_LBFGS (the_optimizer w) = false →
  prepare w = (Ok sd, w0) →
  sd_state sd ≠ [] →
  collect sd w0 = (Err e, w1) →
  broadcast_optimizer_state root_rank w = (Err e, w1)
  ∧ only_allocates w0 w1.
Proof.
  intros Hlbfgs Hprep Hsd Hcollect. split.
  - rewrite (broadcast_optimizer_state_phases update_rule wire root_rank w w0 sd)
      by done.
    by rewrite (bind_Err _ _ _ _ _ Hcollect).
  - pose proof (collect_only_allocates sd w0) as H. by rewrite Hcollect in H.
Qed.

(** X12. An optimizer that has state is taken as it is: the call reads the
    state once and then only collects, broadcasts and runs callbacks; no
    gradient is assigned and no step is taken. *)
Theorem initialized_optimizer_is_not_stepped (root_rank : Z) (w : world) :
  is_LBFGS (the_optimizer w) = false →
  state (the_optimizer w) ≠ [] →
  prepare w
  = (Ok (pack (the_optimizer w)),
     {| the_optimizer := the_optimizer w; heap := heap w;
        trace := trace w ++ [EvStateDict] |})
  ∧ ∃ rest,
      trace (broadcast_optimizer_state root_rank w).2
      = trace w ++ [EvStateDict] ++ rest
      ∧ Forall no_initialisation rest.
Proof.
  intros Hlbfgs Hstate.
  set (w1 := {| the_optimizer := the_optimizer w; heap := heap w;
                trace := trace w ++ [EvStateDict] |}).
  assert (prepare w = (Ok (pack (the_optimizer w)), w1)) as Hprep.
  { unfold OptimizerState.prepare.
    rewrite (bind_Ok _ _ w w1 (pack (the_optimizer w))) by done.
    unfold initialize_state. rewrite bool_decide_eq_false_2; [done|].
    simpl. by destruct (state (the_optimizer w)). }
  split; [done|].
  rewrite (broadcast_optimizer_state_phases update_rule wire root_rank w w1
             (pack (the_optimizer w))) by done.
  pose proof (state_broadcast_adds wire root_rank (pack (the_optimizer w)) w1)
    as (rest & Hrest & HP).
  rewrite bool_decide_eq_false_2 in Hrest
    by (simpl; by destruct (state (the_optimizer w))).
  exists rest. split; [|done]. rewrite Hrest. simpl. by rewrite <-app_assoc.
Qed.

Lemma step_eval (call : step_call) (w : world) :
  step call w
  = (Ok (),
     {| the_optimizer := (update_rule call (the_optimizer w) (heap w)).1;
        heap := (update_rule call (the_optimizer w) (heap w)).2;
        trace := trace w ++ [EvStep call (the_optimizer w)] |}).
Proof.
  unfold OptimizerState.step, mbind, M_bind, get_optimizer, log, get_heap.
  simpl. by destruct (update_rule _ _ _) as [o' h'].
Qed.

(** X13. An optimizer whose step on zero gradients creates no state (plain
    SGD): the call assigns the zero gradients, takes the one step, finds
    the state still empty and returns; it makes no collective call and
    runs no callback. The gradients and the step stay done. *)
Theorem stateless_optimizer_makes_no_collective_call (root_rank : Z)
    (w : world) :
  is_LBFGS (the_optimizer w) = false →
  state (the_optimizer w) = [] →
  (∀ call,
     state (update_rule call
              (with_param_groups (the_optimizer w)
                 (with_zero_grads (param_groups (the_optimizer w))))
              (heap w)).1 = []) →
  ∃ call evs,
    (broadcast_optimizer_state root_rank w).1 = Ok ()
    ∧ trace (broadcast_optimizer_state root_rank w).2 = trace w ++ evs
    ∧ evs = [EvStateDict]
            ++ grad_events (param_groups (the_optimizer w) ≫= group_params)
            ++ [EvStep call
                  (with_param_groups (the_optimizer w)
                     (with_zero_grads (param_groups (the_optimizer w))));
                EvStateDict]
    ∧ Forall no_collective evs.
Proof.
  intros Hlbfgs Hstate Hstateless.
  set (o := the_optimizer w) in *.
  set (call := if String.eqb (module_ o) DistributedOptimizer_module
               then SuperStep else OwnStep).
  set (w1 := {| the_optimizer := o; heap := heap w;
                trace := trace w ++ [EvStateDict] |}).
  destruct (zero_grad_groups (pack o) (param_groups o) [] w1)
    as (w2 & H2 & Ho2 & Hh2 & Ht2); [done..|].
  pose proof (step_eval call w2) as H3.
  set (w3 := {| the_optimizer := (update_rule call (the_optimizer w2) (heap w2)).1;
                heap := (update_rule call (the_optimizer w2) (heap w2)).2;
                trace := trace w2 ++ [EvStep call (the_optimizer w2)] |}) in H3.
  set (w4 := {| the_optimizer := the_optimizer w3; heap := heap w3;
                trace := trace w3 ++ [EvStateDict] |}).
  assert (broadcast_optimizer_state root_rank w = (Ok (), w4)) as ->.
  { unfold OptimizerState.broadcast_optimizer_state.
    rewrite (bind_Ok _ _ w w o) by done. rewrite Hlbfgs.
    rewrite (bind_Ok _ _ w w1 (pack o)) by done.
    rewrite (bind_Ok _ _ w1 w4 (pack (the_optimizer w3))).
    - rewrite bool_decide_eq_true_2; [done|].
      simpl. rewrite Ho2, Hh2. simpl. by rewrite Hstateless.
    - unfold OptimizerState.initialize_state.
      rewrite bool_decide_eq_true_2 by (simpl; fold o; by rewrite Hstate).
      rewrite (bind_Ok _ _ w1 w1 o) by done.
      rewrite (bind_Ok _ _ w1 w2 ()) by exact H2.
      assert ((if String.eqb (module_ o) DistributedOptimizer_module
               then step SuperStep else step OwnStep) = step call) as ->
        by (unfold call; by destruct (String.eqb _ _)).
      rewrite (bind_Ok _ _ w2 w3 ()) by exact H3.
      done. }
  exists call. eexists. split; [done|]. split; [|split; [done|]].
  - simpl. rewrite Ht2, Ho2. unfold w1. simpl. rewrite <-!app_assoc. done.
  - apply Forall_app. split; [by repeat constructor|].
    apply Forall_app. split; [|by repeat constructor].
    unfold grad_events. apply Forall_fmap, Forall_forall. by intros p _.
Qed.

Lemma callbacks_trace (c : collected) (entries : list (string * loc))
    (w w' : world) :
  for_each entries (callback_body c) w = (Ok (), w') →
  trace w'
  = trace w ++ (EvCallback <$> filter (λ k, is_Some (callbacks c !! k))
                                 entries.*1).
Proof.
  revert w. induction entries as [|[key p] entries IH]; intros w.
  - intros [= <-]. by rewrite app_nil_r.
  - unfold for_each. simpl.
    intros ([] & w1 & Hbody & Hrest)%bind_inv_Ok.
    apply IH in Hrest as ->. rewrite filter_cons.
    destruct (callbacks c !! key) as [cb|] eqn:Hcb.
    + rewrite decide_True by done.
      apply bind_inv_Ok in Hbody as ([] & w0 & [= <-] & Hinv).
      apply invoke_run in Hinv as (_ & -> & _). simpl.
      by rewrite <-app_assoc.
    + rewrite decide_False by (by intros [? [=]]).
      by injection Hbody as <-.
Qed.

(** X14. A call that returns has gone over the batch three times, each time in
    the order of the keys: every tensor of the batch is submitted under
    its key, then every one is waited for, then the callbacks of the keys
    that have one are run. The collection before that left no event. *)
Theorem successful_call_goes_over_the_batch_three_times (root_rank : Z)
    (w w0 w1 w3 : world) (sd : state_dict_t) (c : collected) :
  is_LBFGS (the_optimizer w) = false →
  prepare w = (Ok sd, w0) →
  sd_state sd ≠ [] →
  collect sd w0 = (Ok c, w1) →
  broadcast_optimizer_state root_rank w = (Ok (), w3) →
  trace w3
  = trace w0
      ++ submitted root_rank ((λ '(key, p), (Some key, p)) <$> params c)
      ++ awaited root_rank ((λ '(key, p), (Some key, p)) <$> params c)
      ++ (EvCallback <$> filter (λ k, is_Some (callbacks c !! k))
                           (params c).*1).
Proof.
  intros Hlbfgs Hprep Hsd Hcollect Hrun.
  rewrite (broadcast_optimizer_state_phases update_rule wire root_rank w w0 sd)
    in Hrun by done.
  rewrite (bind_Ok _ _ _ _ _ Hcollect) in Hrun.
  apply bind_inv_Ok in Hrun as ([] & w2 & Hbroadcast & Hcallbacks).
  unfold OptimizerState.run_callbacks in Hcallbacks.
  rewrite (callbacks_trace c _ _ _ Hcallbacks).
  pose proof (collect_only_allocates sd w0) as (_ & Htrace & _).
  rewrite Hcollect in Htrace. simpl in Htrace. rewrite <-Htrace.
  rewrite !app_assoc. f_equal. rewrite <-app_assoc.
  set (entries := (λ '(key, p), (Some key, p)) <$> params c).
  unfold OptimizerState.broadcast_parameters in Hbroadcast.
  rewrite (bind_Ok _ _ w1 w1 entries) in Hbroadcast.
  2: { unfold entries. rewrite <-list_fmap_compose. by f_equal. }
  rewrite (bind_Ok _ _ _ _ _
             (BroadcastParametersFacts.submit_loop root_rank entries [] w1))
    in Hbroadcast.
  simpl in Hbroadcast.
  match type of Hbroadcast with
  | for_each ?hs _ ?w' = _ =>
      destruct (BroadcastParametersFacts.wait_loop wire hs w')
        as (k & _ & Ht & Hok)
  end.
  rewrite Hbroadcast in Ht, Hok. simpl in Ht, Hok.
  rewrite Ht, (Hok eq_refl), take_ge by (by rewrite length_fmap). simpl.
  rewrite <-app_assoc. do 2 f_equal. unfold awaited.
  rewrite <-list_fmap_compose.
  apply list_fmap_ext. by intros _ [name p] _.
Qed.

Lemma callbacks_heap (c : collected) (entries : list (string * loc))
    (w w' : world) :
  for_each entries (callback_body c) w = (Ok (), w') → heap w' = heap w.
Proof.
  revert w. induction entries as [|[key p] entries IH]; intros w.
  - by intros [= <-].
  - unfold for_each. simpl.
    intros ([] & w1 & Hbody & Hrest)%bind_inv_Ok.
    apply IH in Hrest as ->.
    destruct (callbacks c !! key) as [cb|].
    + apply bind_inv_Ok in Hbody as ([] & w0 & [= <-] & Hinv).
      by apply invoke_run in Hinv as (-> & _).
    + by injection Hbody as <-.
Qed.

(** X15. What the tensors hold after a call that returns, when no tensor is in
    the batch twice: every tensor of the batch, the optimizer's own state
    tensors among them, holds what the broadcast delivered under its key
    for the contents it had when the batch was complete; the callbacks
    write no tensor, and no tensor outside the batch is touched. *)
Theorem batch_tensors_hold_what_was_delivered (root_rank : Z)
    (w w0 w1 w3 : world) (sd : state_dict_t) (c : collected) :
  is_LBFGS (the_optimizer w) = false →
  prepare w = (Ok sd, w0) →
  sd_state sd ≠ [] →
  collect sd w0 = (Ok c, w1) →
  NoDup (params c).*2 →
  broadcast_optimizer_state root_rank w = (Ok (), w3) →
  (∀ key p, (key, p) ∈ params c →
     ∃ a received, heap w1 !! p = Some a
       ∧ wire (Some key) a = Ok received
       ∧ heap w3 !! p = Some received)
  ∧ (∀ q, q ∉ (params c).*2 → heap w3 !! q = heap w1 !! q)
  ∧ length (heap w3) = length (heap w1).
Proof.
  intros Hlbfgs Hprep Hsd Hcollect Hnd Hrun.
  rewrite (broadcast_optimizer_state_phases update_rule wire root_rank w w0 sd)
    in Hrun by done.
  rewrite (bind_Ok _ _ _ _ _ Hcollect) in Hrun.
  apply bind_inv_Ok in Hrun as ([] & w2 & Hbroadcast & Hcallbacks).
  unfold OptimizerState.run_callbacks in Hcallbacks.
  rewrite (callbacks_heap c _ _ _ Hcallbacks).
  set (entries := (λ '(key, p), (Some key, p)) <$> params c).
  set (handles := (λ '(name, p), Handle name p root_rank) <$> entries).
  set (w1' := {| the_optimizer := the_optimizer w1; heap := heap w1;
                 trace := trace w1 ++ submitted root_rank entries |}).
  assert (for_each handles (synchronize wire) w1' = (Ok (), w2)) as Hwait.
  { unfold OptimizerState.broadcast_parameters in Hbroadcast.
    rewrite (bind_Ok _ _ w1 w1 entries) in Hbroadcast.
    2: { unfold entries. rewrite <-list_fmap_compose. by f_equal. }
    by rewrite (bind_Ok _ _ _ _ _
                  (BroadcastParametersFacts.submit_loop root_rank entries [] w1))
      in Hbroadcast. }
  assert (h_tensor <$> handles = (params c).*2) as Hlocs.
  { unfold handles, entries. rewrite <-!list_fmap_compose.
    apply list_fmap_ext. by intros _ [key p] _. }
  split; [|split].
  - intros key p Hin.
    destruct (BroadcastParametersFacts.wait_loop_delivers wire handles w1' w2
                ltac:(by rewrite Hlocs) Hwait (Handle (Some key) p root_rank))
      as (a & r & Ha & Hr & Hw2).
    { unfold handles, entries. rewrite <-list_fmap_compose.
      apply list_elem_of_fmap. by exists (key, p). }
    by exists a, r.
  - intros q Hq.
    pose proof (BroadcastParametersFacts.wait_loop_frame wire handles w1')
      as (_ & _ & Hframe).
    rewrite Hwait in Hframe. simpl in Hframe. apply Hframe. by rewrite Hlocs.
  - pose proof (BroadcastParametersFacts.wait_loop_frame wire handles w1')
      as (_ & Hlen & _).
    by rewrite Hwait in Hlen.
Qed.

End Rank.
End OptimizerStatePhases.

(** ** The keys as a function of the names *)
Module KeyOrder.
Import TypeCast OptimizerState OptimizerStateFacts.

Lemma dict_get_fmap {K V W} `{EqDecision K} (f : V → W) (d : dict K V)
    (k : K) :
  dict_get ((λ '(k, v), (k, f v)) <$> d) k = f <$> dict_get d k.
Proof.
  induction d as [|[k' v] d IH]; [done|].
  rewrite fmap_cons. simpl. by case_decide.
Qed.

(** The key functions, one step at a time. *)
Lemma field_keys_cons (name : string) (rest : list string)
    (occ : gmap string nat) :
  let n := S (default 0%nat (occ !! name)) in
  field_keys (name :: rest) occ
  = (format_key name n :: (field_keys rest (<[name := n]> occ)).1,
     (field_keys rest (<[name := n]> occ)).2).
Proof. simpl. by destruct (field_keys rest _). Qed.

Lemma param_keys_cons (fields : dict pid (list string)) (pid_ : pid)
    (rest : list pid) (occ : gmap string nat) :
  param_keys fields (pid_ :: rest) occ
  = match dict_get fields pid_ with
    | None => param_keys fields rest occ
    | Some names =>
        ((field_keys names occ).1
           ++ (param_keys fields rest (field_keys names occ).2).1,
         (param_keys fields rest (field_keys names occ).2).2)
    end.
Proof.
  simpl. destruct (dict_get fields pid_) as [names|]; [|done].
  destruct (field_keys names occ) as [keys occ1]. simpl.
  by destruct (param_keys fields rest occ1).
Qed.

Lemma group_keys_params (fields : dict pid (list string))
    (item : nat * dict string (option (list pid))) (ids : list pid)
    (occ : gmap string nat) :
  dict_get item.2 "params" = Some (Some ids) →
  group_keys fields item occ
  = (option_keys item.1 item.2.*1 ++ (param_keys fields ids occ).1,
     (param_keys fields ids occ).2).
Proof.
  intros Hids. unfold group_keys. rewrite Hids.
  by destruct (param_keys fields ids occ).
Qed.

Lemma groups_keys_cons (fields : dict pid (list string))
    (item : nat * dict string (option (list pid)))
    (rest : list (nat * dict string (option (list pid))))
    (occ : gmap string nat) :
  groups_keys fields (item :: rest) occ
  = ((group_keys fields item occ).1
       ++ (groups_keys fields rest (group_keys fields item occ).2).1,
     (groups_keys fields rest (group_keys fields item occ).2).2).
Proof.
  simpl. destruct (group_keys fields item occ) as [keys occ1]. simpl.
  by destruct (groups_keys fields rest occ1).
Qed.

Lemma collect_fields_keys_exact (pid_ : pid) (fields : param_state)
    (c c' : collected) (w w' : world) :
  for_fold fields (collect_field pid_) c w = (Ok c', w') →
  (params c').*1
  = (params c).*1 ++ (field_keys fields.*1 (occurrences c)).1
  ∧ occurrences c' = (field_keys fields.*1 (occurrences c)).2.
Proof.
  revert c w. induction fields as [|[name p] fields IH]; intros c w.
  - intros [= <- <-]. simpl. by rewrite app_nil_r.
  - simpl for_fold. intros (c1 & w1 & Hfield & Hrest)%bind_inv_Ok.
    apply IH in Hrest as [Hkeys Hocc].
    assert ((params c1).*1
            = (params c).*1
                ++ [format_key name (S (default 0%nat (occurrences c !! name)))]
            ∧ occurrences c1
              = <[name := S (default 0%nat (occurrences c !! name))]>
                  (occurrences c)) as [Hp1 Ho1].
    { unfold collect_field in Hfield. rewrite lookup_insert_eq in Hfield.
      simpl in Hfield. destruct p as [p|s].
      - injection Hfield as <- <-. simpl. by rewrite fmap_app.
      - apply bind_inv_Ok in Hfield as (p & w0 & _ & [= <- <-]). simpl.
        by rewrite fmap_app. }
    clear Hfield. rewrite Ho1 in Hkeys, Hocc. rewrite Hp1 in Hkeys.
    rewrite fmap_cons, field_keys_cons. cbv zeta. simpl fst. simpl snd.
    by rewrite Hkeys, Hocc, <-app_assoc.
Qed.

Lemma collect_params_keys_exact (sd : state_dict_t) (ids : list pid)
    (c c' : collected) (w w' : world) :
  for_fold ids (collect_param sd) c w = (Ok c', w') →
  (params c').*1
  = (params c).*1
      ++ (param_keys (sk_fields (skeleton sd)) ids (occurrences c)).1
  ∧ occurrences c'
    = (param_keys (sk_fields (skeleton sd)) ids (occurrences c)).2.
Proof.
  revert c w. induction ids as [|pid_ ids IH]; intros c w.
  - intros [= <- <-]. simpl. by rewrite app_nil_r.
  - simpl for_fold. intros (c1 & w1 & Hparam & Hrest)%bind_inv_Ok.
    apply IH in Hrest as [Hkeys Hocc].
    rewrite param_keys_cons. unfold skeleton at 1 4. simpl sk_fields.
    rewrite (dict_get_fmap (λ fields : param_state, fields.*1)).
    unfold collect_param in Hparam.
    destruct (dict_get (sd_state sd) pid_) as [fields|].
    + apply collect_fields_keys_exact in Hparam as [Hp1 Ho1].
      rewrite Ho1 in Hkeys, Hocc. rewrite Hp1 in Hkeys.
      simpl. by rewrite Hkeys, Hocc, <-app_assoc.
    + injection Hparam as <- <-. done.
Qed.

Lemma collect_options_keys_exact (index : nat)
    (items : dict string packed_entry) (c c' : collected) (w w' : world) :
  for_fold items (collect_option index) c w = (Ok c', w') →
  (params c').*1 = (params c).*1 ++ option_keys index items.*1
  ∧ occurrences c' = occurrences c.
Proof.
  revert c w. induction items as [|[k e] items IH]; intros c w.
  - intros [= <- <-]. unfold option_keys. simpl. by rewrite app_nil_r.
  - simpl for_fold. intros (c1 & w1 & Hoption & Hrest)%bind_inv_Ok.
    apply IH in Hrest as [Hkeys Hocc].
    unfold option_keys in *. rewrite fmap_cons, filter_cons. simpl fst.
    unfold collect_option in Hoption.
    destruct (String.eqb k "params") eqn:Hk.
    + apply String.eqb_eq in Hk as ->. injection Hoption as <- <-.
      by rewrite decide_False by (by intros H; apply H).
    + apply String.eqb_neq in Hk. rewrite decide_True by done.
      apply bind_inv_Ok in Hoption as (p & w0 & _ & [= <- <-]).
      simpl in Hkeys, Hocc.
      rewrite Hkeys, Hocc, fmap_app, fmap_cons, <-app_assoc. done.
Qed.

Lemma collect_group_keys_exact (sd : state_dict_t)
    (item : nat * dict string packed_entry) (c c' : collected)
    (w w' : world) :
  collect_group sd c item w = (Ok c', w') →
  let item' := (item.1, group_names item.2) in
  (params c').*1
  = (params c).*1
      ++ (group_keys (sk_fields (skeleton sd)) item' (occurrences c)).1
  ∧ occurrences c'
    = (group_keys (sk_fields (skeleton sd)) item' (occurrences c)).2.
Proof.
  destruct item as [index group]. unfold collect_group. cbv zeta. simpl fst.
  simpl snd.
  intros (c1 & w1 & Hopts & Hids)%bind_inv_Ok.
  apply collect_options_keys_exact in Hopts as [Hp1 Ho1].
  destruct (dict_get group "params") as [[ids|v]|] eqn:Hparams; [|done..].
  apply collect_params_keys_exact in Hids as [Hp2 Ho2].
  rewrite (group_keys_params _ _ ids).
  2: { simpl. unfold group_names. rewrite (dict_get_fmap entry_ids).
       by rewrite Hparams. }
  simpl fst. simpl snd.
  assert ((group_names group).*1 = group.*1) as ->.
  { unfold group_names. rewrite <-list_fmap_compose.
    apply list_fmap_ext. by intros _ [k e] _. }
  rewrite Ho1 in Hp2, Ho2. rewrite Hp1 in Hp2.
  by rewrite Hp2, Ho2, <-app_assoc.
Qed.

Lemma collect_groups_keys_exact (sd : state_dict_t)
    (items : list (nat * dict string packed_entry)) (c c' : collected)
    (w w' : world) :
  for_fold items (collect_group sd) c w = (Ok c', w') →
  (params c').*1
  = (params c).*1
      ++ (groups_keys (sk_fields (skeleton sd))
            (prod_map id group_names <$> items)
            (occurrences c)).1
  ∧ occurrences c'
    = (groups_keys (sk_fields (skeleton sd))
         (prod_map id group_names <$> items)
         (occurrences c)).2.
Proof.
  revert c w. induction items as [|item items IH]; intros c w.
  - intros [= <- <-]. simpl. by rewrite app_nil_r.
  - simpl for_fold. intros (c1 & w1 & Hgroup & Hrest)%bind_inv_Ok.
    apply IH in Hrest as [Hkeys Hocc].
    apply collect_group_keys_exact in Hgroup as [Hp1 Ho1].
    rewrite fmap_cons, groups_keys_cons. destruct item as [index group].
    simpl in Hp1, Ho1. simpl prod_map.
    rewrite Ho1 in Hkeys, Hocc. rewrite Hp1 in Hkeys.
    by rewrite Hkeys, Hocc, <-app_assoc.
Qed.

(** The keys of a batch are those the names call for. *)
Lemma collect_keys (sd : state_dict_t) (c : collected) (w w' : world) :
  collect sd w = (Ok c, w') → (params c).*1 = batch_keys (skeleton sd).
Proof.
  unfold collect. intros [Hkeys _]%collect_groups_keys_exact.
  rewrite Hkeys. unfold batch_keys. simpl. do 2 f_equal.
  unfold enumerate. rewrite imap_fmap, fmap_imap. done.
Qed.

(** X16. The keys of the batch, and their order, are decided by the names
    in the state dictionary alone.  They are, group after group, the
    options of the group under their name and the index of the group, then
    the fields of the group's parameters that have state under their name
    and the running count of that name; so two ranks whose optimizers have
    the same groups with the same option names and parameter ids, and the
    same field names for the same parameters, submit the same keys in the
    same order, whatever the values of the options and of the state are. *)
Theorem keys_depend_on_names_alone (sd1 sd2 : state_dict_t)
    (c1 c2 : collected) (w1 w1' w2 w2' : world) :
  skeleton sd1 = skeleton sd2 →
  collect sd1 w1 = (Ok c1, w1') →
  collect sd2 w2 = (Ok c2, w2') →
  (params c1).*1 = batch_keys (skeleton sd1)
  ∧ (params c2).*1 = (params c1).*1.
Proof.
  intros Hnames H1%collect_keys H2%collect_keys. by rewrite H1, H2, Hnames.
Qed.

End KeyOrder.

(** ** What the callbacks restore *)
Module OptimizerStateRestore.
Import TypeCast OptimizerState TypeCastFacts OptimizerStateFacts TypeCastTypes.

(** *** Every entry of the batch is accounted for *)

Lemma new_Tensor_alloc (x : pyval) (w w' : world) (p : loc) :
  new_Tensor x w = (Ok p, w') →
  ∃ a, torch_Tensor x = Ok a ∧ p = length (heap w)
       ∧ heap w' = heap w ++ [a].
Proof.
  unfold new_Tensor. intros (a & w1 & [-> Ha]%lift_run & H)%bind_inv_Ok.
  exists a. by injection H as <- <-.
Qed.

Lemma accounted_grows (sd : state_dict_t) (h : list ndarray) (a : ndarray)
    (key : string) (p : loc) (cbo : option callback) :
  accounted sd h key p cbo → accounted sd (h ++ [a]) key p cbo.
Proof.
  intros [Ho|[Hs|Ht]].
  - left. destruct Ho as (index & group & option_key & e & a' & ? & ? & ?
                          & ? & Hp & ?).
    exists index, group, option_key, e, a'. repeat split; try done.
    by apply lookup_app_l_Some.
  - right; left.
    destruct Hs as (pid_ & fields & name & s & n & a' & ? & ? & ? & ? & Hp & ?).
    exists pid_, fields, name, s, n, a'. repeat split; try done.
    by apply lookup_app_l_Some.
  - by right; right.
Qed.

Lemma for_fold_invariant_world {X S} (Q : X → Prop) (J : S → world → Prop)
    (body : S → X → M S) :
  (∀ s x w s' w', Q x → J s w → body s x w = (Ok s', w') → J s' w') →
  ∀ l s w s' w',
    Forall Q l → J s w → for_fold l body s w = (Ok s', w') → J s' w'.
Proof.
  intros Hstep. induction l as [|x l IH]; intros s w s' w' HQ HJ; simpl.
  - by intros [= <- <-].
  - intros (s1 & w1 & H1 & Hrest)%bind_inv_Ok.
    apply Forall_cons in HQ as [Hx HQ]. eapply IH; [done| |done]. eauto.
Qed.

Lemma collect_option_wrapping (sd : state_dict_t) (index : nat)
    (group : dict string packed_entry) (c c' : collected)
    (item : string * packed_entry) (w w' : world) :
  sd_param_groups sd !! index = Some group →
  item ∈ group →
  wrapping sd c w →
  collect_option index c item w = (Ok c', w') →
  wrapping sd c' w'.
Proof.
  intros Hgroup Hitem [Hkeys Hacc].
  destruct item as [option_key e]. unfold collect_option.
  destruct (String.eqb option_key "params"); [by intros [= <- <-]|].
  intros (p & w1 & Hnew & [= <- <-])%bind_inv_Ok.
  apply new_Tensor_alloc in Hnew as (a & Ha & -> & Hheap).
  split; simpl.
  - intros k cb [[<- <-]|[Hne Hk]]%lookup_insert_Some;
      rewrite fmap_app, elem_of_app; [right|left; eauto].
    simpl. apply list_elem_of_singleton. done.
  - rewrite fmap_app. intros (Hnd & Hfresh & _)%NoDup_app key p.
    rewrite Hheap. intros [Hin|Hin%list_elem_of_singleton]%elem_of_app.
    + assert (format_key option_key index ≠ key) as Hne.
      { intros <-. apply (Hfresh (format_key option_key index)).
        - by apply (list_elem_of_fmap_2 fst _ _ Hin).
        - simpl. by apply list_elem_of_singleton. }
      rewrite lookup_insert_ne by done.
      by apply accounted_grows, Hacc.
    + injection Hin as -> ->. rewrite lookup_insert_eq. left.
      exists index, group, option_key, e, a. repeat split; try done.
      by apply list_lookup_middle.
Qed.

Lemma collect_field_wrapping (sd : state_dict_t) (pid_ : pid)
    (fields : param_state) (c c' : collected)
    (item : string * field_value) (w w' : world) :
  dict_get (sd_state sd) pid_ = Some fields →
  item ∈ fields →
  wrapping sd c w →
  collect_field pid_ c item w = (Ok c', w') →
  wrapping sd c' w'.
Proof.
  intros Hfields Hitem [Hkeys Hacc].
  destruct item as [name [q|s]]; unfold collect_field.
  - intros [= <- <-]. split; simpl.
    + intros k cb Hk. rewrite fmap_app, elem_of_app. left. eauto.
    + rewrite fmap_app. intros (Hnd & Hfresh & _)%NoDup_app key p.
      intros [Hin|Hin%list_elem_of_singleton]%elem_of_app; [by apply Hacc|].
      injection Hin as -> ->. right; right.
      eexists pid_, fields, name, _. repeat split; try done.
      destruct (callbacks c !! _) as [cb|] eqn:Hcb; [|done].
      destruct (Hfresh _ (Hkeys _ _ Hcb)). simpl.
      by apply list_elem_of_singleton.
  - intros (p & w1 & Hnew & [= <- <-])%bind_inv_Ok.
    apply new_Tensor_alloc in Hnew as (a & Ha & -> & Hheap).
    split; simpl.
    + intros k cb [[<- <-]|[Hne Hk]]%lookup_insert_Some;
        rewrite fmap_app, elem_of_app; [right|left; eauto].
      simpl. apply list_elem_of_singleton. done.
    + rewrite fmap_app. intros (Hnd & Hfresh & _)%NoDup_app key p.
      rewrite Hheap. intros [Hin|Hin%list_elem_of_singleton]%elem_of_app.
      * match goal with
        | |- context [<[?k := _]> _] => assert (k ≠ key) as Hne
        end.
        { intros <-. eapply Hfresh.
          - by apply (list_elem_of_fmap_2 fst _ _ Hin).
          - simpl. by apply list_elem_of_singleton. }
        rewrite lookup_insert_ne by done.
        by apply accounted_grows, Hacc.
      * injection Hin as -> ->. rewrite !lookup_insert_eq. right; left.
        eexists pid_, fields, name, s, _, a. repeat split; try done.
        by apply list_lookup_middle.
Qed.

Lemma collect_param_wrapping (sd : state_dict_t) (c c' : collected)
    (pid_ : pid) (w w' : world) :
  wrapping sd c w →
  collect_param sd c pid_ w = (Ok c', w') →
  wrapping sd c' w'.
Proof.
  unfold collect_param.
  destruct (dict_get (sd_state sd) pid_) as [fields|] eqn:Hfields.
  - intros Hc.
    apply (for_fold_invariant_world (λ item, item ∈ fields) (wrapping sd));
      [|by apply Forall_forall|done].
    intros s x w0 s' w0' Hx Hs. by eapply collect_field_wrapping.
  - by intros Hc [= <- <-].
Qed.

Lemma collect_group_wrapping (sd : state_dict_t) (c c' : collected)
    (item : nat * dict string packed_entry) (w w' : world) :
  sd_param_groups sd !! item.1 = Some item.2 →
  wrapping sd c w →
  collect_group sd c item w = (Ok c', w') →
  wrapping sd c' w'.
Proof.
  destruct item as [index group]. unfold collect_group. simpl.
  intros Hgroup Hc (c1 & w1 & Hopts & Hids)%bind_inv_Ok.
  assert (wrapping sd c1 w1) as Hc1.
  { revert Hopts.
    apply (for_fold_invariant_world (λ item, item ∈ group) (wrapping sd));
      [|by apply Forall_forall|done].
    intros s x w0 s' w0' Hx Hs. by eapply collect_option_wrapping. }
  destruct (dict_get group "params") as [[ids|v]|]; [|done..].
  revert Hids.
  apply (for_fold_invariant_world (λ _, True) (wrapping sd));
    [|by apply Forall_forall|done].
  intros s x w0 s' w0' _ Hs. by apply collect_param_wrapping.
Qed.

Lemma collect_wrapping (sd : state_dict_t) (c : collected) (w w' : world) :
  collect sd w = (Ok c, w') → wrapping sd c w'.
Proof.
  unfold collect.
  apply (for_fold_invariant_world
           (λ item, sd_param_groups sd !! item.1 = Some item.2)
           (wrapping sd)).
  - intros s x w0 s' w0'. apply collect_group_wrapping.
  - apply Forall_forall. intros [i g] Hin. unfold enumerate in Hin.
    apply elem_of_lookup_imap in Hin as (j & y & [= -> ->] & Hy). done.
  - split; simpl.
    + intros k cb. by rewrite lookup_empty.
    + intros _ key p Hin. by apply elem_of_nil in Hin.
Qed.

(** *** What a callback leaves alone *)

Lemma invoke_frame_state (cb : callback) (w w' : world) (q : pid)
    (n : string) :
  invoke cb w = (Ok (), w') →
  slot_of cb ≠ StateSlot q n →
  state_field w' q n = state_field w q n.
Proof.
  destruct cb as [pid_ name t p|index option_key option_tensor dtypes]; simpl.
  - intros (a & w1 & [-> Ha]%read_tensor_run & H)%bind_inv_Ok Hslot.
    apply bind_inv_Ok in H as (x & w1 & [-> Hx]%lift_run & H).
    apply bind_inv_Ok in H as (s & w1 & [-> Hs]%lift_run & H).
    apply set_state_field_run in H as (_ & _ & _ & Hstate).
    rewrite Hstate, decide_False; [done|]. intros [-> ->]. by apply Hslot.
  - intros (a & w1 & [-> Ha]%read_tensor_run & H)%bind_inv_Ok _.
    apply bind_inv_Ok in H as (x & w1 & [-> Hx]%lift_run & H).
    apply bind_inv_Ok in H as (v & w1 & [-> Hv]%lift_run & H).
    apply set_group_option_run in H as (Hh & _ & Hs & _).
    unfold state_field. by rewrite Hs, Hh.
Qed.

Lemma callbacks_frame_state (c : collected) (entries : list (string * loc))
    (w w' : world) (q : pid) (n : string) :
  map_Forall (λ _ cb, slot_of cb ≠ StateSlot q n) (callbacks c) →
  for_each entries (callback_body c) w = (Ok (), w') →
  state_field w' q n = state_field w q n.
Proof.
  intros Hslots. revert w.
  induction entries as [|[key p] entries IH]; intros w.
  - by intros [= <-].
  - unfold for_each. simpl.
    intros ([] & w1 & Hbody & Hrest)%bind_inv_Ok.
    apply IH in Hrest as ->.
    destruct (callbacks c !! key) as [cb|] eqn:Hcb.
    + apply bind_inv_Ok in Hbody as ([] & w0 & [= <-] & Hinv).
      apply invoke_frame_state with (q := q) (n := n) in Hinv; [done|].
      by apply (Hslots key).
    + by injection Hbody as <-.
Qed.

(** *** The batch on the wire *)

Section Rank.
Variable update_rule :
  step_call → optimizer → list ndarray → optimizer * list ndarray.
Variable wire : option string → ndarray → result ndarray.

Lemma batch_waits (root_rank : Z) (batch : list (string * loc))
    (w1 w2 : world) :
  broadcast_parameters wire (ParamsList (inl <$> batch)) root_rank w1
    = (Ok (), w2) →
  for_each ((λ '(key, p), Handle (Some key) p root_rank) <$> batch)
    (synchronize wire)
    {| the_optimizer := the_optimizer w1; heap := heap w1;
       trace := trace w1
                ++ submitted root_rank
                     ((λ '(key, p), (Some key, p)) <$> batch) |}
  = (Ok (), w2).
Proof.
  intros Hbroadcast.
  set (entries := (λ '(key, p), (Some key, p)) <$> batch).
  unfold OptimizerState.broadcast_parameters in Hbroadcast.
  rewrite (bind_Ok _ _ w1 w1 entries) in Hbroadcast.
  2: { unfold entries. rewrite <-list_fmap_compose. by f_equal. }
  rewrite (bind_Ok _ _ _ _ _
             (BroadcastParametersFacts.submit_loop root_rank entries [] w1))
    in Hbroadcast.
  simpl in Hbroadcast. rewrite <-Hbroadcast. f_equal.
  unfold entries. rewrite <-list_fmap_compose.
  apply list_fmap_ext. by intros _ [key p] _.
Qed.

Lemma batch_delivers (root_rank : Z) (batch : list (string * loc))
    (w1 w2 : world) :
  NoDup batch.*2 →
  broadcast_parameters wire (ParamsList (inl <$> batch)) root_rank w1
    = (Ok (), w2) →
  ∀ key p, (key, p) ∈ batch →
    ∃ a received, heap w1 !! p = Some a
      ∧ wire (Some key) a = Ok received
      ∧ heap w2 !! p = Some received.
Proof.
  intros Hnd Hwait%batch_waits key p Hin.
  set (handles := (λ '(key, p), Handle (Some key) p root_rank) <$> batch)
    in Hwait.
  assert (h_tensor <$> handles = batch.*2) as Hlocs.
  { unfold handles. rewrite <-list_fmap_compose.
    apply list_fmap_ext. by intros _ [k q] _. }
  destruct (BroadcastParametersFacts.wait_loop_delivers wire handles _ _
              ltac:(by rewrite Hlocs) Hwait (Handle (Some key) p root_rank))
    as (a & r & Ha & Hr & Hw2).
  { apply list_elem_of_fmap. by exists (key, p). }
  by exists a, r.
Qed.

(** The first item of an array shaped like the wrapper of a value is
    shaped like the value's own array. *)
Lemma wrapper_shape (v0 : pyval) (a received x : ndarray) :
  torch_Tensor (PyList [v0]) = Ok a →
  first_item received = Ok x →
  shape received = shape a →
  ∃ a0 s, tensor_data v0 = Ok a0 ∧ shape a0 = Some s ∧ shape x = Some s.
Proof.
  unfold torch_Tensor. simpl.
  destruct (tensor_data v0) as [a0|] eqn:Ha0; [|done]. simpl.
  destruct (shape a0) as [s|] eqn:Hs; [|done]. simpl.
  intros [= <-] Hx Hshape. exists a0, s. split; [done|]. split; [done|].
  destruct received as [|[|first rest]]; try done.
  injection Hx as ->.
  assert (shape (Array [a0]) = Some (1%nat :: s)) as Hs1
    by (simpl; by rewrite Hs).
  rewrite Hs1 in Hshape.
  apply shape_Array in Hshape as (s' & [= _ <-] & Hall).
  by apply Forall_cons in Hall as [? _].
Qed.

(** X17. What the optimizer holds after a call that returns, when the
    collection gave no key twice, put no tensor in the batch twice and
    visited no field of a parameter twice.  Every entry of the batch holds
    what the broadcast delivered under its key for the contents it went
    out with.  An entry made for an option went out with the tensor of
    the option's value, and the optimizer holds under that option of that
    group what the types recorded from the value make of the first item
    delivered (with these types again when the shape came back).  An entry
    made for a scalar field went out with the tensor of the scalar, and
    the field of that parameter holds what the scalar's type makes of the
    first item delivered, a scalar of that type.  Every other entry is a
    tensor of the state, without a callback. *)
Theorem distinct_keys_restore_every_wrapped_value (root_rank : Z)
    (w w0 w1 w3 : world) (sd : state_dict_t) (c : collected)
    (key : string) (p : loc) :
  is_LBFGS (the_optimizer w) = false →
  prepare update_rule w = (Ok sd, w0) →
  sd_state sd ≠ [] →
  NoDup (visited sd) →
  collect sd w0 = (Ok c, w1) →
  NoDup (params c).*1 →
  NoDup (params c).*2 →
  broadcast_optimizer_state update_rule wire root_rank w = (Ok (), w3) →
  (key, p) ∈ params c →
  ∃ a received,
    heap w1 !! p = Some a
    ∧ wire (Some key) a = Ok received
    ∧ heap w3 !! p = Some received
    ∧ (option_restored sd w3 key a received
       ∨ scalar_restored sd w3 key a received
       ∨ state_tensor sd c key p).
Proof.
  intros Hlbfgs Hprep Hsd Hvis Hcollect Hkeys Hlocs Hrun Hin.
  pose proof (collect_collecting sd c w0 w1 Hvis Hcollect) as Hc.
  pose proof (collecting_coherent _ _ _ Hc) as Hcoh.
  destruct (collect_wrapping sd c w0 w1 Hcollect) as [_ Hacc].
  specialize (Hacc Hkeys key p Hin).
  rewrite (broadcast_optimizer_state_phases update_rule wire root_rank w w0 sd)
    in Hrun by done.
  rewrite (bind_Ok _ _ _ _ _ Hcollect) in Hrun.
  apply bind_inv_Ok in Hrun as ([] & w2 & Hbroadcast & Hcallbacks).
  destruct (batch_delivers root_rank (params c) w1 w2 Hlocs Hbroadcast
              key p Hin) as (a & r & Ha & Hr & Hw2).
  destruct (callback_loop c (params c) w2 w3 Hcoh Hcallbacks)
    as (Hheap & _ & _ & Hres).
  assert (key ∈ (params c).*1) as Hkey
    by apply (list_elem_of_fmap_2 fst _ _ Hin).
  exists a, r. rewrite Hheap. do 3 (split; [done|]).
  destruct Hacc as [Ho|[Hs|Ht]].
  - left.
    destruct Ho as (index & group & option_key & e & a' & Hg & He & -> & Hwrap
                    & Ha' & Hcb).
    assert (a' = a) as -> by congruence.
    destruct (Hres _ _ Hkey Hcb) as (a2 & x & v & Ha2 & Hx & Hv & Hopt).
    assert (a2 = r) as -> by congruence.
    exists index, group, option_key, e, x, v. repeat split; try done.
    intros Hshape.
    destruct (wrapper_shape _ _ _ _ Hwrap Hx Hshape)
      as (a0 & s & Ha0 & Hs0 & Hsx).
    by apply (recursive_cast_types _ a0 x s v).
  - right; left.
    destruct Hs as (pid_ & fields & name & s & n & a' & Hf & Hs & -> & Hwrap
                    & Ha' & Hcb).
    assert (a' = a) as -> by congruence.
    destruct (Hres _ _ Hkey Hcb) as (a2 & x & s' & Ha2 & Hx & Hs' & Hfield).
    assert (a2 = r) as -> by congruence.
    exists pid_, fields, name, s, n, x, s'. repeat split; try done.
    by eapply scalar_cast_type.
  - right; right.
    destruct Ht as (pid_ & fields & name & n & ? & ? & ? & ?).
    by exists pid_, fields, name, n.
Qed.

(** C5 fails on the optimizer of two groups that keeps a scalar
    ["momentum"] next to the option of that name, whatever the transport
    delivers.  The scalar of parameter 101 is wrapped in tensor 2 and
    batched under ["momentum.1"], the key the option of group 1 is batched
    under next, with tensor 4; [callbacks] then holds the option's callback
    under that key.  After a call that returns, tensor 2 holds what the
    broadcast delivered for it, the callback of the option has run at both
    entries of the key, and the field of parameter 101 holds the [0.5] it
    held before the call. *)
Theorem shadowed_scalar_is_not_restored (root_rank : Z) (w3 : world) :
  broadcast_optimizer_state update_rule wire root_rank Sample.adaptive_rank
    = (Ok (), w3) →
  let batch :=
    (collect (pack Sample.adaptive)
       {| the_optimizer := Sample.adaptive; heap := [];
          trace := [EvStateDict] |}).1 in
  params <$> batch
    = Ok [ ("lr.0", 0%nat); ("momentum.0", 1%nat); ("momentum.1", 2%nat);
           ("lr.1", 3%nat); ("momentum.1", 4%nat); ("momentum.2", 5%nat) ]
  ∧ (λ c, callbacks c !! "momentum.1") <$> batch
    = Ok (Some (OptionCallback 1 "momentum" 4%nat (Scalar py_float)))
  ∧ (∃ received,
       wire (Some "momentum.1") (Array [Sample.elem_half]) = Ok received
       ∧ heap w3 !! 2%nat = Some received)
  ∧ (∃ evs,
       Forall no_callback evs
       ∧ trace w3
         = evs ++ (EvCallback <$> [ "lr.0"; "momentum.0"; "momentum.1";
                                    "lr.1"; "momentum.1"; "momentum.2" ]))
  ∧ state_field Sample.adaptive_rank 101 "momentum"
    = Some (inr (PyFloat Sample.half))
  ∧ state_field w3 101 "momentum" = Some (inr (PyFloat Sample.half)).
Proof.
  intros Hrun batch.
  split; [vm_compute; reflexivity|].
  split; [vm_compute; reflexivity|].
  clear batch.
  set (w0 := {| the_optimizer := Sample.adaptive; heap := [];
                trace := [EvStateDict] |}).
  rewrite (broadcast_optimizer_state_phases update_rule wire root_rank
             Sample.adaptive_rank w0 (pack Sample.adaptive))
    in Hrun by done.
  remember (match (collect (pack Sample.adaptive) w0).1 with
            | Ok c => c
            | Err _ => Collected [] ∅ ∅
            end) as c eqn:Hc.
  remember (collect (pack Sample.adaptive) w0).2 as w1 eqn:Hw1.
  assert (collect (pack Sample.adaptive) w0 = (Ok c, w1)) as Hcollect
    by (rewrite Hc, Hw1; vm_compute; reflexivity).
  assert (params c
          = [ ("lr.0", 0%nat); ("momentum.0", 1%nat); ("momentum.1", 2%nat);
              ("lr.1", 3%nat); ("momentum.1", 4%nat); ("momentum.2", 5%nat) ])
    as Hparams by (rewrite Hc; vm_compute; reflexivity).
  assert (filter (λ k, is_Some (callbacks c !! k)) (params c).*1
          = [ "lr.0"; "momentum.0"; "momentum.1"; "lr.1"; "momentum.1";
              "momentum.2" ])
    as Hran by (rewrite Hc; vm_compute; reflexivity).
  assert (map_Forall (λ _ cb, slot_of cb ≠ StateSlot 101 "momentum")
            (callbacks c)) as Hslots
    by (rewrite Hc; apply (bool_decide_unpack _); vm_compute; exact I).
  assert (heap w1 !! 2%nat = Some (Array [Sample.elem_half])) as Hwrapped
    by (rewrite Hw1; vm_compute; reflexivity).
  assert (the_optimizer w1 = Sample.adaptive) as Ho1
    by (rewrite Hw1; vm_compute; reflexivity).
  assert (trace w1 = [EvStateDict]) as Ht1
    by (rewrite Hw1; vm_compute; reflexivity).
  clear Hc Hw1.
  rewrite (bind_Ok _ _ _ _ _ Hcollect) in Hrun.
  apply bind_inv_Ok in Hrun as ([] & w2 & Hbroadcast & Hcallbacks).
  pose proof (broadcast_parameters_same_optimizer wire
                (ParamsList (inl <$> params c)) root_rank w1) as Hopt.
  pose proof (broadcast_parameters_no_callback wire
                (ParamsList (inl <$> params c)) root_rank w1) as Hevs.
  rewrite Hbroadcast in Hopt, Hevs.
  unfold same_optimizer, adds in Hopt, Hevs. simpl in Hopt, Hevs.
  unfold OptimizerState.run_callbacks in Hcallbacks.
  split; [|split; [|split; [done|]]].
  - destruct (batch_delivers root_rank (params c) w1 w2) with
      (key := "momentum.1") (p := 2%nat) as (a & r & Ha & Hr & Hw2);
      [rewrite Hparams; apply (bool_decide_unpack _); vm_compute; exact I
      |done
      |rewrite Hparams; apply (bool_decide_unpack _); vm_compute; exact I|].
    pose proof (eq_trans (eq_sym Ha) Hwrapped) as [= ->].
    exists r. split; [exact Hr|].
    by rewrite (OptimizerStatePhases.callbacks_heap _ _ _ _ Hcallbacks).
  - destruct Hevs as (evs & Hevs & Hno).
    exists ([EvStateDict] ++ evs). split.
    { apply Forall_app. split; [by repeat constructor|done]. }
    by rewrite (OptimizerStatePhases.callbacks_trace _ _ _ _ Hcallbacks), Hevs, Ht1, Hran.
  - rewrite (callbacks_frame_state _ _ _ _ 101 "momentum" Hslots Hcallbacks).
    unfold state_field. by rewrite Hopt, Ho1.
Qed.

End Rank.

(** *** The theorems at work *)

(** Adam on a rank that receives [0.75] in every element: the entry
    ["betas.0"] went out with the tensor of [(0.5, 0.75)] and the option
    holds what the recorded types make of what came back. *)
Lemma distinct_keys_restore_every_wrapped_value_witness :
  let w := Sample.adam_rank in
  let sd := pack Sample.adam in
  let w0 := (prepare Sample.no_update w).2 in
  let w1 := (collect sd w0).2 in
  let c := match (collect sd w0).1 with
           | Ok c => c
           | Err _ => Collected [] ∅ ∅
           end in
  let w3 := (broadcast_optimizer_state Sample.no_update
               Sample.root_sends_rows 0 w).2 in
  ∃ a received,
    heap w1 !! 3%nat = Some a
    ∧ Sample.root_sends_rows (Some "betas.0") a = Ok received
    ∧ heap w3 !! 3%nat = Some received
    ∧ (option_restored sd w3 "betas.0" a received
       ∨ scalar_restored sd w3 "betas.0" a received
       ∨ state_tensor sd c "betas.0" 3%nat).
Proof.
  intros w sd w0 w1 c w3.
  apply (distinct_keys_restore_every_wrapped_value Sample.no_update
           Sample.root_sends_rows 0 w w0 w1 w3 sd c "betas.0" 3%nat).
  - reflexivity.
  - vm_compute; reflexivity.
  - vm_compute. discriminate.
  - exact adam_visits_no_pair_twice.
  - vm_compute; reflexivity.
  - apply (bool_decide_unpack _). vm_compute. exact I.
  - apply (bool_decide_unpack _). vm_compute. exact I.
  - vm_compute; reflexivity.
  - apply (bool_decide_unpack _). vm_compute. exact I.
Defined.

(** The root sends [0.75] for every scalar: tensor 2, made for the field
    of parameter 101, holds it, and the field holds [0.5]. *)
Lemma shadowed_scalar_is_not_restored_witness :
  let w3 := (broadcast_optimizer_state Sample.no_update
               Sample.root_sends_three_quarters 0 Sample.adaptive_rank).2 in
  let batch :=
    (collect (pack Sample.adaptive)
       {| the_optimizer := Sample.adaptive; heap := [];
          trace := [EvStateDict] |}).1 in
  params <$> batch
    = Ok [ ("lr.0", 0%nat); ("momentum.0", 1%nat); ("momentum.1", 2%nat);
           ("lr.1", 3%nat); ("momentum.1", 4%nat); ("momentum.2", 5%nat) ]
  ∧ (λ c, callbacks c !! "momentum.1") <$> batch
    = Ok (Some (OptionCallback 1 "momentum" 4%nat (Scalar py_float)))
  ∧ (∃ received,
       Sample.root_sends_three_quarters (Some "momentum.1")
         (Array [Sample.elem_half]) = Ok received
       ∧ heap w3 !! 2%nat = Some received)
  ∧ (∃ evs,
       Forall no_callback evs
       ∧ trace w3
         = evs ++ (EvCallback <$> [ "lr.0"; "momentum.0"; "momentum.1";
                                    "lr.1"; "momentum.1"; "momentum.2" ]))
  ∧ state_field Sample.adaptive_rank 101 "momentum"
    = Some (inr (PyFloat Sample.half))
  ∧ state_field w3 101 "momentum" = Some (inr (PyFloat Sample.half)).
Proof.
  intros w3.
  apply (shadowed_scalar_is_not_restored Sample.no_update
           Sample.root_sends_three_quarters 0 w3).
  vm_compute; reflexivity.
Defined.

(** With that transport the field of parameter 101, whose tensor came
    back with [0.75], differs from the field of parameter 102, restored
    from its own. *)
Example shadowed_scalar_differs_from_its_tensor :
  let w3 := (broadcast_optimizer_state Sample.no_update
               Sample.root_sends_three_quarters 0 Sample.adaptive_rank).2 in
  heap w3 !! 2%nat = Some (Array [Sample.elem_three_quarters])
  ∧ scalar_cast py_float Sample.elem_three_quarters
    = Ok (PyFloat Sample.three_quarters)
  ∧ state_field w3 101 "momentum" = Some (inr (PyFloat Sample.half))
  ∧ state_field w3 102 "momentum"
    = Some (inr (PyFloat Sample.three_quarters)).
Proof. repeat split; vm_compute; reflexivity. Qed.

End OptimizerStateRestore.

(** ** The further properties at work *)
Module FurtherFactsAtWork.
Import Collective ObjectExchange TypeCast OptimizerState.
Import ObjectExchangeFacts OptimizerStateFacts.
Import ObjectExchangeOutcomes TypeCastTypes BroadcastParametersFacts KeyFacts
  OptimizerStatePhases KeyOrder.

(** Three ranks and a loader that reads nothing: the root returns its
    object, the others raise. *)
Lemma broadcast_object_outcomes_witness :
  run 2 (broadcast_object_group Sample.dump_bytes (λ _, None)
           Sample.type_name_bytes Sample.zero_memory 0 Sample.three_ranks)
  = Some [ Returned ["a"; "b"; "c"]%byte;
           Raised UnpicklingError;
           Raised UnpicklingError ].
Proof.
  apply (broadcast_object_outcomes Sample.dump_bytes (λ _, None)
           Sample.type_name_bytes Sample.zero_memory Sample.three_ranks
           0 _ (Some "model") 2).
  - reflexivity.
  - reflexivity.
  - exact three_ranks_same_channel.
  - lia.
Defined.

(** Three ranks and pickles of 2^31 bytes: the root of a broadcast
    raises and the others wait; in an allgather all three raise. *)
Lemma long_pickle_outcomes_witness :
  run 1 (broadcast_object_group Sample.dump_huge Sample.load_bytes
           Sample.type_name_bytes Sample.zero_memory 0 Sample.three_ranks)
  = Some (imap (λ i _,
                  if decide (i = 0%nat)
                  then Raised (RuntimeError
                         "value cannot be converted to type int32 without overflow")
                  else Hung) Sample.three_ranks)
  ∧ run 1 (allgather_object_group Sample.dump_huge Sample.load_bytes
             Sample.type_name_bytes Sample.three_ranks)
    = Some ((λ c, if decide (Z.of_nat (length (Sample.dump_huge c.1)) < 2 ^ 31)
                  then Hung
                  else Raised (RuntimeError
                         "value cannot be converted to type int32 without overflow"))
              <$> Sample.three_ranks).
Proof.
  apply (long_pickle_outcomes Sample.dump_huge Sample.load_bytes
           Sample.type_name_bytes Sample.zero_memory Sample.three_ranks
           0 ["a"; "b"; "c"]%byte (Some "model") 0).
  - reflexivity.
  - unfold Sample.dump_huge. rewrite length_replicate, Z2Nat.id; lia.
Defined.

(** Three ranks, the second with an empty pickle the loader refuses: all
    three raise. *)
Lemma allgather_object_outcomes_witness :
  run 2 (allgather_object_group Sample.dump_bytes Sample.load_nonempty
           Sample.type_name_bytes Sample.three_ranks)
  = Some [ Raised UnpicklingError;
           Raised UnpicklingError;
           Raised UnpicklingError ].
Proof.
  apply (allgather_object_outcomes Sample.dump_bytes Sample.load_nonempty
           Sample.type_name_bytes Sample.three_ranks 2).
  - repeat constructor.
  - exact three_ranks_same_channel.
  - lia.
Defined.

(** The nested option with [0.75] in every element: the floats are floats,
    the count is an [int] and the flag a [bool] again. *)
Lemma recursive_cast_keeps_types_witness :
  _get_types
    (PyTuple
       [ PyList [ PyScalar (PyFloat Sample.three_quarters);
                  PyScalar (PyFloat Sample.three_quarters) ];
         PyList [ PyScalar (PyInt 0); PyScalar (PyBool true) ] ])
  = _get_types Sample.nested_option.
Proof.
  apply (recursive_cast_keeps_types Sample.nested_option _
           (Array [ Array [ Elem (S754_finite false 8388608 (-24));
                            Elem (S754_finite false 12582912 (-24)) ];
                    Array [ Elem (S754_finite false 16384000 (-14));
                            Elem (S754_finite false 8388608 (-23)) ] ])
           (Sample.filled
              (Array [ Array [ Elem (S754_finite false 8388608 (-24));
                               Elem (S754_finite false 12582912 (-24)) ];
                       Array [ Elem (S754_finite false 16384000 (-14));
                               Elem (S754_finite false 8388608 (-23)) ] ]))).
  - vm_compute. reflexivity.
  - vm_compute. reflexivity.
  - vm_compute. reflexivity.
Defined.

(** Two dictionaries with the same items: one call. *)
Lemma dictionary_is_broadcast_in_key_order_witness :
  Sorted String.le
    (sorted_items [("weight", 1%nat); ("bias", 0%nat)]).*1
  ∧ entries_of (ParamsDict [("bias", 0%nat); ("weight", 1%nat)])
    = entries_of (ParamsDict [("weight", 1%nat); ("bias", 0%nat)])
  ∧ broadcast_parameters Sample.root_sends_rows
      (ParamsDict [("bias", 0%nat); ("weight", 1%nat)]) 0 Sample.sgd_rank
    = broadcast_parameters Sample.root_sends_rows
        (ParamsDict [("weight", 1%nat); ("bias", 0%nat)]) 0 Sample.sgd_rank.
Proof.
  apply (dictionary_is_broadcast_in_key_order Sample.root_sends_rows
           [("weight", 1%nat); ("bias", 0%nat)]
           [("bias", 0%nat); ("weight", 1%nat)] 0 Sample.sgd_rank).
  - apply (bool_decide_unpack _). vm_compute. exact I.
  - apply perm_swap.
Defined.

(** The two momentum buffers of the SGD rank, one named: both hold the
    root's rows after the call. *)
Lemma broadcast_parameters_delivers_witness :
  ∃ a received,
    heap Sample.sgd_rank !! 1%nat = Some a
    ∧ Sample.root_sends_rows (Some "bias") a = Ok received
    ∧ heap (broadcast_parameters Sample.root_sends_rows
              (ParamsList [inr 0%nat; inl ("bias", 1%nat)]) 0
              Sample.sgd_rank).2 !! 1%nat
      = Some received.
Proof.
  apply (broadcast_parameters_delivers Sample.root_sends_rows
           (ParamsList [inr 0%nat; inl ("bias", 1%nat)]) 0
           [(None, 0%nat); (Some "bias", 1%nat)] Sample.sgd_rank
           (broadcast_parameters Sample.root_sends_rows
              (ParamsList [inr 0%nat; inl ("bias", 1%nat)]) 0
              Sample.sgd_rank).2).
  - reflexivity.
  - apply (bool_decide_unpack _). vm_compute. exact I.
  - vm_compute. reflexivity.
  - apply (bool_decide_unpack _). vm_compute. exact I.
Defined.

(** Adam: the names of the options are not names of state fields, and the
    seven keys are distinct. *)
Lemma distinct_names_give_distinct_keys_witness :
  NoDup (params match (collect (pack Sample.adam) Sample.adam_rank).1 with
                | Ok c => c
                | Err _ => Collected [] ∅ ∅
                end).*1.
Proof.
  apply (distinct_names_give_distinct_keys (pack Sample.adam) _
           Sample.adam_rank (collect (pack Sample.adam) Sample.adam_rank).2).
  - apply (bool_decide_unpack _). vm_compute. exact I.
  - apply (bool_decide_unpack _). vm_compute. exact I.
  - vm_compute. reflexivity.
Defined.

(** An option of unequal rows: the call raises the tensor constructor's
    error, and no broadcast has been submitted. *)
Lemma wrapping_error_precedes_every_broadcast_witness :
  let w := Sample.ragged_rank in
  let w0 := (prepare Sample.no_update w).2 in
  let w1 := (collect (pack Sample.ragged) w0).2 in
  broadcast_optimizer_state Sample.no_update Sample.echo 0 w
    = (Err (ValueError "expected sequence of equal lengths"), w1)
  ∧ only_allocates w0 w1.
Proof.
  intros w w0 w1.
  apply (wrapping_error_precedes_every_broadcast Sample.no_update Sample.echo
           0 w w0 w1 (pack Sample.ragged)).
  - reflexivity.
  - vm_compute. reflexivity.
  - discriminate.
  - vm_compute. reflexivity.
Defined.

(** SGD with momentum buffers in place: the state is read once and
    nothing is stepped. *)
Lemma initialized_optimizer_is_not_stepped_witness :
  prepare Sample.no_update Sample.sgd_rank
  = (Ok (pack Sample.sgd),
     {| the_optimizer := Sample.sgd; heap := heap Sample.sgd_rank;
        trace := [EvStateDict] |})
  ∧ ∃ rest,
      trace (broadcast_optimizer_state Sample.no_update Sample.echo 0
               Sample.sgd_rank).2
      = [] ++ [EvStateDict] ++ rest
      ∧ Forall no_initialisation rest.
Proof.
  apply (initialized_optimizer_is_not_stepped Sample.no_update Sample.echo 0
           Sample.sgd_rank).
  - reflexivity.
  - discriminate.
Defined.

(** A fresh optimizer whose step creates nothing: one gradient, one step
    of the parent class, no collective call. *)
Lemma stateless_optimizer_makes_no_collective_call_witness :
  ∃ call evs,
    (broadcast_optimizer_state Sample.no_update Sample.echo 0
       Sample.fresh_rank).1 = Ok ()
    ∧ trace (broadcast_optimizer_state Sample.no_update Sample.echo 0
               Sample.fresh_rank).2 = [] ++ evs
    ∧ evs = [EvStateDict]
            ++ grad_events (param_groups Sample.fresh_distributed
                              ≫= group_params)
            ++ [EvStep call
                  (with_param_groups Sample.fresh_distributed
                     (with_zero_grads (param_groups Sample.fresh_distributed)));
                EvStateDict]
    ∧ Forall no_collective evs.
Proof.
  apply (stateless_optimizer_makes_no_collective_call Sample.no_update
           Sample.echo 0 Sample.fresh_rank).
  - reflexivity.
  - reflexivity.
  - intros call. reflexivity.
Defined.

(** SGD with momentum, every tensor waited for and every option restored:
    four submissions, four waits, three callbacks. *)
Lemma successful_call_goes_over_the_batch_three_times_witness :
  let w := Sample.sgd_rank in
  let sd := pack Sample.sgd in
  let w0 := (prepare Sample.no_update w).2 in
  let c := match (collect sd w0).1 with
           | Ok c => c
           | Err _ => Collected [] ∅ ∅
           end in
  let w3 := (broadcast_optimizer_state Sample.no_update Sample.root_sends_rows
               0 w).2 in
  trace w3
  = trace w0
      ++ submitted 0 ((λ '(key, p), (Some key, p)) <$> params c)
      ++ awaited 0 ((λ '(key, p), (Some key, p)) <$> params c)
      ++ (EvCallback <$> filter (λ k, is_Some (callbacks c !! k))
                           (params c).*1).
Proof.
  intros w sd w0 c w3.
  apply (successful_call_goes_over_the_batch_three_times Sample.no_update
           Sample.root_sends_rows 0 w w0 (collect sd w0).2 w3 sd c).
  - reflexivity.
  - vm_compute. reflexivity.
  - discriminate.
  - vm_compute. reflexivity.
  - vm_compute. reflexivity.
Defined.

(** Adam on two ranks that agree on the names and on no value. *)
Lemma keys_depend_on_names_alone_witness :
  (params match (collect (pack Sample.adam) Sample.adam_rank).1 with
          | Ok c => c
          | Err _ => Collected [] ∅ ∅
          end).*1
  = batch_keys (skeleton (pack Sample.adam))
  ∧ (params match (collect (pack Sample.adam_elsewhere)
                     Sample.adam_elsewhere_rank).1 with
            | Ok c => c
            | Err _ => Collected [] ∅ ∅
            end).*1
    = (params match (collect (pack Sample.adam) Sample.adam_rank).1 with
              | Ok c => c
              | Err _ => Collected [] ∅ ∅
              end).*1.
Proof.
  apply (keys_depend_on_names_alone (pack Sample.adam)
           (pack Sample.adam_elsewhere) _ _
           Sample.adam_rank (collect (pack Sample.adam) Sample.adam_rank).2
           Sample.adam_elsewhere_rank
           (collect (pack Sample.adam_elsewhere)
              Sample.adam_elsewhere_rank).2).
  - vm_compute. reflexivity.
  - vm_compute. reflexivity.
  - vm_compute. reflexivity.
Defined.

(** The nested option with [0.75] in every element is cast back. *)
Lemma recursive_cast_returns_on_finite_arrays_witness :
  ∃ v,
    reconstruct
      (Sample.filled
         (Array [ Array [ Elem (S754_finite false 8388608 (-24));
                          Elem (S754_finite false 12582912 (-24)) ];
                  Array [ Elem (S754_finite false 16384000 (-14));
                          Elem (S754_finite false 8388608 (-23)) ] ]))
      (_get_types Sample.nested_option) = Ok v
    ∧ _get_types v = _get_types Sample.nested_option.
Proof.
  apply (recursive_cast_returns_on_finite_arrays Sample.nested_option
           (Array [ Array [ Elem (S754_finite false 8388608 (-24));
                            Elem (S754_finite false 12582912 (-24)) ];
                    Array [ Elem (S754_finite false 16384000 (-14));
                            Elem (S754_finite false 8388608 (-23)) ] ])).
  - vm_compute. reflexivity.
  - vm_compute. reflexivity.
  - vm_compute. reflexivity.
Defined.

(** SGD with momentum: both buffers hold the root's rows afterwards. *)
Lemma batch_tensors_hold_what_was_delivered_witness :
  let w := Sample.sgd_rank in
  let sd := pack Sample.sgd in
  let w0 := (prepare Sample.no_update w).2 in
  let w1 := (collect sd w0).2 in
  let c := match (collect sd w0).1 with
           | Ok c => c
           | Err _ => Collected [] ∅ ∅
           end in
  let w3 := (broadcast_optimizer_state Sample.no_update Sample.root_sends_rows
               0 w).2 in
  (∀ key p, (key, p) ∈ params c →
     ∃ a received, heap w1 !! p = Some a
       ∧ Sample.root_sends_rows (Some key) a = Ok received
       ∧ heap w3 !! p = Some received)
  ∧ (∀ q, q ∉ (params c).*2 → heap w3 !! q = heap w1 !! q)
  ∧ length (heap w3) = length (heap w1).
Proof.
  intros w sd w0 w1 c w3.
  apply (batch_tensors_hold_what_was_delivered Sample.no_update
           Sample.root_sends_rows 0 w w0 w1 w3 sd c).
  - reflexivity.
  - vm_compute. reflexivity.
  - discriminate.
  - vm_compute. reflexivity.
  - apply (bool_decide_unpack _). vm_compute. exact I.
  - vm_compute. reflexivity.
Defined.

(** The keys of Adam's batch. *)
Example adam_batch_keys :
  batch_keys (skeleton (pack Sample.adam))
  = ["lr.0"; "betas.0"; "amsgrad.0";
     "step.1"; "exp_avg.1"; "step.2"; "exp_avg.2"].
Proof. vm_compute. reflexivity. Qed.

End FurtherFactsAtWork.
